(** * absl/container/internal/inlined_vector.h

    A shallow embedding of the storage layer of [absl::InlinedVector]:
    the element-lifecycle helpers, the value adapters, the allocation
    transaction and [Storage] with [Initialize], [Assign] and
    [ShrinkToFit].

    C++ state is threaded explicitly.  A computation is a function from
    the program state to an outcome: a normal return, a propagating
    exception, or undefined behaviour (an access outside a live buffer,
    constructing over a live element, destroying raw memory, reading the
    inactive member of the union, a failed [assert], a deallocation that
    does not match the allocation). *)

From Stdlib Require Import ZArith Lia.
From stdpp Require Import base decidable option list.

Local Open Scope Z_scope.

(** ** Integers of type [size_type] *)

Definition size_type_bits : Z := 64.
Definition size_type_modulus : Z := 2 ^ size_type_bits.

(** Arithmetic on [size_type] is modulo [2 ^ 64]. *)
Definition wrap (z : Z) : Z := z mod size_type_modulus.

(** One bit of the metadata word is the is-allocated flag, so a size is
    representable when it fits the remaining bits. *)
Definition max_size : Z := 2 ^ (size_type_bits - 1) - 1.

(** [static_cast<size_type>(N)] *)
Definition static_cast_size_type (n : nat) : Z := wrap (Z.of_nat n).

(** ** Memory *)

(** A buffer is either the arena embedded in the [Storage] object or a
    block handed out by the allocator. *)
Inductive region : Type :=
  | inlined_arena
  | heap_block (id : nat).

Inductive pointer : Type :=
  | nullptr
  | slot_ptr (r : region) (offset : nat).

#[global] Instance region_eq_dec : EqDecision region.
Proof. solve_decision. Defined.
#[global] Instance pointer_eq_dec : EqDecision pointer.
Proof. solve_decision. Defined.

(** [p + i] *)
Definition ptr_add (p : pointer) (i : nat) : pointer :=
  match p with
  | nullptr => nullptr
  | slot_ptr r o => slot_ptr r (o + i)%nat
  end.

(** A slot of a buffer holds raw bytes or a live element.  The [0xab]
    pattern that debug builds write over destroyed elements is raw bytes
    like any other. *)
Inductive slot (T : Type) : Type :=
  | Raw
  | Live (v : T).
Arguments Raw {T}.
Arguments Live {T} v.

Definition is_raw {T} (x : slot T) : bool :=
  match x with Raw => true | Live _ => false end.

(** Calls made through [AllocatorTraits]. *)
Inductive event (T : Type) : Type :=
  | EvAllocate (p : pointer) (n : Z)
  | EvDeallocate (p : pointer) (n : Z)
  | EvConstruct (p : pointer) (v : T)
  | EvDestroy (p : pointer).
Arguments EvAllocate {T} p n.
Arguments EvDeallocate {T} p n.
Arguments EvConstruct {T} p v.
Arguments EvDestroy {T} p.

Definition is_allocation_event {T} (ev : event T) : bool :=
  match ev with
  | EvAllocate _ _ | EvDeallocate _ _ => true
  | EvConstruct _ _ | EvDestroy _ => false
  end.

Definition is_deallocate_event {T} (ev : event T) : bool :=
  match ev with EvDeallocate _ _ => true | _ => false end.

(** [union Data { Allocated allocated; Inlined inlined; }]: the member
    written last is the one that can be read. *)
Inductive Data (T : Type) : Type :=
  | inlined (inlined_data : list (slot T))
  | allocated (allocated_data : pointer) (allocated_capacity : Z).
Arguments inlined {T} inlined_data.
Arguments allocated {T} allocated_data allocated_capacity.

(** The [Storage] object ([metadata_] is the size-and-is-allocated word,
    the allocator half of the tuple is the [heap] and the [trace]) and
    the blocks of its allocator: block [b] is [heap !! b], [None] once it
    has been deallocated. *)
Record state (T : Type) : Type := mk_state {
  metadata_ : Z;
  data_ : Data T;
  heap : list (option (list (slot T)));
  trace : list (event T);
}.
Arguments mk_state {T} _ _ _ _.
Arguments metadata_ {T} _.
Arguments data_ {T} _.
Arguments heap {T} _.
Arguments trace {T} _.

Definition set_metadata {T} (z : Z) (s : state T) : state T :=
  mk_state z (data_ s) (heap s) (trace s).
Definition set_data {T} (d : Data T) (s : state T) : state T :=
  mk_state (metadata_ s) d (heap s) (trace s).
Definition set_heap {T} (h : list (option (list (slot T)))) (s : state T) : state T :=
  mk_state (metadata_ s) (data_ s) h (trace s).
Definition log {T} (evs : list (event T)) (s : state T) : state T :=
  mk_state (metadata_ s) (data_ s) (heap s) (trace s ++ evs).

(** ** Outcomes and the monad of computations *)

Inductive outcome (S E A : Type) : Type :=
  | Ret (a : A) (s : S)
  | Throw (e : E) (s : S)
  | Undefined.
Arguments Ret {S E A} a s.
Arguments Throw {S E A} e s.
Arguments Undefined {S E A}.

(** The state a call leaves behind, whether it returned or threw. *)
Definition final_state {S E A} (r : outcome S E A) : option S :=
  match r with
  | Ret _ s | Throw _ s => Some s
  | Undefined => None
  end.

Definition M (T E A : Type) : Type := state T -> outcome (state T) E A.

Definition ret {T E A} (a : A) : M T E A := fun s => Ret a s.

Definition bind {T E A B} (m : M T E A) (k : A -> M T E B) : M T E B :=
  fun s =>
    match m s with
    | Ret a s' => k a s'
    | Throw e s' => Throw e s'
    | Undefined => Undefined
    end.

Definition throw {T E A} (e : E) : M T E A := fun s => Throw e s.

Definition undefined {T E A} : M T E A := fun _ => Undefined.

(** [ABSL_INTERNAL_TRY { body } ABSL_INTERNAL_CATCH_ANY { handler }]; the
    handler ends in [throw] where the source ends in
    [ABSL_INTERNAL_RETHROW].  The same combinator runs a destructor while
    an exception unwinds the scope of its object. *)
Definition catch_any {T E A} (body : M T E A) (handler : E -> M T E A) : M T E A :=
  fun s =>
    match body s with
    | Throw e s' => handler e s'
    | r => r
    end.

Definition gets {T E A} (f : state T -> A) : M T E A := fun s => Ret (f s) s.

Definition modify {T E} (f : state T -> state T) : M T E unit := fun s => Ret tt (f s).

Definition assert {T E} (b : bool) : M T E unit := if b then ret tt else undefined.

Notation "'do' x <- m ; k" := (bind m (fun x => k))
  (at level 10, x name, m at level 100, k at level 200).
Notation "'do' ' pat <- m ; k" := (bind m (fun x => match x with pat => k end))
  (at level 10, pat pattern, m at level 100, k at level 200).

(** ** Template parameters *)

(** The element type: what its special member functions throw.  A copy
    or a move yields the value of its source; a move leaves [moved_from v]
    behind.  A throwing assignment or move reports the state it leaves the
    target (the source, for a move construction) in. *)
Class ValueType (T E : Type) : Type := {
  default_value : T;
  default_throws : option E;
  copy_throws : T -> option E;
  copy_assign_throws : T -> T -> option (E * T);
  move_assign_throws : T -> T -> option (E * T);
  move_throws : T -> option (E * T);
  moved_from : T -> T;
}.

(** The allocator: whether [allocate(n)] throws, given the calls made so
    far.  [deallocate] and [destroy] never throw. *)
Class Allocator (T E : Type) : Type := {
  allocate_throws : list (event T) -> Z -> option E;
}.

(** The inline capacity [N] of [Storage<T, N, A>]. *)
Class InlinedCapacity : Type := N : nat.

Section Model.
Context {T E : Type} {VT : ValueType T E} {Al : Allocator T E} {IC : InlinedCapacity}.

(** *** Buffers *)

(** The arena as a list of [N] slots.  While the [allocated] member of
    the union is the active one the arena is raw bytes. *)
Definition inlined_slots (d : Data T) : list (slot T) :=
  match d with
  | inlined l => l
  | allocated _ _ => replicate N Raw
  end.

Definition buffer_at (r : region) (s : state T) : option (list (slot T)) :=
  match r with
  | inlined_arena => Some (inlined_slots (data_ s))
  | heap_block b => mjoin (heap s !! b)
  end.

(** Writing into the arena makes [inlined] the active member of the
    union: whatever the [allocated] member held is gone. *)
Definition set_buffer (r : region) (l : list (slot T)) (s : state T) : state T :=
  match r with
  | inlined_arena => set_data (inlined l) s
  | heap_block b => set_heap (<[b := Some l]> (heap s)) s
  end.

Definition load (p : pointer) : M T E (slot T) :=
  fun s =>
    match p with
    | nullptr => Undefined
    | slot_ptr r i =>
        match buffer_at r s ≫= (.!! i) with
        | Some x => Ret x s
        | None => Undefined
        end
    end.

Definition store (p : pointer) (x : slot T) : M T E unit :=
  fun s =>
    match p with
    | nullptr => Undefined
    | slot_ptr r i =>
        match buffer_at r s with
        | Some l => if bool_decide (i < length l)%nat
                    then Ret tt (set_buffer r (<[i := x]> l) s)
                    else Undefined
        | None => Undefined
        end
    end.

(** *** [AllocatorTraits] *)

Definition allocate (n : Z) : M T E pointer :=
  fun s =>
    match allocate_throws (trace s) n with
    | Some e => Throw e s
    | None =>
        let p := slot_ptr (heap_block (length (heap s))) 0 in
        Ret p (log [EvAllocate p n]
                 (set_heap (heap s ++ [Some (replicate (Z.to_nat n) Raw)]) s))
    end.

(** The block must be live, be given back whole with the capacity it
    was allocated with, and hold no live element. *)
Definition deallocate (p : pointer) (n : Z) : M T E unit :=
  fun s =>
    match p with
    | slot_ptr (heap_block b) O =>
        match heap s !! b with
        | Some (Some l) =>
            if bool_decide (Z.of_nat (length l) = n) && forallb is_raw l
            then Ret tt (log [EvDeallocate p n] (set_heap (<[b := None]> (heap s)) s))
            else Undefined
        | _ => Undefined
        end
    | _ => Undefined
    end.

(** [construct(alloc, p, args...)] for a constructor that throws
    [throws] or else builds [v].  A constructor that throws may already
    have written to its destination. *)
Definition construct (p : pointer) (throws : option E) (v : T) : M T E unit :=
  do x <- load p;
  match x with
  | Live _ => undefined
  | Raw =>
      match throws with
      | Some e => do _ <- store p Raw; throw e
      | None => do _ <- store p (Live v); modify (log [EvConstruct p v])
      end
  end.

Definition destroy (p : pointer) : M T E unit :=
  do x <- load p;
  match x with
  | Raw => undefined
  | Live _ => do _ <- store p Raw; modify (log [EvDestroy p])
  end.

(** [*p = v] for an assignment operator that throws [throws old]. *)
Definition assign (p : pointer) (throws : T -> option (E * T)) (v : T) : M T E unit :=
  do x <- load p;
  match x with
  | Raw => undefined
  | Live old =>
      match throws old with
      | Some (e, rest) => do _ <- store p (Live rest); throw e
      | None => store p (Live v)
      end
  end.

(** *** Element-lifecycle helpers *)

Fixpoint DestroyElements_loop (destroy_first : pointer) (i remaining : nat) : M T E unit :=
  match remaining with
  | O => ret tt
  | S k =>
      do _ <- destroy (ptr_add destroy_first i);
      DestroyElements_loop destroy_first (S i) k
  end.

Definition DestroyElements (destroy_first : pointer) (destroy_size : Z) : M T E unit :=
  DestroyElements_loop destroy_first 0 (Z.to_nat destroy_size).

(** The protocol of a value adapter.  A method returns the adapter as
    the call leaves it. *)
Class ValueAdapter (A : Type) : Type := {
  ConstructNext : A -> pointer -> M T E A;
  AssignNext : A -> pointer -> M T E A;
}.

Fixpoint ConstructElements_loop {A} `{ValueAdapter A}
    (construct_first : pointer) (values : A) (i remaining : nat) : M T E A :=
  match remaining with
  | O => ret values
  | S k =>
      do values' <-
        catch_any (ConstructNext values (ptr_add construct_first i))
          (fun e =>
             do _ <- DestroyElements construct_first (Z.of_nat i);
             throw e);
      ConstructElements_loop construct_first values' (S i) k
  end.

Definition ConstructElements {A} `{ValueAdapter A}
    (construct_first : pointer) (values : A) (construct_size : Z) : M T E A :=
  ConstructElements_loop construct_first values 0 (Z.to_nat construct_size).

Fixpoint AssignElements_loop {A} `{ValueAdapter A}
    (assign_first : pointer) (values : A) (i remaining : nat) : M T E A :=
  match remaining with
  | O => ret values
  | S k =>
      do values' <- AssignNext values (ptr_add assign_first i);
      AssignElements_loop assign_first values' (S i) k
  end.

Definition AssignElements {A} `{ValueAdapter A}
    (assign_first : pointer) (values : A) (assign_size : Z) : M T E A :=
  AssignElements_loop assign_first values 0 (Z.to_nat assign_size).

(** *** Value adapters *)

(** An adapter whose values come from outside the storage: the value
    the next call yields, the adapter after the call, and what the
    element's constructor or assignment operator throws on that value. *)
Class ValueSequence (A : Type) : Type := {
  next_value : A -> T;
  advance : A -> A;
  construct_throws : A -> option E;
  assign_throws : A -> T -> option (E * T);
}.

#[global] Instance sequence_adapter {A} `{ValueSequence A} : ValueAdapter A := {|
  ConstructNext values construct_at :=
    do _ <- construct construct_at (construct_throws values) (next_value values);
    ret (advance values);
  AssignNext values assign_at :=
    do _ <- assign assign_at (assign_throws values) (next_value values);
    ret (advance values);
|}.

(** A forward iterator over a range outside the storage. *)
Class Iterator (It : Type) : Type := {
  deref : It -> T;
  incr : It -> It;
}.

Record IteratorValueAdapter (It : Type) : Type := { it_ : It }.
Arguments it_ {It} _.

#[global] Instance IteratorValueAdapter_sequence {It} `{Iterator It} :
  ValueSequence (IteratorValueAdapter It) := {|
  next_value a := deref (it_ a);
  advance a := {| it_ := incr (it_ a) |};
  construct_throws a := copy_throws (deref (it_ a));
  assign_throws a old := copy_assign_throws old (deref (it_ a));
|}.

Record CopyValueAdapter : Type := { ptr_ : T }.

#[global] Instance CopyValueAdapter_sequence : ValueSequence CopyValueAdapter := {|
  next_value a := ptr_ a;
  advance a := a;
  construct_throws a := copy_throws (ptr_ a);
  assign_throws a old := copy_assign_throws old (ptr_ a);
|}.

Inductive DefaultValueAdapter : Type := default_values.

#[global] Instance DefaultValueAdapter_sequence : ValueSequence DefaultValueAdapter := {|
  next_value _ := default_value;
  advance a := a;
  construct_throws _ := default_throws;
  assign_throws _ old :=
    match default_throws with
    | Some e => Some (e, old)
    | None => move_assign_throws old default_value
    end;
|}.

(** [std::move_iterator<pointer>]: the iterator [ShrinkToFit] reads the
    elements of the storage through. *)
Record MoveIterator : Type := { base : pointer }.

#[global] Instance IteratorValueAdapter_move :
  ValueAdapter (IteratorValueAdapter MoveIterator) := {|
  ConstructNext values construct_at :=
    do x <- load (base (it_ values));
    match x with
    | Raw => undefined
    | Live v =>
        match move_throws v with
        | Some (e, rest) =>
            do _ <- store (base (it_ values)) (Live rest);
            do _ <- construct construct_at (Some e) v;
            ret values
        | None =>
            do _ <- construct construct_at None v;
            do _ <- store (base (it_ values)) (Live (moved_from v));
            ret {| it_ := {| base := ptr_add (base (it_ values)) 1 |} |}
        end
    end;
  AssignNext values assign_at :=
    do x <- load (base (it_ values));
    match x with
    | Raw => undefined
    | Live v =>
        do _ <- assign assign_at (fun old => move_assign_throws old v) v;
        do _ <- store (base (it_ values)) (Live (moved_from v));
        ret {| it_ := {| base := ptr_add (base (it_ values)) 1 |} |}
    end;
|}.

(** *** [StorageView], [AllocationTransaction] *)

Record StorageView : Type := {
  data : pointer;
  size : Z;
  capacity : Z;
}.

(** [absl::Span<value_type>] *)
Record Span : Type := {
  span_data : pointer;
  span_size : Z;
}.

Definition empty_span : Span := {| span_data := nullptr; span_size := 0 |}.

(** The allocator half of [alloc_data_] is the allocator of the state. *)
Record AllocationTransaction : Type := {
  alloc_data_ : pointer;
  capacity_ : Z;
}.

Definition new_AllocationTransaction : AllocationTransaction :=
  {| alloc_data_ := nullptr; capacity_ := 0 |}.

Definition DidAllocate (tx : AllocationTransaction) : bool :=
  bool_decide (alloc_data_ tx <> nullptr).

Definition Allocate (tx : AllocationTransaction) (capacity : Z) :
    M T E (pointer * AllocationTransaction) :=
  do p <- allocate capacity;
  ret (p, {| alloc_data_ := p; capacity_ := capacity |}).

(** [~AllocationTransaction()] *)
Definition delete_AllocationTransaction (tx : AllocationTransaction) : M T E unit :=
  if DidAllocate tx then deallocate (alloc_data_ tx) (capacity_ tx) else ret tt.

(** *** [Storage] *)

Definition GetSizeAndIsAllocated (s : state T) : Z := metadata_ s.

Definition GetSize (s : state T) : Z := Z.shiftr (GetSizeAndIsAllocated s) 1.

Definition GetIsAllocated (s : state T) : bool :=
  negb (Z.land (GetSizeAndIsAllocated s) 1 =? 0).

Definition GetInlinedData : pointer := slot_ptr inlined_arena 0.

Definition GetAllocatedData : M T E pointer :=
  fun s =>
    match data_ s with
    | allocated p _ => Ret p s
    | inlined _ => Undefined
    end.

Definition GetAllocatedCapacity : M T E Z :=
  fun s =>
    match data_ s with
    | allocated _ c => Ret c s
    | inlined _ => Undefined
    end.

Definition MakeStorageView : M T E StorageView :=
  do is_allocated <- gets GetIsAllocated;
  do sz <- gets GetSize;
  if is_allocated
  then
    do p <- GetAllocatedData;
    do c <- GetAllocatedCapacity;
    ret {| data := p; size := sz; capacity := c |}
  else
    ret {| data := GetInlinedData; size := sz; capacity := static_cast_size_type N |}.

Definition SetIsAllocated : M T E unit :=
  modify (fun s => set_metadata (Z.lor (GetSizeAndIsAllocated s) 1) s).

Definition UnsetIsAllocated : M T E unit :=
  do _ <- SetIsAllocated;
  modify (fun s => set_metadata (wrap (GetSizeAndIsAllocated s - 1)) s).

Definition SetAllocatedSize (size : Z) : M T E unit :=
  modify (set_metadata (Z.lor (wrap (Z.shiftl size 1)) 1)).

Definition SetInlinedSize (size : Z) : M T E unit :=
  modify (set_metadata (wrap (Z.shiftl size 1))).

Definition SetSize (size : Z) : M T E unit :=
  modify (fun s =>
    set_metadata (Z.lor (wrap (Z.shiftl size 1)) (Z.b2z (GetIsAllocated s))) s).

Definition AddSize (count : Z) : M T E unit :=
  modify (fun s =>
    set_metadata (wrap (GetSizeAndIsAllocated s + wrap (Z.shiftl count 1))) s).

Definition SubtractSize (count : Z) : M T E unit :=
  do sz <- gets GetSize;
  do _ <- assert (count <=? sz);
  modify (fun s =>
    set_metadata (wrap (GetSizeAndIsAllocated s - wrap (Z.shiftl count 1))) s).

Definition SetAllocatedData (data : pointer) (capacity : Z) : M T E unit :=
  modify (set_data (allocated data capacity)).

Definition DeallocateIfAllocated : M T E unit :=
  do is_allocated <- gets GetIsAllocated;
  if is_allocated
  then
    do p <- GetAllocatedData;
    do c <- GetAllocatedCapacity;
    deallocate p c
  else ret tt.

Definition AcquireAllocation (allocation_tx : AllocationTransaction) :
    M T E AllocationTransaction :=
  do _ <- SetAllocatedData (alloc_data_ allocation_tx) (capacity_ allocation_tx);
  ret {| alloc_data_ := nullptr; capacity_ := 0 |}.

Definition DestroyAndDeallocate : M T E unit :=
  do is_allocated <- gets GetIsAllocated;
  do first <- (if is_allocated then GetAllocatedData else ret GetInlinedData);
  do sz <- gets GetSize;
  do _ <- DestroyElements first sz;
  DeallocateIfAllocated.

Definition Initialize {A} `{ValueAdapter A} (values : A) (new_size : Z) : M T E unit :=
  do is_allocated <- gets GetIsAllocated;
  do _ <- assert (negb is_allocated);
  do sz <- gets GetSize;
  do _ <- assert (sz =? 0);
  do construct_data <-
    (if static_cast_size_type N <? new_size
     then
       do p <- allocate new_size;
       do _ <- SetAllocatedData p new_size;
       do _ <- SetIsAllocated;
       ret p
     else ret GetInlinedData);
  do _ <- ConstructElements construct_data values new_size;
  AddSize new_size.

Definition Assign {A} `{ValueAdapter A} (values : A) (new_size : Z) : M T E unit :=
  do storage_view <- MakeStorageView;
  let allocation_tx := new_AllocationTransaction in
  do '(allocation_tx, assign_loop, construct_loop, destroy_loop) <-
    (if capacity storage_view <? new_size
     then
       do '(p, allocation_tx) <- Allocate allocation_tx new_size;
       ret (allocation_tx,
            empty_span,
            {| span_data := p; span_size := new_size |},
            {| span_data := data storage_view; span_size := size storage_view |})
     else if size storage_view <? new_size
     then
       ret (allocation_tx,
            {| span_data := data storage_view; span_size := size storage_view |},
            {| span_data := ptr_add (data storage_view) (Z.to_nat (size storage_view));
               span_size := wrap (new_size - size storage_view) |},
            empty_span)
     else
       ret (allocation_tx,
            {| span_data := data storage_view; span_size := new_size |},
            empty_span,
            {| span_data := ptr_add (data storage_view) (Z.to_nat new_size);
               span_size := wrap (size storage_view - new_size) |}));
  do _ <-
    catch_any
      (do values <- AssignElements (span_data assign_loop) values (span_size assign_loop);
       do _ <- ConstructElements (span_data construct_loop) values (span_size construct_loop);
       DestroyElements (span_data destroy_loop) (span_size destroy_loop))
      (fun e => do _ <- delete_AllocationTransaction allocation_tx; throw e);
  do allocation_tx <-
    (if DidAllocate allocation_tx
     then
       do _ <- DeallocateIfAllocated;
       do allocation_tx <- AcquireAllocation allocation_tx;
       do _ <- SetIsAllocated;
       ret allocation_tx
     else ret allocation_tx);
  do _ <- SetSize new_size;
  delete_AllocationTransaction allocation_tx.

Definition ShrinkToFit : M T E unit :=
  do is_allocated <- gets GetIsAllocated;
  do _ <- assert is_allocated;
  do p <- GetAllocatedData;
  do sz <- gets GetSize;
  do c <- GetAllocatedCapacity;
  let storage_view := {| data := p; size := sz; capacity := c |} in
  let allocation_tx := new_AllocationTransaction in
  let move_values := {| it_ := {| base := data storage_view |} |} in
  do target <-
    (if size storage_view <=? static_cast_size_type N
     then ret (Some (GetInlinedData, allocation_tx))
     else
       do c' <- GetAllocatedCapacity;
       if size storage_view <? c'
       then do r <- Allocate allocation_tx (size storage_view); ret (Some r)
       else ret None);
  match target with
  | None => delete_AllocationTransaction allocation_tx
  | Some (construct_data, allocation_tx) =>
      do _ <-
        catch_any
          (catch_any
             (ConstructElements construct_data move_values (size storage_view))
             (fun e =>
                do _ <- SetAllocatedData (data storage_view) (capacity storage_view);
                throw e))
          (fun e => do _ <- delete_AllocationTransaction allocation_tx; throw e);
      do _ <- DestroyElements (data storage_view) (size storage_view);
      do _ <- deallocate (data storage_view) (capacity storage_view);
      do allocation_tx <-
        (if DidAllocate allocation_tx
         then AcquireAllocation allocation_tx
         else do _ <- UnsetIsAllocated; ret allocation_tx);
      delete_AllocationTransaction allocation_tx
  end.

End Model.

Arguments it_ {It} _.
Arguments Build_IteratorValueAdapter {It} _.

(** ** Vocabulary of the specification *)

Section Vocabulary.
Context {T E : Type} {VT : ValueType T E} {Al : Allocator T E} {IC : InlinedCapacity}.

(** The adapter's sequence: the values its next [k] calls yield, and the
    adapter after them. *)
Fixpoint adapter_values {A} `{ValueSequence (T:=T) (E:=E) A} (values : A) (k : nat) : list T :=
  match k with
  | O => []
  | S k' => next_value values :: adapter_values (advance values) k'
  end.

Fixpoint advance_n {A} `{ValueSequence (T:=T) (E:=E) A} (values : A) (k : nat) : A :=
  match k with
  | O => values
  | S k' => advance_n (advance values) k'
  end.

(** The first of the next [k] constructions that throws, and what. *)
Fixpoint first_construct_throw {A} `{ValueSequence (T:=T) (E:=E) A}
    (values : A) (k : nat) : option (nat * E) :=
  match k with
  | O => None
  | S k' =>
      match construct_throws values with
      | Some e => Some (O, e)
      | None =>
          match first_construct_throw (advance values) k' with
          | Some (j, e) => Some (S j, e)
          | None => None
          end
      end
  end.

(** The first assignment over the elements [olds] that throws, what it
    throws and what it leaves in its target. *)
Fixpoint first_assign_throw {A} `{ValueSequence (T:=T) (E:=E) A}
    (values : A) (olds : list T) : option (nat * (E * T)) :=
  match olds with
  | [] => None
  | old :: olds' =>
      match assign_throws values old with
      | Some r => Some (O, r)
      | None =>
          match first_assign_throw (advance values) olds' with
          | Some (j, r) => Some (S j, r)
          | None => None
          end
      end
  end.

(** The first move construction from the elements [vs] that throws. *)
Fixpoint first_move_throw (vs : list T) : option (nat * (E * T)) :=
  match vs with
  | [] => None
  | v :: vs' =>
      match move_throws v with
      | Some r => Some (O, r)
      | None =>
          match first_move_throw vs' with
          | Some (j, r) => Some (S j, r)
          | None => None
          end
      end
  end.

(** The adapter throws in none of its next [k] calls. *)
Definition never_throws {A} `{ValueSequence (T:=T) (E:=E) A} (values : A) (k : nat) : Prop :=
  forall i, (i < k)%nat ->
    construct_throws (advance_n values i) = None /\
    forall old, assign_throws (advance_n values i) old = None.

(** The calls [construct(first + i, v)], ... and [destroy(first + i)], ...
    for [k] slots from index [i] on. *)
Definition construct_events (first : pointer) (i : nat) (vs : list T) : list (event T) :=
  zip_with (fun j v => EvConstruct (ptr_add first j) v) (seq i (length vs)) vs.

Definition destroy_events (first : pointer) (i k : nat) : list (event T) :=
  (fun j => EvDestroy (ptr_add first j)) <$> seq i k.

(** The calls to [ConstructNext] that [ConstructElements] makes, without
    its handler: what the first [k] constructions do when none throws. *)
Fixpoint construct_run {A} `{ValueAdapter (T:=T) (E:=E) A}
    (construct_first : pointer) (values : A) (i k : nat) : M T E A :=
  match k with
  | O => ret values
  | S k' =>
      do values' <- ConstructNext values (ptr_add construct_first i);
      construct_run construct_first values' (S i) k'
  end.

(** The state after a loop of [k] writes into region [r] that leaves the
    buffer as [l] and makes the calls [evs]: a loop of no iteration
    leaves the state alone. *)
Definition written (k : nat) (r : region) (l : list (slot T)) (evs : list (event T))
    (s : state T) : state T :=
  match k with
  | O => s
  | S _ => log evs (set_buffer r l s)
  end.

(** A buffer of [cap] slots whose live elements are [vs], in order, with
    raw memory after them. *)
Definition holds (vs : list T) (cap : nat) : list (slot T) :=
  (Live <$> vs) ++ replicate (cap - length vs) Raw.

Inductive mode : Type :=
  | Inline
  | Heap (b : nat) (cap : Z).

Definition capacity_of (m : mode) : Z :=
  match m with
  | Inline => Z.of_nat N
  | Heap _ cap => cap
  end.

(** The buffer of a [Storage] in mode [m], and the pointer to it. *)
Definition region_of (m : mode) : region :=
  match m with
  | Inline => inlined_arena
  | Heap b _ => heap_block b
  end.

Definition data_of (m : mode) : pointer := slot_ptr (region_of m) 0.

(** A well-formed [Storage] in mode [m] whose elements are [vs]: the
    metadata word packs the size and the mode, a heap storage has the
    pointer and the capacity of its block in the union, and the buffer
    holds [vs] and nothing else. *)
Definition Stores (s : state T) (m : mode) (vs : list T) : Prop :=
  Z.of_nat (length vs) <= max_size /\
  Z.of_nat (length vs) <= capacity_of m /\
  buffer_at (region_of m) s = Some (holds vs (Z.to_nat (capacity_of m))) /\
  match m with
  | Inline => metadata_ s = 2 * Z.of_nat (length vs)
  | Heap b cap =>
      metadata_ s = 2 * Z.of_nat (length vs) + 1 /\
      data_ s = allocated (slot_ptr (heap_block b) 0) cap
  end.

(** The adapter [ShrinkToFit] builds: a move iterator at element [i] of
    block [b]. *)
Definition move_values_at (b i : nat) : IteratorValueAdapter MoveIterator :=
  {| it_ := {| base := slot_ptr (heap_block b) i |} |}.

(** Whether a pointer points outside the arena of the [Storage] object
    ([nullptr] does). *)
Definition off_arena (p : pointer) : bool :=
  match p with
  | slot_ptr inlined_arena _ => false
  | _ => true
  end.

(** What a call that only reads and writes elements leaves alone: the
    metadata word and, when it stays off the arena, the union. *)
Definition frame (keeps_data : bool) (s s' : state T) : Prop :=
  metadata_ s' = metadata_ s /\ (keeps_data = true -> data_ s' = data_ s).

(** Partial correctness: if [m], started in [s], returns then [Q] holds
    of its result and final state, and if it throws then [R] holds of
    the exception and the final state. *)
Definition post {X} (m : M T E X) (s : state T)
    (Q : X -> state T -> Prop) (R : E -> state T -> Prop) : Prop :=
  match m s with
  | Ret a s' => Q a s'
  | Throw e s' => R e s'
  | Undefined => True
  end.

(** A computation that keeps the frame on every path, and whose results
    satisfy [I]. *)
Definition framed (k : bool) {X} (I : X -> Prop) (m : M T E X) : Prop :=
  forall s, post m s (fun a s' => I a /\ frame k s s') (fun _ s' => frame k s s').

(** The calls to [allocate] and [deallocate] in a trace. *)
Definition allocation_calls (t : list (event T)) : list (event T) :=
  filter (fun ev => is_allocation_event ev = true) t.

(** A storage in heap mode points to the start of a block whose capacity
    exceeds the inline capacity. *)
Definition heap_capacity_invariant (s : state T) : Prop :=
  GetIsAllocated s = true ->
  exists b cap, data_ s = allocated (slot_ptr (heap_block b) 0) cap /\ Z.of_nat N < cap.

(** The states a [Storage] goes through: it starts empty and inline, and
    changes in [Initialize], [Assign] and [ShrinkToFit] only, whether the
    call returns or throws. *)
Inductive reachable : state T -> Prop :=
  | reachable_empty s :
      Stores s Inline [] -> reachable s
  | reachable_Initialize s s' (A : Type) (VS : ValueSequence A) (values : A) (new_size : Z) :
      reachable s ->
      final_state (Initialize values new_size s) = Some s' ->
      reachable s'
  | reachable_Assign s s' (A : Type) (VS : ValueSequence A) (values : A) (new_size : Z) :
      reachable s ->
      final_state (Assign values new_size s) = Some s' ->
      reachable s'
  | reachable_ShrinkToFit s s' :
      reachable s ->
      final_state (ShrinkToFit s) = Some s' ->
      reachable s'.

End Vocabulary.

(** ** A concrete instantiation: integer elements *)

Module Scenario.

(** Copying the value [13] throws exception [1], copy-assigning it throws
    [2] and leaves the target as it was, moving the value [14] throws [3]
    and leaves the source as it was; a moved-from element reads [0]. *)
#[export] Instance Z_elements : ValueType Z nat := {|
  default_value := 0;
  default_throws := None;
  copy_throws v := if v =? 13 then Some 1%nat else None;
  copy_assign_throws old v := if v =? 13 then Some (2%nat, old) else None;
  move_assign_throws _ _ := None;
  move_throws v := if v =? 14 then Some (3%nat, v) else None;
  moved_from _ := 0;
|}.

(** An allocator that always has memory. *)
#[export] Instance plentiful : Allocator Z nat := {|
  allocate_throws _ _ := None;
|}.

(** An iterator over the integers, in order. *)
#[export] Instance counting : Iterator (T:=Z) Z := {|
  deref z := z;
  incr z := z + 1;
|}.

Definition counting_from (z : Z) : IteratorValueAdapter Z := {| it_ := z |}.

(** [Storage<Z, 4, A>] *)
#[export] Instance four_inline : InlinedCapacity := 4%nat.

(** [Storage()] *)
Definition empty_storage : state Z :=
  mk_state 0 (inlined (replicate N Raw)) [] [].

(** An inline storage of two elements. *)
Definition inline_pair : state Z :=
  mk_state 4 (inlined [Live 0; Live 0; Raw; Raw]) [] [].

(** Heap storages of three elements in a block of capacity 10; moving
    the second element of the latter throws. *)
Definition heap_three : state Z :=
  mk_state 7 (allocated (slot_ptr (heap_block 0) 0) 10)
    [Some ([Live 1; Live 2; Live 3] ++ replicate 7 Raw)] [].

Definition heap_unmovable : state Z :=
  mk_state 7 (allocated (slot_ptr (heap_block 0) 0) 10)
    [Some ([Live 12; Live 14; Live 15] ++ replicate 7 Raw)] [].

(** The state a call leaves behind. *)
Definition after {X} (m : M Z nat X) (s : state Z) : state Z :=
  match m s with
  | Ret _ s' | Throw _ s' => s'
  | Undefined => s
  end.

(** A heap storage that is full: six copies of [7] in a block of
    capacity 6. *)
Definition heap_full : state Z :=
  after (Initialize {| ptr_ := 7 |} 6) empty_storage.

(** A heap storage of six elements in a block of capacity 10. *)
Definition heap_six : state Z :=
  mk_state 13 (allocated (slot_ptr (heap_block 0) 0) 10)
    [Some ([Live 1; Live 2; Live 3; Live 4; Live 5; Live 6] ++ replicate 4 Raw)] [].

(** An allocator that is out of memory: [allocate] throws [4]. *)
Definition exhausted : Allocator Z nat := {|
  allocate_throws _ _ := Some 4%nat;
|}.

End Scenario.

(** * Proofs *)

(** ** The metadata word *)

Ltac word_arith :=
  unfold wrap, size_type_modulus, max_size, size_type_bits in *;
  change (2 ^ 64) with 18446744073709551616 in *;
  change (2 ^ (64 - 1)) with 9223372036854775808 in *;
  Z.div_mod_to_equations; lia.

Lemma wrap_small z : 0 <= z < size_type_modulus -> wrap z = z.
Proof. intros. unfold wrap. apply Z.mod_small. lia. Qed.

Lemma max_size_bound : 2 * max_size + 1 < size_type_modulus.
Proof. word_arith. Qed.

Lemma lor_flag n (b : bool) : 0 <= n -> Z.lor (2 * n) (Z.b2z b) = 2 * n + Z.b2z b.
Proof.
  intros Hn. destruct b; simpl.
  - destruct n as [|p|p]; try reflexivity; lia.
  - rewrite Z.lor_0_r. lia.
Qed.

Lemma lor_bit_set n : 0 <= n -> Z.lor (2 * n + 1) 1 = 2 * n + 1.
Proof. intros Hn. destruct n as [|p|p]; try reflexivity; lia. Qed.

Lemma shiftl_1 n : Z.shiftl n 1 = 2 * n.
Proof. rewrite Z.shiftl_mul_pow2 by lia. lia. Qed.

Lemma land_1 m : Z.land m 1 = m mod 2.
Proof. apply (Z.land_ones m 1). lia. Qed.

Lemma packed_size n (b : bool) : 0 <= n -> Z.shiftr (2 * n + Z.b2z b) 1 = n.
Proof.
  intros Hn. rewrite Z.shiftr_div_pow2 by lia.
  change (2 ^ 1) with 2. destruct b; simpl; Z.div_mod_to_equations; lia.
Qed.

Lemma packed_flag n (b : bool) : negb (Z.land (2 * n + Z.b2z b) 1 =? 0) = b.
Proof.
  rewrite land_1. destruct b; simpl.
  - replace ((2 * n + 1) mod 2) with 1 by (Z.div_mod_to_equations; lia). reflexivity.
  - replace ((2 * n + 0) mod 2) with 0 by (Z.div_mod_to_equations; lia). reflexivity.
Qed.

Section Theory.
Context {T E : Type} {VT : ValueType T E} {Al : Allocator T E} {IC : InlinedCapacity}.

(** The arena is part of the [Storage] object, so [N] is a size the
    metadata word can hold. *)
Hypothesis N_fits : Z.of_nat N <= max_size.

Lemma static_cast_N : static_cast_size_type N = Z.of_nat N.
Proof. unfold static_cast_size_type. apply wrap_small. pose proof max_size_bound. lia. Qed.

Lemma GetSize_packed (s : state T) n (b : bool) :
  0 <= n -> metadata_ s = 2 * n + Z.b2z b -> GetSize s = n.
Proof. intros Hn Hm. unfold GetSize, GetSizeAndIsAllocated. rewrite Hm. by apply packed_size. Qed.

Lemma GetIsAllocated_packed (s : state T) n (b : bool) :
  metadata_ s = 2 * n + Z.b2z b -> GetIsAllocated s = b.
Proof. intros Hm. unfold GetIsAllocated, GetSizeAndIsAllocated. rewrite Hm. apply packed_flag. Qed.

(** ** States and buffers *)

Lemma log_nil (s : state T) : log [] s = s.
Proof. destruct s. unfold log. simpl. by rewrite app_nil_r. Qed.

Lemma log_log evs1 evs2 (s : state T) : log evs2 (log evs1 s) = log (evs1 ++ evs2) s.
Proof. unfold log. simpl. by rewrite app_assoc. Qed.

Lemma set_buffer_log r l evs (s : state T) :
  set_buffer r l (log evs s) = log evs (set_buffer r l s).
Proof. by destruct r. Qed.

Lemma buffer_at_log r evs (s : state T) : buffer_at r (log evs s) = buffer_at r s.
Proof. by destruct r. Qed.

Lemma set_buffer_set_buffer r l l' (s : state T) :
  set_buffer r l' (set_buffer r l s) = set_buffer r l' s.
Proof.
  destruct r as [|b]; [done|]. unfold set_buffer, set_heap. simpl.
  by rewrite list_insert_insert_eq.
Qed.

Lemma set_buffer_comm r r' l l' (s : state T) :
  r <> r' -> set_buffer r l (set_buffer r' l' s) = set_buffer r' l' (set_buffer r l s).
Proof.
  intros Hne. destruct r as [|b], r' as [|b']; try done.
  unfold set_buffer, set_heap. simpl. rewrite list_insert_insert_ne; [done|congruence].
Qed.

Lemma buffer_at_set_buffer r l l0 (s : state T) :
  buffer_at r s = Some l0 -> buffer_at r (set_buffer r l s) = Some l.
Proof.
  destruct r as [|b]; [done|]. simpl. intros Hb.
  destruct (heap s !! b) as [o|] eqn:Hl; [|done].
  rewrite list_lookup_insert_eq; [done|]. by eapply lookup_lt_Some.
Qed.

Lemma buffer_at_set_buffer_ne r r' l (s : state T) :
  r <> r' -> buffer_at r' (set_buffer r l s) = buffer_at r' s.
Proof.
  intros Hne. destruct r as [|b], r' as [|b']; try done.
  simpl. rewrite list_lookup_insert_ne; [done|congruence].
Qed.

Lemma set_buffer_heap_id b l (s : state T) :
  heap s !! b = Some (Some l) -> set_buffer (heap_block b) l s = s.
Proof.
  intros Hb. destruct s as [m d h t]. unfold set_buffer, set_heap. simpl in *.
  by rewrite list_insert_id.
Qed.

Lemma set_buffer_inlined_id l (s : state T) :
  data_ s = inlined l -> set_buffer inlined_arena l s = s.
Proof. intros Hd. destruct s as [m d h t]. simpl in *. by subst. Qed.

Lemma written_log k r l evs evs0 l0 (s : state T) :
  (k = O -> l = l0 /\ evs = []) ->
  written k r l evs (log evs0 (set_buffer r l0 s)) = log (evs0 ++ evs) (set_buffer r l s).
Proof.
  intros Hk. destruct k; simpl.
  - destruct Hk as [-> ->]; [done|]. by rewrite app_nil_r.
  - by rewrite set_buffer_log, set_buffer_set_buffer, log_log.
Qed.

Lemma written_heap k b l l0 evs (s : state T) :
  heap s !! b = Some (Some l0) ->
  (k = O -> l = l0 /\ evs = []) ->
  written k (heap_block b) l evs s = log evs (set_buffer (heap_block b) l s).
Proof.
  intros Hb Hk. destruct k; [|done].
  destruct Hk as [-> ->]; [done|]. unfold written.
  by rewrite set_buffer_heap_id, log_nil.
Qed.

(** ** Running computations *)

(** [m @ s ==> r]: computation [m], started in state [s], has outcome [r]. *)
Local Notation "m @ s ==> r" := (@eq (outcome (state T) E _) (m s) r)
  (at level 70, s at level 9, no associativity).

Lemma bind_ret {A B} (m : M T E A) (k : A -> M T E B) s a s' :
  m s = Ret a s' -> bind m k s = k a s'.
Proof. unfold bind. by intros ->. Qed.

Lemma bind_throw {A B} (m : M T E A) (k : A -> M T E B) s e s' :
  m s = Throw e s' -> bind m k s = Throw e s'.
Proof. unfold bind. by intros ->. Qed.

Lemma catch_ret {A} (m : M T E A) h s a s' :
  m s = Ret a s' -> catch_any m h s = Ret a s'.
Proof. unfold catch_any. by intros ->. Qed.

Lemma catch_throw {A} (m : M T E A) h s e s' :
  m s = Throw e s' -> catch_any m h s = h e s'.
Proof. unfold catch_any. by intros ->. Qed.

Lemma load_at r i l x (s : state T) :
  buffer_at r s = Some l -> l !! i = Some x -> load (slot_ptr r i) @ s ==> Ret x s.
Proof. intros Hb Hl. unfold load. rewrite Hb. simpl. by rewrite Hl. Qed.

Lemma store_at r i l x (s : state T) :
  buffer_at r s = Some l -> (i < length l)%nat ->
  store (slot_ptr r i) x @ s ==> Ret tt (set_buffer r (<[i := x]> l) s).
Proof. intros Hb Hl. unfold store. rewrite Hb. by rewrite bool_decide_true. Qed.

Lemma insert_middle {X} (pre post : list X) n x y :
  length pre = n -> <[n := x]> (pre ++ y :: post) = pre ++ x :: post.
Proof. intros <-. by rewrite insert_app_r_alt, Nat.sub_diag by lia. Qed.

Lemma lookup_middle {X} (pre post : list X) n y :
  length pre = n -> (pre ++ y :: post) !! n = Some y.
Proof. intros <-. by apply list_lookup_middle. Qed.

Lemma construct_ok r i l v (s : state T) :
  buffer_at r s = Some l -> l !! i = Some Raw ->
  construct (slot_ptr r i) None v @ s ==>
    Ret tt (log [EvConstruct (slot_ptr r i) v] (set_buffer r (<[i := Live v]> l) s)).
Proof.
  intros Hb Hl. unfold construct.
  erewrite bind_ret by (by eapply load_at). cbv beta iota.
  erewrite bind_ret by (eapply store_at; [done | by eapply lookup_lt_Some]).
  done.
Qed.

Lemma construct_throw r i l e v (s : state T) :
  buffer_at r s = Some l -> l !! i = Some Raw ->
  construct (slot_ptr r i) (Some e) v @ s ==> Throw e (set_buffer r l s).
Proof.
  intros Hb Hl. unfold construct.
  erewrite bind_ret by (by eapply load_at). cbv beta iota.
  erewrite bind_ret by (eapply store_at; [done | by eapply lookup_lt_Some]).
  by rewrite list_insert_id.
Qed.

Lemma destroy_ok r i l v (s : state T) :
  buffer_at r s = Some l -> l !! i = Some (Live v) ->
  destroy (slot_ptr r i) @ s ==>
    Ret tt (log [EvDestroy (slot_ptr r i)] (set_buffer r (<[i := Raw]> l) s)).
Proof.
  intros Hb Hl. unfold destroy.
  erewrite bind_ret by (by eapply load_at). cbv beta iota.
  erewrite bind_ret by (eapply store_at; [done | by eapply lookup_lt_Some]).
  done.
Qed.

Lemma assign_ok r i l old v throws (s : state T) :
  buffer_at r s = Some l -> l !! i = Some (Live old) -> throws old = None ->
  assign (slot_ptr r i) throws v @ s ==> Ret tt (set_buffer r (<[i := Live v]> l) s).
Proof.
  intros Hb Hl Ht. unfold assign.
  erewrite bind_ret by (by eapply load_at). cbv beta iota.
  rewrite Ht. eapply store_at; [done | by eapply lookup_lt_Some].
Qed.

Lemma assign_throw r i l old v throws e rest (s : state T) :
  buffer_at r s = Some l -> l !! i = Some (Live old) -> throws old = Some (e, rest) ->
  assign (slot_ptr r i) throws v @ s ==> Throw e (set_buffer r (<[i := Live rest]> l) s).
Proof.
  intros Hb Hl Ht. unfold assign.
  erewrite bind_ret by (by eapply load_at). cbv beta iota.
  rewrite Ht.
  erewrite bind_ret by (eapply store_at; [done | by eapply lookup_lt_Some]).
  done.
Qed.

(** ** [DestroyElements] *)

Lemma DestroyElements_loop_spec r o post vs : forall pre i (s : state T),
  buffer_at r s = Some (pre ++ (Live <$> vs) ++ post) ->
  length pre = (o + i)%nat ->
  DestroyElements_loop (slot_ptr r o) i (length vs) @ s ==>
    Ret tt (written (length vs) r (pre ++ replicate (length vs) Raw ++ post)
              (destroy_events (slot_ptr r o) i (length vs)) s).
Proof.
  induction vs as [|v vs IH]; intros pre i s Hb Hlen; [done|].
  simpl in Hb. simpl length. simpl DestroyElements_loop.
  erewrite bind_ret by (eapply destroy_ok; [done | by apply lookup_middle]).
  rewrite insert_middle by done.
  rewrite (IH (pre ++ [Raw]) (S i)).
  - rewrite written_log.
    + unfold written. simpl. by rewrite <- app_assoc.
    + intros Hvs. apply nil_length_inv in Hvs. subst vs. simpl.
      by rewrite <- app_assoc.
  - rewrite buffer_at_log. erewrite buffer_at_set_buffer by done.
    by rewrite <- app_assoc.
  - rewrite length_app. simpl. lia.
Qed.

Lemma DestroyElements_spec r o pre post vs n (s : state T) :
  buffer_at r s = Some (pre ++ (Live <$> vs) ++ post) ->
  length pre = o ->
  n = Z.of_nat (length vs) ->
  DestroyElements (slot_ptr r o) n @ s ==>
    Ret tt (written (length vs) r (pre ++ replicate (length vs) Raw ++ post)
              (destroy_events (slot_ptr r o) 0 (length vs)) s).
Proof.
  intros Hb Hlen ->. unfold DestroyElements. rewrite Nat2Z.id.
  apply DestroyElements_loop_spec; [done | lia].
Qed.

Lemma DestroyElements_none p n (s : state T) :
  n <= 0 -> DestroyElements p n @ s ==> Ret tt s.
Proof.
  intros Hn. unfold DestroyElements.
  replace (Z.to_nat n) with O by lia. done.
Qed.

Lemma buffer_at_written k r l l0 evs (s : state T) :
  buffer_at r s = Some l0 -> (k = O -> l = l0) ->
  buffer_at r (written k r l evs s) = Some l.
Proof.
  intros Hb Hk. destruct k; simpl.
  - by rewrite Hk.
  - rewrite buffer_at_log. by eapply buffer_at_set_buffer.
Qed.

Lemma set_buffer_written k r l l' evs (s : state T) :
  (k = O -> evs = []) ->
  set_buffer r l (written k r l' evs s) = log evs (set_buffer r l s).
Proof.
  intros Hk. destruct k; simpl.
  - by rewrite Hk, log_nil.
  - by rewrite set_buffer_log, set_buffer_set_buffer.
Qed.

(** ** [ConstructElements], for every adapter *)

Lemma ConstructElements_loop_ret {A} `{ValueAdapter (T:=T) (E:=E) A} first k :
  forall (values : A) i s values' s',
  construct_run first values i k @ s ==> Ret values' s' ->
  ConstructElements_loop first values i k @ s ==> Ret values' s'.
Proof.
  induction k as [|k IH]; intros values i s values' s' Hrun; [done|].
  simpl in *. unfold bind in Hrun.
  destruct (ConstructNext values (ptr_add first i) s) as [a1 s1| |] eqn:Hnext; try done.
  erewrite bind_ret by (by apply catch_ret). by apply IH.
Qed.

Lemma ConstructElements_loop_throw {A} `{ValueAdapter (T:=T) (E:=E) A} first k :
  forall (values : A) i s j values_j s_j e s_e,
  (j < k)%nat ->
  construct_run first values i j @ s ==> Ret values_j s_j ->
  ConstructNext values_j (ptr_add first (i + j)) @ s_j ==> Throw e s_e ->
  ConstructElements_loop first values i k @ s ==>
    (do _ <- DestroyElements first (Z.of_nat (i + j)); throw e) s_e.
Proof.
  induction k as [|k IH]; intros values i s j values_j s_j e s_e Hj Hrun Hnext; [lia|].
  destruct j as [|j]; simpl in Hrun.
  - injection Hrun as <- <-. rewrite Nat.add_0_r in *.
    simpl. unfold bind at 1. erewrite catch_throw by done.
    unfold bind, throw. by destruct (DestroyElements first (Z.of_nat i) s_e).
  - unfold bind in Hrun.
    destruct (ConstructNext values (ptr_add first i) s) as [a1 s1| |] eqn:Hfirst; try done.
    simpl. erewrite bind_ret by (by apply catch_ret).
    replace (i + S j)%nat with (S i + j)%nat in * by lia.
    eapply IH; [lia | done | done].
Qed.

(** ** Adapters over a sequence of values *)

Section Sequence.
Context {A : Type} {VS : ValueSequence (T:=T) (E:=E) A}.

Lemma first_construct_throw_Some k : forall (values : A) j e,
  first_construct_throw values k = Some (j, e) ->
  (j < k)%nat /\ first_construct_throw values j = None /\
  construct_throws (advance_n values j) = Some e.
Proof.
  induction k as [|k IH]; intros values j e Hf; [done|].
  simpl in Hf. destruct (construct_throws values) as [e'|] eqn:Hc.
  - injection Hf as <- <-. split; [lia|]. done.
  - destruct (first_construct_throw (advance values) k) as [[j' e']|] eqn:Hk; [|done].
    injection Hf as <- <-. apply IH in Hk as (Hlt & Hnone & Hthrow).
    split; [lia|]. simpl. by rewrite Hc, Hnone.
Qed.

Lemma length_adapter_values k : forall (values : A), length (adapter_values values k) = k.
Proof. induction k; intros; simpl; auto. Qed.

Lemma construct_events_cons first i v vs :
  construct_events (T:=T) first i (v :: vs) =
  EvConstruct (ptr_add first i) v :: construct_events first (S i) vs.
Proof. done. Qed.

Lemma ConstructNext_ok r i l (values : A) (s : state T) :
  buffer_at r s = Some l -> l !! i = Some Raw -> construct_throws values = None ->
  ConstructNext values (slot_ptr r i) @ s ==>
    Ret (advance values)
      (log [EvConstruct (slot_ptr r i) (next_value values)]
         (set_buffer r (<[i := Live (next_value values)]> l) s)).
Proof.
  intros Hb Hl Hc. simpl. rewrite Hc.
  by erewrite bind_ret by (by eapply construct_ok).
Qed.

Lemma ConstructNext_throw r i l e (values : A) (s : state T) :
  buffer_at r s = Some l -> l !! i = Some Raw -> construct_throws values = Some e ->
  ConstructNext values (slot_ptr r i) @ s ==> Throw e (set_buffer r l s).
Proof.
  intros Hb Hl Hc. simpl. rewrite Hc.
  by erewrite bind_throw by (by eapply construct_throw).
Qed.

Lemma construct_run_sequence r o post k : forall (values : A) pre i (s : state T),
  buffer_at r s = Some (pre ++ replicate k Raw ++ post) ->
  length pre = (o + i)%nat ->
  first_construct_throw values k = None ->
  construct_run (slot_ptr r o) values i k @ s ==>
    Ret (advance_n values k)
      (written k r (pre ++ (Live <$> adapter_values values k) ++ post)
         (construct_events (slot_ptr r o) i (adapter_values values k)) s).
Proof.
  induction k as [|k IH]; intros values pre i s Hb Hlen Hf; [done|].
  simpl in Hb, Hf. destruct (construct_throws values) eqn:Hc; [done|].
  destruct (first_construct_throw (advance values) k) as [[? ?]|] eqn:Hk; [done|].
  simpl construct_run.
  erewrite bind_ret by (eapply ConstructNext_ok; [done | by apply lookup_middle | done]).
  rewrite insert_middle by done.
  rewrite (IH (advance values) (pre ++ [Live (next_value values)]) (S i)); [| |..|done].
  - rewrite written_log.
    + unfold written. simpl adapter_values. rewrite construct_events_cons.
      simpl. by rewrite <- app_assoc.
    + intros ->. simpl. by rewrite <- app_assoc.
  - rewrite buffer_at_log. erewrite buffer_at_set_buffer by done.
    by rewrite <- app_assoc.
  - rewrite length_app. simpl. lia.
Qed.

Lemma ConstructElements_sequence_ret r o pre post k n (values : A) (s : state T) :
  buffer_at r s = Some (pre ++ replicate k Raw ++ post) ->
  length pre = o ->
  n = Z.of_nat k ->
  first_construct_throw values k = None ->
  ConstructElements (slot_ptr r o) values n @ s ==>
    Ret (advance_n values k)
      (written k r (pre ++ (Live <$> adapter_values values k) ++ post)
         (construct_events (slot_ptr r o) 0 (adapter_values values k)) s).
Proof.
  intros Hb Hlen -> Hf. unfold ConstructElements. rewrite Nat2Z.id.
  apply ConstructElements_loop_ret. apply construct_run_sequence; [done | lia | done].
Qed.

Lemma ConstructElements_sequence_throw r o pre post k n j e (values : A) (s : state T) :
  buffer_at r s = Some (pre ++ replicate k Raw ++ post) ->
  length pre = o ->
  n = Z.of_nat k ->
  first_construct_throw values k = Some (j, e) ->
  ConstructElements (slot_ptr r o) values n @ s ==>
    Throw e
      (log (construct_events (slot_ptr r o) 0 (adapter_values values j) ++
            destroy_events (slot_ptr r o) 0 j)
         (set_buffer r (pre ++ replicate k Raw ++ post) s)).
Proof.
  intros Hb Hlen -> Hf. unfold ConstructElements. rewrite Nat2Z.id.
  apply first_construct_throw_Some in Hf as (Hj & Hnone & Hthrow).
  assert (Hk : replicate k (@Raw T) = replicate j Raw ++ Raw :: replicate (k - S j) Raw).
  { replace k with (j + S (k - S j))%nat at 1 by lia. by rewrite replicate_add. }
  set (tail := Raw :: replicate (k - S j) Raw ++ post).
  assert (Hb' : buffer_at r s = Some (pre ++ replicate j Raw ++ tail)).
  { rewrite Hb, Hk. unfold tail. by rewrite <- app_assoc. }
  erewrite ConstructElements_loop_throw with (j := j); [|done | |].
  2: { apply (construct_run_sequence r o tail j values pre 0 s Hb'); [lia | done]. }
  2: { change (0 + j)%nat with j. unfold ptr_add.
       eapply ConstructNext_throw; [| |done].
       - eapply buffer_at_written; [done|]. intros ->. done.
       - unfold tail. rewrite app_assoc. apply lookup_middle.
         rewrite length_app, length_fmap, length_adapter_values. lia. }
  rewrite set_buffer_written by (by intros ->).
  simpl Nat.add.
  erewrite bind_ret.
  2: { eapply (DestroyElements_spec r o pre tail (adapter_values values j)).
       - rewrite buffer_at_log. by eapply buffer_at_set_buffer.
       - done.
       - by rewrite length_adapter_values. }
  rewrite length_adapter_values.
  rewrite written_log.
  - unfold throw. do 2 f_equal. rewrite Hk. unfold tail. by rewrite <- app_assoc.
  - intros ->. done.
Qed.

End Sequence.

Section SequenceAssign.
Context {A : Type} {VS : ValueSequence (T:=T) (E:=E) A}.

Lemma AssignNext_ok r i l old (values : A) (s : state T) :
  buffer_at r s = Some l -> l !! i = Some (Live old) -> assign_throws values old = None ->
  AssignNext values (slot_ptr r i) @ s ==>
    Ret (advance values) (set_buffer r (<[i := Live (next_value values)]> l) s).
Proof.
  intros Hb Hl Ha. simpl.
  by erewrite bind_ret by (by eapply assign_ok).
Qed.

Lemma AssignNext_throw r i l old e rest (values : A) (s : state T) :
  buffer_at r s = Some l -> l !! i = Some (Live old) ->
  assign_throws values old = Some (e, rest) ->
  AssignNext values (slot_ptr r i) @ s ==> Throw e (set_buffer r (<[i := Live rest]> l) s).
Proof.
  intros Hb Hl Ha. simpl.
  by erewrite bind_throw by (by eapply assign_throw).
Qed.

Lemma AssignElements_loop_spec r o post olds : forall (values : A) pre i (s : state T),
  buffer_at r s = Some (pre ++ (Live <$> olds) ++ post) ->
  length pre = (o + i)%nat ->
  AssignElements_loop (slot_ptr r o) values i (length olds) @ s ==>
    match first_assign_throw values olds with
    | None =>
        Ret (advance_n values (length olds))
          (written (length olds) r
             (pre ++ (Live <$> adapter_values values (length olds)) ++ post) [] s)
    | Some (j, (e, rest)) =>
        Throw e
          (set_buffer r
             (pre ++ (Live <$> (adapter_values values j ++ rest :: drop (S j) olds)) ++ post) s)
    end.
Proof.
  induction olds as [|old olds IH]; intros values pre i s Hb Hlen; [done|].
  simpl in Hb. simpl first_assign_throw. simpl length. simpl AssignElements_loop.
  destruct (assign_throws values old) as [[e rest]|] eqn:Ha.
  - erewrite bind_throw by (eapply AssignNext_throw; [done | by apply lookup_middle | done]).
    rewrite insert_middle by done. simpl. by rewrite drop_0.
  - erewrite bind_ret by (eapply AssignNext_ok; [done | by apply lookup_middle | done]).
    rewrite insert_middle by done.
    rewrite (IH (advance values) (pre ++ [Live (next_value values)]) (S i)).
    + destruct (first_assign_throw (advance values) olds) as [[j [e rest]]|] eqn:Hf.
      * rewrite set_buffer_set_buffer. simpl. by rewrite <- app_assoc.
      * rewrite <- (log_nil (set_buffer r _ s)). rewrite written_log.
        -- unfold written. simpl. by rewrite <- app_assoc.
        -- intros Hk. apply nil_length_inv in Hk. subst olds. simpl.
           by rewrite <- app_assoc.
    + erewrite buffer_at_set_buffer by done. by rewrite <- app_assoc.
    + rewrite length_app. simpl. lia.
Qed.

Lemma AssignElements_spec r o pre post olds n (values : A) (s : state T) :
  buffer_at r s = Some (pre ++ (Live <$> olds) ++ post) ->
  length pre = o ->
  n = Z.of_nat (length olds) ->
  AssignElements (slot_ptr r o) values n @ s ==>
    match first_assign_throw values olds with
    | None =>
        Ret (advance_n values (length olds))
          (written (length olds) r
             (pre ++ (Live <$> adapter_values values (length olds)) ++ post) [] s)
    | Some (j, (e, rest)) =>
        Throw e
          (set_buffer r
             (pre ++ (Live <$> (adapter_values values j ++ rest :: drop (S j) olds)) ++ post) s)
    end.
Proof.
  intros Hb Hlen ->. unfold AssignElements. rewrite Nat2Z.id.
  apply AssignElements_loop_spec; [done | lia].
Qed.

Lemma AssignElements_none p n (values : A) (s : state T) :
  n <= 0 -> AssignElements p values n @ s ==> Ret values s.
Proof.
  intros Hn. unfold AssignElements. by replace (Z.to_nat n) with O by lia.
Qed.

Lemma ConstructElements_none p n (values : A) (s : state T) :
  n <= 0 -> ConstructElements p values n @ s ==> Ret values s.
Proof.
  intros Hn. unfold ConstructElements. by replace (Z.to_nat n) with O by lia.
Qed.

Lemma first_assign_throw_lt olds : forall (values : A) j r,
  first_assign_throw values olds = Some (j, r) -> (j < length olds)%nat.
Proof.
  induction olds as [|old olds IH]; intros values j r Hf; [done|].
  simpl in Hf. destruct (assign_throws values old); [injection Hf as <- <-; simpl; lia|].
  destruct (first_assign_throw (advance values) olds) as [[j' r']|] eqn:Ho; [|done].
  injection Hf as <- <-. specialize (IH _ _ _ Ho). simpl. lia.
Qed.

Lemma never_throws_construct k : forall (values : A),
  never_throws values k -> first_construct_throw values k = None.
Proof.
  induction k as [|k IH]; intros values Hn; [done|]. simpl.
  destruct (Hn O ltac:(lia)) as [Hc _]. simpl in Hc. rewrite Hc.
  rewrite IH; [done|]. intros i Hi. apply (Hn (S i)). lia.
Qed.

Lemma never_throws_assign olds : forall (values : A),
  never_throws values (length olds) -> first_assign_throw values olds = None.
Proof.
  induction olds as [|old olds IH]; intros values Hn; [done|]. simpl.
  destruct (Hn O ltac:(simpl; lia)) as [_ Ha]. simpl in Ha. rewrite Ha.
  rewrite IH; [done|]. intros i Hi. apply (Hn (S i)). simpl. lia.
Qed.

Lemma never_throws_le k k' (values : A) :
  (k' <= k)%nat -> never_throws values k -> never_throws values k'.
Proof. intros Hle Hn i Hi. apply Hn. lia. Qed.

Lemma advance_n_add k : forall k' (values : A),
  advance_n values (k + k') = advance_n (advance_n values k) k'.
Proof. induction k as [|k IH]; intros; simpl; auto. Qed.

Lemma never_throws_advance k k' (values : A) :
  never_throws values (k + k') -> never_throws (advance_n values k) k'.
Proof.
  intros Hn i Hi. rewrite <- advance_n_add. apply Hn. lia.
Qed.

Lemma adapter_values_add k : forall k' (values : A),
  adapter_values values (k + k') =
  adapter_values values k ++ adapter_values (advance_n values k) k'.
Proof. induction k as [|k IH]; intros; simpl; [done|]. by rewrite IH. Qed.

End SequenceAssign.

(** ** The move adapter of [ShrinkToFit] *)

Lemma ConstructElements_zero {A} `{ValueAdapter (T:=T) (E:=E) A} p n (values : A) (s : state T) :
  n <= 0 -> ConstructElements p values n @ s ==> Ret values s.
Proof.
  intros Hn. unfold ConstructElements. by replace (Z.to_nat n) with O by lia.
Qed.

Lemma written_set_buffer_comm k r r' l l' evs (s : state T) :
  r <> r' ->
  written k r l evs (set_buffer r' l' s) = set_buffer r' l' (written k r l evs s).
Proof.
  intros Hne. destruct k; [done|]. simpl.
  by rewrite set_buffer_comm, set_buffer_log by done.
Qed.

Lemma buffer_at_written_ne k r r' l evs (s : state T) :
  r <> r' -> buffer_at r' (written k r l evs s) = buffer_at r' s.
Proof.
  intros Hne. destruct k; [done|]. simpl.
  by rewrite buffer_at_log, buffer_at_set_buffer_ne.
Qed.

Lemma move_ConstructNext_ok b r i o src dst v (s : state T) :
  r <> heap_block b ->
  buffer_at (heap_block b) s = Some src -> src !! i = Some (Live v) ->
  buffer_at r s = Some dst -> dst !! o = Some Raw ->
  move_throws v = None ->
  ConstructNext (move_values_at b i) (slot_ptr r o) @ s ==>
    Ret (move_values_at b (S i))
      (set_buffer (heap_block b) (<[i := Live (moved_from v)]> src)
         (log [EvConstruct (slot_ptr r o) v] (set_buffer r (<[o := Live v]> dst) s))).
Proof.
  intros Hne Hsrc Hi Hdst Ho Hm. unfold move_values_at. simpl ConstructNext.
  erewrite bind_ret by (by eapply load_at). cbv beta iota. rewrite Hm.
  erewrite bind_ret by (by eapply construct_ok). cbv beta iota.
  erewrite bind_ret.
  2: { eapply store_at.
       - rewrite buffer_at_log, buffer_at_set_buffer_ne by done. done.
       - by eapply lookup_lt_Some. }
  unfold ret. do 4 f_equal. lia.
Qed.

Lemma move_ConstructNext_throw b r i o src dst v e rest (s : state T) :
  r <> heap_block b ->
  buffer_at (heap_block b) s = Some src -> src !! i = Some (Live v) ->
  buffer_at r s = Some dst -> dst !! o = Some Raw ->
  move_throws v = Some (e, rest) ->
  ConstructNext (move_values_at b i) (slot_ptr r o) @ s ==>
    Throw e (set_buffer r dst (set_buffer (heap_block b) (<[i := Live rest]> src) s)).
Proof.
  intros Hne Hsrc Hi Hdst Ho Hm. unfold move_values_at. simpl ConstructNext.
  erewrite bind_ret by (by eapply load_at). cbv beta iota. rewrite Hm.
  erewrite bind_ret by (eapply store_at; [done | by eapply lookup_lt_Some]).
  erewrite bind_throw; [done|].
  eapply construct_throw; [|done].
  by rewrite buffer_at_set_buffer_ne.
Qed.

Lemma first_move_throw_Some vs : forall j e rest,
  first_move_throw vs = Some (j, (e, rest)) ->
  exists v, vs !! j = Some v /\ move_throws v = Some (e, rest) /\
            first_move_throw (take j vs) = None.
Proof.
  induction vs as [|v vs IH]; intros j e rest Hf; [done|].
  simpl in Hf. destruct (move_throws v) as [[e' rest']|] eqn:Hm.
  - injection Hf as <- <- <-. by exists v.
  - destruct (first_move_throw vs) as [[j' [e' rest']]|] eqn:Hvs; [|done].
    injection Hf as <- <- <-. destruct (IH _ _ _ eq_refl) as (v' & Hl & Hm' & Hnone).
    exists v'. simpl. by rewrite Hm, Hnone.
Qed.

Lemma construct_run_move b r o spost post vs : forall spre pre i (s : state T),
  r <> heap_block b ->
  buffer_at (heap_block b) s = Some (spre ++ (Live <$> vs) ++ spost) ->
  length spre = i ->
  buffer_at r s = Some (pre ++ replicate (length vs) Raw ++ post) ->
  length pre = (o + i)%nat ->
  first_move_throw vs = None ->
  construct_run (slot_ptr r o) (move_values_at b i) i (length vs) @ s ==>
    Ret (move_values_at b (i + length vs))
      (set_buffer (heap_block b) (spre ++ (Live <$> (moved_from <$> vs)) ++ spost)
         (written (length vs) r (pre ++ (Live <$> vs) ++ post)
            (construct_events (slot_ptr r o) i vs) s)).
Proof.
  induction vs as [|v vs IH]; intros spre pre i s Hne Hsrc Hspre Hdst Hpre Hf.
  - simpl. unfold ret. rewrite Nat.add_0_r. f_equal.
    symmetry. apply set_buffer_heap_id. simpl in Hsrc.
    destruct (heap s !! b) as [[l|]|]; by simplify_eq/=.
  - simpl in Hsrc, Hdst, Hf. destruct (move_throws v) eqn:Hm; [done|].
    destruct (first_move_throw vs) as [[? ?]|] eqn:Hvs; [done|].
    simpl length. simpl construct_run.
    erewrite bind_ret.
    2: { eapply move_ConstructNext_ok; [done | done | by apply lookup_middle
                                       | done | by apply lookup_middle | done]. }
    rewrite !insert_middle by done.
    rewrite (IH (spre ++ [Live (moved_from v)]) (pre ++ [Live v]) (S i)); [| done | ..].
    + f_equal; [f_equal; lia|].
      rewrite written_set_buffer_comm by done.
      rewrite set_buffer_set_buffer.
      rewrite written_log.
      * unfold written. rewrite construct_events_cons. simpl.
        by rewrite <- !app_assoc.
      * intros Hk. apply nil_length_inv in Hk. subst vs. simpl.
        by rewrite <- app_assoc.
    + erewrite buffer_at_set_buffer.
      * by rewrite <- app_assoc.
      * by rewrite buffer_at_log, buffer_at_set_buffer_ne.
    + rewrite length_app. simpl. lia.
    + rewrite buffer_at_set_buffer_ne, buffer_at_log by done.
      erewrite buffer_at_set_buffer by done. by rewrite <- app_assoc.
    + rewrite length_app. simpl. lia.
    + done.
Qed.

Lemma ConstructElements_move_ret b r vs spost post n (s : state T) :
  r <> heap_block b ->
  buffer_at (heap_block b) s = Some ((Live <$> vs) ++ spost) ->
  buffer_at r s = Some (replicate (length vs) Raw ++ post) ->
  n = Z.of_nat (length vs) ->
  first_move_throw vs = None ->
  ConstructElements (slot_ptr r 0) (move_values_at b 0) n @ s ==>
    Ret (move_values_at b (length vs))
      (set_buffer (heap_block b) ((Live <$> (moved_from <$> vs)) ++ spost)
         (written (length vs) r ((Live <$> vs) ++ post)
            (construct_events (slot_ptr r 0) 0 vs) s)).
Proof.
  intros Hne Hsrc Hdst -> Hf. unfold ConstructElements. rewrite Nat2Z.id.
  apply ConstructElements_loop_ret.
  by apply (construct_run_move b r 0 spost post vs [] [] 0 s).
Qed.

Lemma ConstructElements_move_throw b r vs spost post n j e rest (s : state T) :
  r <> heap_block b ->
  buffer_at (heap_block b) s = Some ((Live <$> vs) ++ spost) ->
  buffer_at r s = Some (replicate (length vs) Raw ++ post) ->
  n = Z.of_nat (length vs) ->
  first_move_throw vs = Some (j, (e, rest)) ->
  ConstructElements (slot_ptr r 0) (move_values_at b 0) n @ s ==>
    Throw e
      (log (construct_events (slot_ptr r 0) 0 (take j vs) ++ destroy_events (slot_ptr r 0) 0 j)
         (set_buffer r (replicate (length vs) Raw ++ post)
            (set_buffer (heap_block b)
               ((Live <$> ((moved_from <$> take j vs) ++ rest :: drop (S j) vs)) ++ spost) s))).
Proof.
  intros Hne Hsrc Hdst -> Hf. unfold ConstructElements. rewrite Nat2Z.id.
  apply first_move_throw_Some in Hf as (v & Hv & Hm & Hnone).
  assert (Hj : (j < length vs)%nat) by (by eapply lookup_lt_Some).
  assert (Hlen : length (take j vs) = j) by (rewrite length_take; lia).
  pose proof (take_drop_middle _ _ _ Hv) as Hvs.
  set (vs1 := take j vs) in *. set (vs2 := drop (S j) vs) in *.
  clearbody vs1 vs2.
  set (stail := Live v :: (Live <$> vs2) ++ spost).
  set (dtail := Raw :: replicate (length vs - S j) Raw ++ post).
  assert (Hsrc' : buffer_at (heap_block b) s = Some ([] ++ (Live <$> vs1) ++ stail)).
  { rewrite Hsrc, <- Hvs. unfold stail. simpl.
    by rewrite fmap_app, <- app_assoc. }
  assert (Hraw : replicate (length vs) (@Raw T) ++ post = replicate j Raw ++ dtail).
  { replace (length vs) with (j + S (length vs - S j))%nat at 1 by lia.
    rewrite replicate_add. unfold dtail. simpl. by rewrite <- app_assoc. }
  assert (Hdst' : buffer_at r s = Some ([] ++ replicate (length vs1) Raw ++ dtail)).
  { by rewrite Hdst, Hraw, Hlen. }
  pose proof (construct_run_move b r 0 stail dtail vs1 [] [] 0 s
                Hne Hsrc' eq_refl Hdst' eq_refl Hnone) as Hrun.
  rewrite Hlen, !app_nil_l in Hrun. change (0 + j)%nat with j in Hrun.
  erewrite ConstructElements_loop_throw with (j := j); [| done | exact Hrun |].
  2: { change (0 + j)%nat with j. unfold ptr_add. rewrite Nat.add_0_l.
       eapply (move_ConstructNext_throw b r j j); [done | | | | | done].
       - eapply buffer_at_set_buffer. rewrite buffer_at_written_ne by done. done.
       - unfold stail. apply lookup_middle. by rewrite !length_fmap.
       - rewrite buffer_at_set_buffer_ne by done.
         eapply buffer_at_written; [exact Hdst'|]. intros ->.
         by rewrite (nil_length_inv vs1).
       - unfold dtail. apply lookup_middle. by rewrite length_fmap. }
  unfold stail. rewrite insert_middle by (by rewrite !length_fmap).
  rewrite set_buffer_set_buffer.
  rewrite (set_buffer_comm r (heap_block b)) by done.
  rewrite set_buffer_written.
  2: { intros ->. by rewrite (nil_length_inv vs1). }
  change (0 + j)%nat with j.
  erewrite bind_ret.
  2: { eapply (DestroyElements_spec r 0 [] dtail vs1).
       - rewrite buffer_at_set_buffer_ne, buffer_at_log by done.
         by eapply buffer_at_set_buffer.
       - done.
       - by rewrite Hlen. }
  rewrite Hlen. rewrite written_set_buffer_comm by done.
  rewrite written_log.
  2: { intros ->. by rewrite (nil_length_inv vs1). }
  unfold throw. f_equal.
  rewrite set_buffer_log. f_equal.
  rewrite (set_buffer_comm r (heap_block b)) by done.
  simpl. rewrite Hraw. f_equal. f_equal.
  rewrite fmap_app. simpl. by rewrite <- app_assoc, <- list_fmap_compose.
Qed.

(** ** [Storage] *)

Lemma bind_gets {X B} (f : state T -> X) (k : X -> M T E B) s :
  bind (gets f) k s = k (f s) s.
Proof. done. Qed.

Lemma bind_modify {B} (f : state T -> state T) (k : unit -> M T E B) s :
  bind (modify f) k s = k tt (f s).
Proof. done. Qed.

Lemma bind_pure {X B} (a : X) (k : X -> M T E B) s : bind (ret a) k s = k a s.
Proof. done. Qed.

Lemma bind_bind {X Y Z} (m : M T E X) (f : X -> M T E Y) (g : Y -> M T E Z) s :
  bind (bind m f) g s = bind m (fun x => bind (f x) g) s.
Proof. unfold bind. by destruct (m s). Qed.

Lemma forallb_replicate_raw k : forallb is_raw (replicate k (@Raw T)) = true.
Proof. induction k; simpl; auto. Qed.

Lemma holds_nil cap : holds (T:=T) [] cap = replicate cap Raw.
Proof. unfold holds. simpl. by rewrite Nat.sub_0_r. Qed.

Lemma holds_full (vs : list T) cap : cap = length vs -> holds vs cap = Live <$> vs.
Proof. intros ->. unfold holds. by rewrite Nat.sub_diag, app_nil_r. Qed.

Lemma Stores_size (s : state T) m vs : Stores s m vs -> GetSize s = Z.of_nat (length vs).
Proof.
  intros (_ & _ & _ & Hm). destruct m as [|b cap].
  - apply (GetSize_packed s _ false); simpl; lia.
  - destruct Hm as [Hm _]. apply (GetSize_packed s _ true); simpl; lia.
Qed.

Lemma Stores_flag (s : state T) m vs :
  Stores s m vs ->
  GetIsAllocated s = match m with Inline => false | Heap _ _ => true end.
Proof.
  intros (_ & _ & _ & Hm). destruct m as [|b cap].
  - apply (GetIsAllocated_packed s (Z.of_nat (length vs)) false). simpl. lia.
  - destruct Hm as [Hm _]. by apply (GetIsAllocated_packed s (Z.of_nat (length vs)) true).
Qed.

Lemma MakeStorageView_Stores (s : state T) m vs :
  Stores s m vs ->
  MakeStorageView @ s ==>
    Ret {| data := data_of m; size := Z.of_nat (length vs); capacity := capacity_of m |} s.
Proof.
  intros Hs. unfold MakeStorageView.
  rewrite bind_gets, (Stores_flag s m vs Hs), bind_gets, (Stores_size s m vs Hs).
  destruct m as [|b cap]; simpl.
  - by rewrite static_cast_N.
  - destruct Hs as (_ & _ & _ & _ & Hd).
    unfold bind, GetAllocatedData, GetAllocatedCapacity. rewrite Hd.
    cbv beta iota. by rewrite Hd.
Qed.

Lemma allocate_ok n (s : state T) :
  allocate_throws (trace s) n = None ->
  allocate n @ s ==>
    Ret (slot_ptr (heap_block (length (heap s))) 0)
      (log [EvAllocate (slot_ptr (heap_block (length (heap s))) 0) n]
         (set_heap (heap s ++ [Some (replicate (Z.to_nat n) Raw)]) s)).
Proof. intros Ha. unfold allocate. by rewrite Ha. Qed.

Lemma deallocate_ok b l n (s : state T) :
  heap s !! b = Some (Some l) ->
  Z.of_nat (length l) = n ->
  forallb is_raw l = true ->
  deallocate (slot_ptr (heap_block b) 0) n @ s ==>
    Ret tt (log [EvDeallocate (slot_ptr (heap_block b) 0) n]
              (set_heap (<[b := None]> (heap s)) s)).
Proof.
  intros Hb Hl Hraw. unfold deallocate. rewrite Hb, Hraw.
  by rewrite bool_decide_true.
Qed.

Lemma heap_lookup_buffer b l (s : state T) :
  buffer_at (heap_block b) s = Some l <-> heap s !! b = Some (Some l).
Proof.
  simpl. destruct (heap s !! b) as [[l'|]|]; simpl; split; intros; by simplify_eq.
Qed.

Lemma lookup_fresh {X} (h : list X) x : (h ++ [x]) !! length h = Some x.
Proof. by apply list_lookup_middle. Qed.

Lemma insert_fresh {X} (h : list X) x y : <[length h := y]> (h ++ [x]) = h ++ [y].
Proof. by apply insert_middle. Qed.

Lemma AddSize_from_flag n (b : bool) (s : state T) :
  0 <= n <= max_size -> metadata_ s = Z.b2z b ->
  wrap (GetSizeAndIsAllocated s + wrap (Z.shiftl n 1)) = 2 * n + Z.b2z b.
Proof.
  intros Hn Hm. unfold GetSizeAndIsAllocated. rewrite Hm, shiftl_1.
  destruct b; simpl; word_arith.
Qed.

Lemma metadata_written k r l evs (s : state T) :
  metadata_ (written k r l evs s) = metadata_ s.
Proof. destruct k; [done|]. by destruct r. Qed.

Lemma GetIsAllocated_written k r l evs (s : state T) :
  GetIsAllocated (written k r l evs s) = GetIsAllocated s.
Proof. unfold GetIsAllocated, GetSizeAndIsAllocated. by rewrite metadata_written. Qed.

Lemma written_pos k r l evs (s : state T) :
  (0 < k)%nat -> written k r l evs s = log evs (set_buffer r l s).
Proof. intros Hk. destruct k; [lia|done]. Qed.

Lemma data_written_heap k b l evs (s : state T) :
  data_ (written k (heap_block b) l evs s) = data_ s.
Proof. by destruct k. Qed.

Lemma trace_written k r l evs (s : state T) :
  (k = O -> evs = []) -> trace (written k r l evs s) = trace s ++ evs.
Proof.
  intros Hk. destruct k; simpl.
  - by rewrite Hk, app_nil_r.
  - by destruct r.
Qed.

Section SequenceStorage.
Context {A : Type} {VS : ValueSequence (T:=T) (E:=E) A}.


(** The state in which [Initialize] starts to construct into a fresh
    block: the block is allocated, the union points to it and the
    is-allocated bit is set. *)
Lemma Initialize_inline_unfold (values : A) (k : Z) (s : state T) :
  Stores s Inline [] ->
  k <= Z.of_nat N ->
  Initialize values k s =
  (do _ <- ConstructElements GetInlinedData values k; AddSize k) s.
Proof.
  intros Hs Hk.
  pose proof (Stores_flag _ _ _ Hs) as Hflag. pose proof (Stores_size _ _ _ Hs) as Hsize.
  simpl in Hflag, Hsize. unfold Initialize.
  rewrite bind_gets, Hflag. simpl negb. unfold assert at 1. rewrite bind_pure.
  rewrite bind_gets, Hsize. simpl Z.eqb. unfold assert at 1. rewrite bind_pure.
  rewrite static_cast_N.
  rewrite (proj2 (Z.ltb_ge _ _)) by lia. by rewrite bind_pure.
Qed.

Lemma Initialize_heap_unfold (values : A) (k : Z) (s : state T) :
  Stores s Inline [] ->
  Z.of_nat N < k ->
  allocate_throws (trace s) k = None ->
  Initialize values k s =
  (do _ <- ConstructElements (slot_ptr (heap_block (length (heap s))) 0) values k; AddSize k)
    (mk_state 1 (allocated (slot_ptr (heap_block (length (heap s))) 0) k)
       (heap s ++ [Some (replicate (Z.to_nat k) Raw)])
       (trace s ++ [EvAllocate (slot_ptr (heap_block (length (heap s))) 0) k])).
Proof.
  intros Hs Hk Ha.
  pose proof (Stores_flag _ _ _ Hs) as Hflag. pose proof (Stores_size _ _ _ Hs) as Hsize.
  destruct Hs as (_ & _ & _ & Hmeta).
  simpl in Hflag, Hsize, Hmeta. unfold Initialize.
  rewrite bind_gets, Hflag. simpl negb. unfold assert at 1. rewrite bind_pure.
  rewrite bind_gets, Hsize. simpl Z.eqb. unfold assert at 1. rewrite bind_pure.
  rewrite static_cast_N.
  rewrite (proj2 (Z.ltb_lt _ _)) by lia.
  rewrite !bind_bind. erewrite bind_ret by (by apply allocate_ok).
  rewrite bind_bind. unfold SetAllocatedData at 1. rewrite bind_modify.
  rewrite bind_bind. unfold SetIsAllocated at 1. rewrite bind_modify.
  rewrite bind_pure.
  unfold GetSizeAndIsAllocated, log, set_data, set_heap, set_metadata. simpl.
  by rewrite Hmeta.
Qed.

Lemma Initialize_ret (values : A) (k : Z) (s : state T) :
  Stores s Inline [] ->
  0 <= k <= max_size ->
  first_construct_throw values (Z.to_nat k) = None ->
  (Z.of_nat N < k -> allocate_throws (trace s) k = None) ->
  exists s',
    Initialize values k @ s ==> Ret tt s' /\
    Stores s' (if k <=? Z.of_nat N then Inline else Heap (length (heap s)) k)
      (adapter_values values (Z.to_nat k)).
Proof.
  intros Hs Hk Hf Ha. destruct (Z.leb_spec k (Z.of_nat N)) as [Hle|Hgt].
  - rewrite Initialize_inline_unfold by done.
    destruct Hs as (_ & _ & Hbuf & Hmeta). simpl in Hbuf, Hmeta.
    rewrite Nat2Z.id, holds_nil in Hbuf.
    unfold GetInlinedData.
    erewrite bind_ret.
    2: { eapply (ConstructElements_sequence_ret inlined_arena 0 []
                   (replicate (N - Z.to_nat k) Raw) (Z.to_nat k));
         [ | done | lia | done].
         simpl. rewrite Hbuf, <- replicate_add. do 2 f_equal. lia. }
    eexists. split; [done|].
    unfold Stores. rewrite length_adapter_values. simpl capacity_of. simpl region_of.
    split; [lia|]. split; [lia|]. split.
    + change (buffer_at inlined_arena (set_metadata ?z ?s)) with (buffer_at inlined_arena s).
      unfold holds. rewrite Nat2Z.id, length_adapter_values.
      eapply buffer_at_written; [done|].
      intros Hz. rewrite Hz. simpl. by rewrite Nat.sub_0_r.
    + simpl. rewrite (AddSize_from_flag k false); [simpl; lia | lia |].
      rewrite metadata_written. simpl. lia.
  - rewrite Initialize_heap_unfold by auto.
    set (b := length (heap s)).
    set (s1 := mk_state _ _ _ _).
    assert (Hb1 : buffer_at (heap_block b) s1 = Some (replicate (Z.to_nat k) Raw)).
    { apply heap_lookup_buffer. apply lookup_fresh. }
    erewrite bind_ret.
    2: { eapply (ConstructElements_sequence_ret (heap_block b) 0 [] [] (Z.to_nat k));
         [ | done | lia | done].
         simpl app. by rewrite app_nil_r. }
    eexists. split; [done|].
    unfold Stores. rewrite length_adapter_values. simpl capacity_of. simpl region_of.
    split; [lia|]. split; [lia|]. split; [|split].
    + change (buffer_at (heap_block b) (set_metadata ?z ?s)) with (buffer_at (heap_block b) s).
      erewrite buffer_at_written; [| done | intros Hz; lia].
      f_equal. simpl. rewrite app_nil_r. symmetry. apply holds_full.
      rewrite length_adapter_values. lia.
    + simpl. rewrite (AddSize_from_flag k true); [simpl; lia | lia |].
      by rewrite metadata_written.
    + simpl. by rewrite data_written_heap.
Qed.

Lemma DestroyAndDeallocate_heap b cap vs (s : state T) :
  Stores s (Heap b cap) vs ->
  exists s',
    DestroyAndDeallocate @ s ==> Ret tt s' /\
    metadata_ s' = metadata_ s /\ data_ s' = data_ s /\
    heap s' = <[b := None]> (heap s) /\
    trace s' = trace s ++ destroy_events (slot_ptr (heap_block b) 0) 0 (length vs) ++
                 [EvDeallocate (slot_ptr (heap_block b) 0) cap].
Proof.
  intros Hs.
  pose proof (Stores_flag _ _ _ Hs) as Hflag. pose proof (Stores_size _ _ _ Hs) as Hsize.
  destruct Hs as (_ & Hcap & Hbuf & Hmeta & Hdata).
  simpl in Hflag, Hcap, Hbuf. unfold DestroyAndDeallocate.
  rewrite bind_gets, Hflag.
  erewrite bind_ret by (unfold GetAllocatedData; by rewrite Hdata).
  rewrite bind_gets, Hsize.
  erewrite bind_ret.
  2: { eapply (DestroyElements_spec (heap_block b) 0 [] _ vs); [exact Hbuf | done | done]. }
  erewrite written_heap; [| by apply heap_lookup_buffer | ].
  2: { intros Hz. apply nil_length_inv in Hz. by subst vs. }
  unfold DeallocateIfAllocated.
  rewrite bind_gets.
  replace (GetIsAllocated _) with true by (by rewrite <- Hflag).
  erewrite bind_ret by (unfold GetAllocatedData; simpl; by rewrite Hdata).
  erewrite bind_ret by (unfold GetAllocatedCapacity; simpl; by rewrite Hdata).
  eexists. split.
  - eapply deallocate_ok.
    + simpl. apply list_lookup_insert_eq. apply heap_lookup_buffer in Hbuf.
      by eapply lookup_lt_Some.
    + rewrite !length_app, length_replicate, length_replicate. lia.
    + simpl. rewrite forallb_app, !forallb_replicate_raw. done.
  - simpl. rewrite list_insert_insert_eq, <- app_assoc. done.
Qed.

Lemma Initialize_throw (values : A) (k : Z) j e (s : state T) :
  Stores s Inline [] ->
  first_construct_throw values (Z.to_nat k) = Some (j, e) ->
  (Z.of_nat N < k -> allocate_throws (trace s) k = None) ->
  exists s',
    Initialize values k @ s ==> Throw e s' /\
    if k <=? Z.of_nat N
    then
      Stores s' Inline [] /\ heap s' = heap s /\
      trace s' = trace s ++ construct_events GetInlinedData 0 (adapter_values values j) ++
                   destroy_events GetInlinedData 0 j
    else
      let p := slot_ptr (heap_block (length (heap s))) 0 in
      Stores s' (Heap (length (heap s)) k) [] /\
      heap s' = heap s ++ [Some (replicate (Z.to_nat k) Raw)] /\
      trace s' = trace s ++ [EvAllocate p k] ++ construct_events p 0 (adapter_values values j) ++
                   destroy_events p 0 j.
Proof.
  intros Hs Hf Ha.
  assert (Hk : 0 < k).
  { apply first_construct_throw_Some in Hf. lia. }
  destruct (Z.leb_spec k (Z.of_nat N)) as [Hle|Hgt].
  - rewrite Initialize_inline_unfold by done.
    destruct Hs as (? & ? & Hbuf & Hmeta). simpl in Hbuf, Hmeta.
    rewrite Nat2Z.id, holds_nil in Hbuf.
    unfold GetInlinedData.
    erewrite bind_throw.
    2: { eapply (ConstructElements_sequence_throw inlined_arena 0 []
                   (replicate (N - Z.to_nat k) Raw) (Z.to_nat k));
         [ | done | lia | done].
         simpl. rewrite Hbuf, <- replicate_add. do 2 f_equal. lia. }
    eexists. split; [done|]. split; [|by simpl].
    repeat split; try done. simpl.
    rewrite Nat2Z.id, holds_nil, <- replicate_add. do 2 f_equal. lia.
  - rewrite Initialize_heap_unfold by auto.
    set (b := length (heap s)).
    set (s1 := mk_state _ _ _ _).
    assert (Hb1 : heap s1 !! b = Some (Some (replicate (Z.to_nat k) Raw))).
    { apply lookup_fresh. }
    erewrite bind_throw.
    2: { eapply (ConstructElements_sequence_throw (heap_block b) 0 [] [] (Z.to_nat k));
         [ | done | lia | done].
         simpl app. rewrite app_nil_r. by apply heap_lookup_buffer. }
    simpl app. rewrite app_nil_r, set_buffer_heap_id by done.
    eexists. split; [done|]. simpl.
    split; [|split; [done|by rewrite <- app_assoc]].
    unfold Stores. simpl. repeat split; try lia.
    unfold b. rewrite lookup_fresh. simpl. by rewrite holds_nil.
Qed.


Lemma Stores_heap_frame (s s' : state T) m vs x :
  Stores s m vs ->
  metadata_ s' = metadata_ s -> data_ s' = data_ s -> heap s' = heap s ++ x ->
  Stores s' m vs.
Proof.
  intros (? & ? & Hbuf & Hm) Hmeta Hdata Hheap. repeat split; try done.
  - destruct m as [|b cap]; simpl in *.
    + by rewrite Hdata.
    + rewrite Hheap. destruct (heap s !! b) as [o|] eqn:Hb; [|done].
      by erewrite lookup_app_l_Some.
  - destruct m; [congruence|]. destruct Hm. split; congruence.
Qed.

Lemma Assign_grow_throw (values : A) (n : Z) j e m vs (s : state T) :
  Stores s m vs ->
  capacity_of m < n ->
  allocate_throws (trace s) n = None ->
  first_construct_throw values (Z.to_nat n) = Some (j, e) ->
  let p := slot_ptr (heap_block (length (heap s))) 0 in
  Assign values n @ s ==>
    Throw e
      (mk_state (metadata_ s) (data_ s) (heap s ++ [None])
         (trace s ++ [EvAllocate p n] ++ construct_events p 0 (adapter_values values j) ++
            destroy_events p 0 j ++ [EvDeallocate p n])).
Proof.
  intros Hs Hcap Ha Hf p.
  assert (Hn : 0 < n) by (apply first_construct_throw_Some in Hf; lia).
  unfold Assign.
  erewrite bind_ret by (by eapply MakeStorageView_Stores).
  cbv zeta. cbn [capacity size data].
  rewrite (proj2 (Z.ltb_lt _ _)) by lia.
  unfold Allocate. rewrite !bind_bind.
  erewrite bind_ret by (by apply allocate_ok).
  rewrite !bind_pure. cbv beta iota. cbn [span_data span_size empty_span].
  fold p. set (s1 := log _ _).
  assert (Hb1 : heap s1 !! length (heap s) = Some (Some (replicate (Z.to_nat n) Raw))).
  { apply lookup_fresh. }
  erewrite bind_throw; [done|].
  erewrite catch_throw.
  2: { erewrite bind_ret by (by apply AssignElements_none).
       erewrite bind_throw; [done|].
       eapply (ConstructElements_sequence_throw (heap_block (length (heap s))) 0 [] []
                 (Z.to_nat n)); [ | done | lia | done].
       simpl app. rewrite app_nil_r. by apply heap_lookup_buffer. }
  simpl app. rewrite app_nil_r, set_buffer_heap_id by done.
  unfold delete_AllocationTransaction.
  change (DidAllocate _) with true. cbn [alloc_data_ capacity_].
  erewrite bind_ret.
  2: { eapply deallocate_ok; [exact Hb1 | | apply forallb_replicate_raw].
       rewrite length_replicate. lia. }
  unfold throw. f_equal. unfold s1, log, set_heap. simpl.
  rewrite insert_fresh. f_equal. by rewrite <- !app_assoc.
Qed.

Lemma delete_empty_transaction (s : state T) :
  delete_AllocationTransaction new_AllocationTransaction @ s ==> Ret tt s.
Proof. done. Qed.

Lemma Stores_capacity (s : state T) m vs :
  Stores s m vs -> (length vs <= Z.to_nat (capacity_of m))%nat.
Proof. intros (_ & ? & _). lia. Qed.

(** [Assign] to a size above the current size and within the current
    capacity: the outcome on each path. *)
Lemma Assign_extend (values : A) (n : Z) m vs (s : state T) :
  Stores s m vs ->
  Z.of_nat (length vs) < n <= capacity_of m ->
  n < size_type_modulus ->
  let r := region_of m in
  let cap := Z.to_nat (capacity_of m) in
  let k := length vs in
  let k2 := (Z.to_nat n - k)%nat in
  let values' := advance_n values k in
  Assign values n @ s ==>
    match first_assign_throw values vs with
    | Some (j, (e, rest)) =>
        Throw e (set_buffer r (holds (adapter_values values j ++ rest :: drop (S j) vs) cap) s)
    | None =>
        match first_construct_throw values' k2 with
        | Some (j, e) =>
            Throw e
              (log (construct_events (slot_ptr r k) 0 (adapter_values values' j) ++
                    destroy_events (slot_ptr r k) 0 j)
                 (set_buffer r (holds (adapter_values values k) cap) s))
        | None =>
            Ret tt
              (set_metadata (Z.lor (wrap (Z.shiftl n 1)) (Z.b2z (GetIsAllocated s)))
                 (log (construct_events (slot_ptr r k) 0 (adapter_values values' k2))
                    (set_buffer r (holds (adapter_values values (Z.to_nat n)) cap) s)))
        end
    end.
Proof.
  intros Hs Hn Hmod r cap k k2 values'.
  pose proof (Stores_capacity _ _ _ Hs) as Hcap.
  unfold Assign.
  erewrite bind_ret by (by eapply MakeStorageView_Stores).
  cbv zeta. cbn [capacity size data].
  rewrite (proj2 (Z.ltb_ge _ _)) by lia.
  rewrite (proj2 (Z.ltb_lt _ _)) by lia.
  rewrite bind_pure. cbv beta iota. cbn [span_data span_size empty_span].
  rewrite Nat2Z.id. unfold data_of, ptr_add. fold r. rewrite Nat.add_0_l. fold k.
  replace (wrap (n - Z.of_nat k)) with (Z.of_nat k2) by (rewrite wrap_small; lia).
  destruct Hs as (_ & _ & Hbuf & _). fold r cap in Hbuf.
  set (raws := replicate (cap - Z.to_nat n) (@Raw T)).
  assert (Hraws : replicate (cap - k) (@Raw T) = replicate k2 Raw ++ raws).
  { unfold raws. rewrite <- replicate_add. f_equal. lia. }
  pose proof (AssignElements_spec r 0 [] (replicate (cap - k) Raw) vs (Z.of_nat k) values s
                Hbuf eq_refl eq_refl) as Hassign.
  destruct (first_assign_throw values vs) as [[j [e rest]]|] eqn:Hfa.
  - (* an assignment throws *)
    erewrite bind_throw; [done|].
    erewrite catch_throw by (by erewrite bind_throw by exact Hassign).
    erewrite bind_ret by apply delete_empty_transaction.
    unfold throw. do 2 f_equal. unfold holds. simpl app.
    do 2 f_equal. rewrite length_app. simpl. rewrite length_adapter_values, length_drop.
    apply first_assign_throw_lt in Hfa. lia.
  - fold k in Hassign. fold values' in Hassign. simpl app in Hassign.
    set (s1 := written k r _ [] s) in Hassign.
    assert (Hb1 : buffer_at r s1 =
                  Some ((Live <$> adapter_values values k) ++ replicate k2 Raw ++ raws)).
    { unfold s1. erewrite buffer_at_written; [by rewrite Hraws | done |].
      intros Hk. unfold k in *. apply nil_length_inv in Hk. rewrite Hk.
      unfold holds. simpl. by rewrite Nat.sub_0_r. }
    destruct (first_construct_throw values' k2) as [[j e]|] eqn:Hfc.
    + (* a construction throws *)
      erewrite bind_throw; [done|].
      erewrite catch_throw.
      2: { erewrite bind_ret by exact Hassign.
           erewrite bind_throw; [done|].
           eapply (ConstructElements_sequence_throw r k _ raws k2);
             [exact Hb1 | by rewrite length_fmap, length_adapter_values | done | done]. }
      erewrite bind_ret by apply delete_empty_transaction.
      unfold throw. f_equal. unfold s1.
      rewrite set_buffer_written by done. rewrite log_log. simpl app.
      do 2 f_equal. unfold holds. rewrite length_adapter_values. by rewrite Hraws.
    + (* nothing throws *)
      erewrite bind_ret.
      2: { erewrite catch_ret; [done|].
           erewrite bind_ret by exact Hassign.
           erewrite bind_ret.
           2: { eapply (ConstructElements_sequence_ret r k _ raws k2);
                  [exact Hb1 | by rewrite length_fmap, length_adapter_values | done | done]. }
           by apply DestroyElements_none. }
      change (DidAllocate new_AllocationTransaction) with false. cbv iota.
      rewrite bind_pure.
      unfold SetSize. rewrite bind_modify, delete_empty_transaction.
      f_equal. unfold s1 at 1. rewrite !GetIsAllocated_written. f_equal.
      rewrite written_pos by lia. unfold s1.
      rewrite set_buffer_written by done. rewrite log_log. simpl app.
      do 2 f_equal. unfold holds. rewrite length_adapter_values.
      replace (Z.to_nat n) with (k + k2)%nat at 1 by lia.
      unfold values'. rewrite adapter_values_add, fmap_app, <- app_assoc. done.
Qed.

Lemma written_written k1 k2 r l1 l2 evs1 evs2 (s : state T) :
  (k1 = O -> evs1 = []) ->
  (k2 = O -> l2 = l1 /\ evs2 = []) ->
  written k2 r l2 evs2 (written k1 r l1 evs1 s) = written (k1 + k2) r l2 (evs1 ++ evs2) s.
Proof.
  intros H1 H2. destruct k1 as [|k1].
  - by rewrite H1.
  - destruct k2 as [|k2].
    + destruct H2 as [-> ->]; [done|]. by rewrite Nat.add_0_r, app_nil_r.
    + simpl. by rewrite set_buffer_log, set_buffer_set_buffer, log_log.
Qed.

(** [Assign] to a size that is at most the current size: the outcome on
    each path. *)
Lemma Assign_shrink (values : A) (n : Z) m vs (s : state T) :
  Stores s m vs ->
  0 <= n <= Z.of_nat (length vs) ->
  let r := region_of m in
  let cap := Z.to_nat (capacity_of m) in
  let k := Z.to_nat n in
  Assign values n @ s ==>
    match first_assign_throw values (take k vs) with
    | Some (j, (e, rest)) =>
        Throw e (set_buffer r (holds (adapter_values values j ++ rest :: drop (S j) vs) cap) s)
    | None =>
        Ret tt
          (set_metadata (Z.lor (wrap (Z.shiftl n 1)) (Z.b2z (GetIsAllocated s)))
             (written (length vs) r (holds (adapter_values values k) cap)
                (destroy_events (slot_ptr r k) 0 (length vs - k)) s))
    end.
Proof.
  intros Hs Hn r cap k.
  pose proof (Stores_capacity _ _ _ Hs) as Hcap.
  assert (Hmax : Z.of_nat (length vs) <= max_size) by (by destruct Hs).
  unfold Assign.
  erewrite bind_ret by (by eapply MakeStorageView_Stores).
  cbv zeta. cbn [capacity size data].
  destruct Hs as (_ & Hcap' & Hbuf & _). fold r cap in Hbuf.
  rewrite (proj2 (Z.ltb_ge _ _)) by lia.
  rewrite (proj2 (Z.ltb_ge _ _)) by lia.
  rewrite bind_pure. cbv beta iota. cbn [span_data span_size empty_span].
  unfold data_of, ptr_add. fold r k. rewrite Nat.add_0_l.
  pose proof max_size_bound as Hbound.
  replace (wrap (Z.of_nat (length vs) - n)) with (Z.of_nat (length vs - k))
    by (rewrite wrap_small; lia).
  set (raws := replicate (cap - length vs) (@Raw T)).
  assert (Htake : length (take k vs) = k) by (rewrite length_take; lia).
  assert (Hdrop : length (drop k vs) = (length vs - k)%nat) by apply length_drop.
  assert (Hbuf' : buffer_at r s =
                  Some ([] ++ (Live <$> take k vs) ++ (Live <$> drop k vs) ++ raws)).
  { rewrite Hbuf. unfold holds. simpl. by rewrite app_assoc, <- fmap_app, take_drop. }
  pose proof (AssignElements_spec r 0 [] _ (take k vs) n values s Hbuf' eq_refl
                ltac:(lia)) as Hassign.
  rewrite Htake in Hassign.
  destruct (first_assign_throw values (take k vs)) as [[j [e rest]]|] eqn:Hfa.
  - (* an assignment throws *)
    erewrite bind_throw; [done|].
    erewrite catch_throw by (by erewrite bind_throw by exact Hassign).
    erewrite bind_ret by apply delete_empty_transaction.
    apply first_assign_throw_lt in Hfa. rewrite Htake in Hfa.
    unfold throw. do 2 f_equal. unfold holds. simpl app.
    rewrite !fmap_app, !fmap_cons, <- !app_assoc. simpl.
    do 2 f_equal. rewrite app_assoc, <- fmap_app.
    replace (drop (S j) (take k vs) ++ drop k vs) with (drop (S j) vs).
    2: { rewrite <- (take_drop k vs) at 1. rewrite drop_app_le; [done|]. lia. }
    do 2 f_equal. unfold raws. f_equal.
    rewrite length_app. simpl. rewrite length_adapter_values, length_drop. lia.
  - simpl app in Hassign.
    set (s1 := written k r _ [] s) in Hassign.
    assert (Hb1 : buffer_at r s1 =
                  Some ((Live <$> adapter_values values k) ++ (Live <$> drop k vs) ++ raws)).
    { unfold s1. erewrite buffer_at_written; [done | exact Hbuf' |].
      intros Hk. simpl. rewrite Hk in *. by rewrite (nil_length_inv _ Htake). }
    erewrite bind_ret.
    2: { erewrite catch_ret; [done|].
         erewrite bind_ret by exact Hassign.
         erewrite bind_ret by (by apply ConstructElements_none).
         eapply (DestroyElements_spec r k _ raws (drop k vs)); [exact Hb1 | | lia].
         by rewrite length_fmap, length_adapter_values. }
    change (DidAllocate new_AllocationTransaction) with false. cbv iota.
    rewrite bind_pure.
    unfold SetSize. rewrite bind_modify, delete_empty_transaction.
    f_equal. unfold s1 at 1. rewrite !GetIsAllocated_written. f_equal.
    unfold s1. rewrite written_written.
    + rewrite Hdrop. simpl app. f_equal; [lia|].
      unfold holds, raws. rewrite length_adapter_values, <- replicate_add.
      do 2 f_equal. lia.
    + done.
    + rewrite Hdrop. intros Hz. split; [|by rewrite Hz].
      rewrite Hz, (nil_length_inv (drop k vs)) by lia. done.
Qed.

Lemma flag_set x : negb (Z.land (Z.lor x 1) 1 =? 0) = true.
Proof.
  rewrite Z.land_lor_distr_l. change (Z.land 1 1) with 1.
  destruct (Z.eqb_spec (Z.lor (Z.land x 1) 1) 0) as [Heq|]; [|done].
  apply Z.lor_eq_0_iff in Heq. lia.
Qed.

(** [DeallocateIfAllocated] once the elements of the storage have been
    destroyed. *)
Lemma DeallocateIfAllocated_raw m vs (s s3 : state T) :
  Stores s m vs ->
  metadata_ s3 = metadata_ s ->
  (region_of m <> inlined_arena -> data_ s3 = data_ s) ->
  buffer_at (region_of m) s3 = Some (replicate (Z.to_nat (capacity_of m)) Raw) ->
  DeallocateIfAllocated @ s3 ==>
    Ret tt
      match m with
      | Inline => s3
      | Heap b cap =>
          log [EvDeallocate (slot_ptr (heap_block b) 0) cap]
            (set_heap (<[b := None]> (heap s3)) s3)
      end.
Proof.
  intros Hs Hmeta Hdata Hbuf. unfold DeallocateIfAllocated. rewrite bind_gets.
  replace (GetIsAllocated s3) with (GetIsAllocated s)
    by (unfold GetIsAllocated, GetSizeAndIsAllocated; by rewrite Hmeta).
  rewrite (Stores_flag _ _ _ Hs).
  destruct m as [|b cap]; [done|].
  destruct Hs as (_ & Hcap & _ & _ & Hd). simpl in *.
  rewrite <- Hdata in Hd by done.
  erewrite bind_ret by (unfold GetAllocatedData; by rewrite Hd).
  erewrite bind_ret by (unfold GetAllocatedCapacity; by rewrite Hd).
  eapply deallocate_ok.
  - by apply heap_lookup_buffer.
  - rewrite length_replicate. lia.
  - apply forallb_replicate_raw.
Qed.

Lemma Stores_region_live (s : state T) m vs :
  Stores s m vs -> region_of m <> heap_block (length (heap s)).
Proof.
  intros (_ & _ & Hbuf & _). destruct m as [|b cap]; [done|].
  simpl in *. intros [= ->]. by rewrite lookup_ge_None_2 in Hbuf.
Qed.

Lemma Assign_grow_ret (values : A) (n : Z) m vs (s : state T) :
  Stores s m vs ->
  capacity_of m < n ->
  n <= max_size ->
  allocate_throws (trace s) n = None ->
  first_construct_throw values (Z.to_nat n) = None ->
  exists s',
    Assign values n @ s ==> Ret tt s' /\
    Stores s' (Heap (length (heap s)) n) (adapter_values values (Z.to_nat n)).
Proof.
  intros Hs Hcap Hmax Ha Hf.
  pose proof (Stores_capacity _ _ _ Hs) as Hlen.
  pose proof (Stores_region_live _ _ _ Hs) as Hne.
  assert (Hn : 0 < n) by (destruct Hs as (_ & ? & _); lia).
  unfold Assign.
  erewrite bind_ret by (by eapply MakeStorageView_Stores).
  cbv zeta. cbn [capacity size data].
  rewrite (proj2 (Z.ltb_lt _ _)) by lia.
  unfold Allocate. rewrite !bind_bind.
  erewrite bind_ret by (by apply allocate_ok).
  rewrite !bind_pure. cbv beta iota. cbn [span_data span_size empty_span].
  set (b' := length (heap s)) in *. set (p := slot_ptr (heap_block b') 0).
  set (s1 := log _ _).
  set (vals := adapter_values values (Z.to_nat n)).
  assert (Hb1 : heap s1 !! b' = Some (Some (replicate (Z.to_nat n) Raw))).
  { apply lookup_fresh. }
  assert (Hold1 : buffer_at (region_of m) s1 =
                  Some (holds vs (Z.to_nat (capacity_of m)))).
  { destruct Hs as (_ & _ & Hbuf & _). destruct m as [|b cap]; [done|].
    simpl in *. destruct (heap s !! b) as [o|] eqn:Hb; [|done].
    by erewrite lookup_app_l_Some. }
  set (s2 := log (construct_events p 0 vals) (set_buffer (heap_block b') (Live <$> vals) s1)).
  set (s3 := written (length vs) (region_of m)
               (replicate (Z.to_nat (capacity_of m)) Raw)
               (destroy_events (data_of m) 0 (length vs)) s2).
  erewrite bind_ret.
  2: { erewrite catch_ret; [done|].
       erewrite bind_ret by (by apply AssignElements_none).
       erewrite bind_ret.
       2: { eapply (ConstructElements_sequence_ret (heap_block b') 0 [] [] (Z.to_nat n));
              [ | done | lia | done].
            simpl app. rewrite app_nil_r. by apply heap_lookup_buffer. }
       simpl app. rewrite app_nil_r, written_pos by lia. fold vals p s2.
       erewrite (DestroyElements_spec (region_of m) 0 [] _ vs); [ | | done | done].
       - simpl app. rewrite <- replicate_add.
         replace (length vs + (Z.to_nat (capacity_of m) - length vs))%nat
           with (Z.to_nat (capacity_of m)) by lia.
         done.
       - unfold s2. rewrite buffer_at_log, buffer_at_set_buffer_ne by done. exact Hold1. }
  change (DidAllocate _) with true. cbv iota.
  assert (Hb3 : buffer_at (region_of m) s3 = Some (replicate (Z.to_nat (capacity_of m)) Raw)).
  { unfold s3. eapply buffer_at_written.
    - unfold s2. rewrite buffer_at_log, buffer_at_set_buffer_ne by done. exact Hold1.
    - intros Hz. apply nil_length_inv in Hz. subst vs. by rewrite holds_nil. }
  rewrite !bind_bind.
  erewrite bind_ret.
  2: { eapply (DeallocateIfAllocated_raw m vs s s3 Hs); [| | exact Hb3].
       - unfold s3. by rewrite metadata_written.
       - intros Hr. destruct m as [|b cap]; [done|]. unfold s3. simpl region_of.
         by rewrite data_written_heap. }
  set (s4 := match m with Inline => s3 | Heap b cap => _ end).
  unfold AcquireAllocation, SetAllocatedData. rewrite !bind_bind, bind_modify, !bind_pure.
  cbn [alloc_data_ capacity_].
  rewrite !bind_bind. unfold SetIsAllocated at 1. rewrite bind_modify, bind_pure.
  unfold SetSize. rewrite bind_modify.
  eexists. split; [done|].
  assert (Hlv : length vals = Z.to_nat n) by apply length_adapter_values.
  unfold Stores. rewrite Hlv. simpl capacity_of. simpl region_of.
  split; [lia|]. split; [lia|]. split; [|split].
  - rewrite holds_full by done.
    change (buffer_at (heap_block b') (set_metadata ?z (set_metadata ?z' (set_data ?d ?s))))
      with (buffer_at (heap_block b') s).
    assert (Hb3' : buffer_at (heap_block b') s3 = Some (Live <$> vals)).
    { unfold s3. rewrite buffer_at_written_ne by done.
      unfold s2. rewrite buffer_at_log. eapply buffer_at_set_buffer.
      by apply heap_lookup_buffer. }
    unfold s4. destruct m as [|b cap]; [done|].
    simpl in Hne. simpl. rewrite list_lookup_insert_ne by congruence. exact Hb3'.
  - simpl. unfold GetIsAllocated, GetSizeAndIsAllocated. simpl.
    rewrite flag_set, shiftl_1, wrap_small by (pose proof max_size_bound; lia).
    rewrite (lor_flag n true) by lia. simpl. lia.
  - done.
Qed.

End SequenceStorage.

(** ** [ShrinkToFit] *)

Lemma filter_construct_events first vs : forall i,
  filter (fun ev => is_allocation_event ev = true) (construct_events (T:=T) first i vs) = [].
Proof. induction vs as [|v vs IH]; intros i; [done|]. apply (IH (S i)). Qed.

Lemma filter_destroy_events first k : forall i,
  filter (fun ev => is_allocation_event ev = true) (destroy_events (T:=T) first i k) = [].
Proof. induction k as [|k IH]; intros i; [done|]. apply (IH (S i)). Qed.

Lemma GetAllocatedData_run p c (s : state T) :
  data_ s = allocated p c -> GetAllocatedData @ s ==> Ret p s.
Proof. intros Hd. unfold GetAllocatedData. by rewrite Hd. Qed.

Lemma GetAllocatedCapacity_run p c (s : state T) :
  data_ s = allocated p c -> GetAllocatedCapacity @ s ==> Ret c s.
Proof. intros Hd. unfold GetAllocatedCapacity. by rewrite Hd. Qed.

Lemma unset_flag n : 0 <= n <= max_size -> wrap (Z.lor (2 * n + 1) 1 - 1) = 2 * n.
Proof.
  intros Hn. rewrite lor_bit_set by lia. replace (2 * n + 1 - 1) with (2 * n) by lia.
  apply wrap_small. pose proof max_size_bound. lia.
Qed.

Lemma ShrinkToFit_to_inline b cap vs (s : state T) :
  Stores s (Heap b cap) vs ->
  (length vs <= N)%nat ->
  first_move_throw vs = None ->
  exists s',
    ShrinkToFit @ s ==> Ret tt s' /\
    Stores s' Inline vs /\
    heap s' = <[b := None]> (heap s) /\
    trace s' = trace s ++ construct_events (slot_ptr inlined_arena 0) 0 vs ++
                 destroy_events (slot_ptr (heap_block b) 0) 0 (length vs) ++
                 [EvDeallocate (slot_ptr (heap_block b) 0) cap].
Proof.
  intros Hs HN Hf.
  pose proof (Stores_flag _ _ _ Hs) as Hflag. pose proof (Stores_size _ _ _ Hs) as Hsize.
  pose proof (Stores_capacity _ _ _ Hs) as Hlen.
  destruct Hs as (Hmax & Hcap & Hbuf & Hmeta & Hdata).
  simpl in Hflag, Hcap, Hbuf, Hlen.
  set (raws := replicate (Z.to_nat cap - length vs) (@Raw T)) in *.
  unfold ShrinkToFit.
  rewrite bind_gets, Hflag. unfold assert at 1. rewrite bind_pure.
  erewrite bind_ret by (by eapply GetAllocatedData_run).
  rewrite bind_gets, Hsize.
  erewrite bind_ret by (by eapply GetAllocatedCapacity_run).
  cbv zeta. cbn [data size capacity]. rewrite static_cast_N.
  rewrite (proj2 (Z.leb_le _ _)) by lia. rewrite bind_pure. cbv iota beta.
  unfold GetInlinedData.
  assert (Hdst : buffer_at inlined_arena s =
                 Some (replicate (length vs) Raw ++ replicate (N - length vs) Raw)).
  { simpl. rewrite Hdata. simpl. rewrite <- replicate_add. do 2 f_equal. lia. }
  set (s0 := written (length vs) inlined_arena
                ((Live <$> vs) ++ replicate (N - length vs) Raw)
                (construct_events (slot_ptr inlined_arena 0) 0 vs) s).
  set (s1 := set_buffer (heap_block b) ((Live <$> (moved_from <$> vs)) ++ raws) s0).
  assert (Hb0 : heap s0 !! b = Some (Some ((Live <$> vs) ++ raws))).
  { apply heap_lookup_buffer. unfold s0. by rewrite buffer_at_written_ne. }
  erewrite bind_ret.
  2: { erewrite catch_ret; [done|]. erewrite catch_ret; [done|].
       by eapply (ConstructElements_move_ret b inlined_arena vs raws). }
  fold s0 s1.
  erewrite bind_ret.
  2: { eapply (DestroyElements_spec (heap_block b) 0 [] raws (moved_from <$> vs)).
       - unfold s1. by eapply buffer_at_set_buffer, heap_lookup_buffer.
       - done.
       - by rewrite length_fmap. }
  rewrite length_fmap. simpl app.
  erewrite written_heap.
  2: { unfold s1. simpl. apply list_lookup_insert_eq. by eapply lookup_lt_Some. }
  2: { intros Hz. apply nil_length_inv in Hz. by subst vs. }
  unfold s1. rewrite set_buffer_set_buffer.
  set (s2 := log _ _).
  erewrite bind_ret.
  2: { eapply deallocate_ok.
       - unfold s2. simpl. apply list_lookup_insert_eq. by eapply lookup_lt_Some.
       - unfold raws. rewrite length_app, !length_replicate. lia.
       - unfold raws. by rewrite forallb_app, !forallb_replicate_raw. }
  change (DidAllocate new_AllocationTransaction) with false. cbv iota.
  unfold UnsetIsAllocated, SetIsAllocated. rewrite !bind_bind, bind_modify.
  rewrite bind_modify, bind_pure.
  rewrite delete_empty_transaction.
  eexists. split; [done|].
  split; [|split].
  - unfold Stores. simpl capacity_of. simpl region_of.
    split; [lia|]. split; [lia|]. split.
    + simpl. f_equal. unfold s0.
      change (inlined_slots (data_ ?x)) with (default [] (buffer_at inlined_arena x)).
      erewrite buffer_at_written; [| exact Hdst |].
      * simpl. unfold holds. by rewrite Nat2Z.id.
      * intros Hz. apply nil_length_inv in Hz. by subst vs.
    + simpl. unfold GetSizeAndIsAllocated. simpl. unfold s0.
      rewrite metadata_written, Hmeta. apply unset_flag. lia.
  - simpl. rewrite list_insert_insert_eq. f_equal. unfold s0.
    destruct (length vs); [done|]. done.
  - simpl. unfold s0. rewrite trace_written.
    + by rewrite <- !app_assoc.
    + intros Hz. apply nil_length_inv in Hz. by subst vs.
Qed.

Lemma ShrinkToFit_throw b cap vs j e rest (s : state T) :
  Stores s (Heap b cap) vs ->
  first_move_throw vs = Some (j, (e, rest)) ->
  (length vs <= N)%nat \/
    (Z.of_nat (length vs) < cap /\ allocate_throws (trace s) (Z.of_nat (length vs)) = None) ->
  let vs' := (moved_from <$> take j vs) ++ rest :: drop (S j) vs in
  exists s',
    ShrinkToFit @ s ==> Throw e s' /\
    metadata_ s' = metadata_ s /\ data_ s' = data_ s /\
    Stores s' (Heap b cap) vs' /\
    heap s' = <[b := Some (holds vs' (Z.to_nat cap))]> (heap s) ++
                (if bool_decide (length vs <= N)%nat then [] else [None]).
Proof.
  intros Hs Hf Hpath vs'.
  pose proof (Stores_flag _ _ _ Hs) as Hflag. pose proof (Stores_size _ _ _ Hs) as Hsize.
  pose proof (Stores_capacity _ _ _ Hs) as Hlen.
  destruct Hs as (Hmax & Hcap & Hbuf & Hmeta & Hdata).
  simpl in Hflag, Hcap, Hbuf, Hlen.
  set (raws := replicate (Z.to_nat cap - length vs) (@Raw T)) in *.
  assert (Hlen' : length vs' = length vs).
  { destruct (first_move_throw_Some _ _ _ _ Hf) as (v & Hv & _).
    apply lookup_lt_Some in Hv. unfold vs'.
    rewrite length_app, length_fmap, length_take. simpl. rewrite length_drop. lia. }
  assert (Hholds : holds vs' (Z.to_nat cap) = (Live <$> vs') ++ raws).
  { unfold holds, raws. by rewrite Hlen'. }
  assert (Hstores : forall s' x,
            metadata_ s' = metadata_ s -> data_ s' = data_ s ->
            heap s' = <[b := Some (holds vs' (Z.to_nat cap))]> (heap s) ++ x ->
            Stores s' (Heap b cap) vs').
  { intros s' x Hm' Hd' Hh'. unfold Stores. rewrite Hlen'. simpl.
    repeat split; try congruence; try lia.
    rewrite Hh'. erewrite lookup_app_l_Some; [done|].
    apply list_lookup_insert_eq. apply heap_lookup_buffer in Hbuf.
    by eapply lookup_lt_Some. }
  unfold ShrinkToFit.
  rewrite bind_gets, Hflag. unfold assert at 1. rewrite bind_pure.
  erewrite bind_ret by (by eapply GetAllocatedData_run).
  rewrite bind_gets, Hsize.
  erewrite bind_ret by (by eapply GetAllocatedCapacity_run).
  cbv zeta. cbn [data size capacity]. rewrite static_cast_N.
  destruct (decide (length vs <= N)%nat) as [HN|HN].
  - (* relocation into the inline arena *)
    rewrite bool_decide_true by done.
    rewrite (proj2 (Z.leb_le _ _)) by lia. rewrite bind_pure. cbv iota beta.
    unfold GetInlinedData.
    assert (Hdst : buffer_at inlined_arena s =
                   Some (replicate (length vs) Raw ++ replicate (N - length vs) Raw)).
    { simpl. rewrite Hdata. simpl. rewrite <- replicate_add. do 2 f_equal. lia. }
    erewrite bind_throw; [|].
    2: { erewrite catch_throw.
         2: { erewrite catch_throw.
              2: { by eapply (ConstructElements_move_throw b inlined_arena vs raws). }
              unfold SetAllocatedData. rewrite bind_modify. done. }
         erewrite bind_ret by apply delete_empty_transaction. done. }
    eexists. split; [done|]. simpl.
    rewrite app_nil_r.
    assert (Hheap : <[b:=Some ((Live <$> (moved_from <$> take j vs) ++ rest :: drop (S j) vs)
                               ++ raws)]> (heap s)
                    = <[b:=Some (holds vs' (Z.to_nat cap))]> (heap s)).
    { by rewrite Hholds. }
    split; [done|]. split; [done|]. split; [|done].
    eapply (Hstores _ []); simpl; [done | done |]. by rewrite app_nil_r.
  - (* relocation into a smaller block *)
    rewrite bool_decide_false by done.
    destruct Hpath as [?|[Hlt Ha]]; [done|].
    rewrite (proj2 (Z.leb_gt _ _)) by lia.
    rewrite !bind_bind.
    erewrite bind_ret by (by eapply GetAllocatedCapacity_run).
    rewrite (proj2 (Z.ltb_lt _ _)) by lia.
    unfold Allocate. rewrite !bind_bind.
    erewrite bind_ret by (by apply allocate_ok).
    rewrite !bind_pure. cbv iota beta.
    set (b' := length (heap s)). set (p' := slot_ptr (heap_block b') 0).
    set (s1 := log _ _).
    assert (Hbb : (b < b')%nat).
    { apply heap_lookup_buffer in Hbuf. by eapply lookup_lt_Some. }
    assert (Hsrc1 : buffer_at (heap_block b) s1 = Some ((Live <$> vs) ++ raws)).
    { apply heap_lookup_buffer. unfold s1. simpl.
      apply heap_lookup_buffer in Hbuf. by erewrite lookup_app_l_Some. }
    assert (Hdst1 : buffer_at (heap_block b') s1 = Some (replicate (length vs) Raw ++ [])).
    { apply heap_lookup_buffer. unfold s1, b'. simpl.
      rewrite lookup_fresh, app_nil_r. by rewrite Nat2Z.id. }
    assert (Hne : heap_block b' <> heap_block b) by (intros [= ?]; lia).
    erewrite bind_throw; [|].
    2: { erewrite catch_throw.
         2: { erewrite catch_throw.
              2: { by eapply (ConstructElements_move_throw b (heap_block b') vs raws []). }
              unfold SetAllocatedData. rewrite bind_modify. done. }
         unfold delete_AllocationTransaction.
         change (DidAllocate _) with true. cbn [alloc_data_ capacity_].
         erewrite bind_ret; [done|].
         eapply deallocate_ok.
         - simpl. apply list_lookup_insert_eq.
           rewrite length_insert, length_app. simpl. unfold b'. lia.
         - rewrite app_nil_r, length_replicate. done.
         - rewrite app_nil_r. apply forallb_replicate_raw. }
    eexists. split; [done|]. simpl.
    assert (Hheap : <[b':=None]>
                      (<[b':=Some (replicate (length vs) Raw ++ [])]>
                         (<[b:=Some ((Live <$> (moved_from <$> take j vs) ++
                                       rest :: drop (S j) vs) ++ raws)]>
                            (heap s ++ [Some (replicate (Z.to_nat (Z.of_nat (length vs))) Raw)])))
                    = <[b:=Some (holds vs' (Z.to_nat cap))]> (heap s) ++ [None]).
    { rewrite list_insert_insert_eq, insert_app_l by done.
      rewrite Hholds. unfold b'.
      rewrite <- (length_insert (heap s) b (Some ((Live <$> vs') ++ raws))).
      apply insert_fresh. }
    split; [done|]. split; [done|]. split; [|done].
    eapply (Hstores _ [None]); simpl; [done | done | exact Hheap].
Qed.

(** ** A program logic for invariants *)

Lemma post_ret {X} (a : X) s (Q : X -> state T -> Prop) (R : E -> state T -> Prop) :
  Q a s -> post (ret a) s Q R.
Proof. done. Qed.

Lemma post_throw {X} e s (Q : X -> state T -> Prop) (R : E -> state T -> Prop) :
  R e s -> post (throw e) s Q R.
Proof. done. Qed.

Lemma post_undefined {X} s (Q : X -> state T -> Prop) (R : E -> state T -> Prop) :
  post undefined s Q R.
Proof. done. Qed.

Lemma post_bind {X Y} (m : M T E X) (f : X -> M T E Y) s
    (Q : Y -> state T -> Prop) (R : E -> state T -> Prop) :
  post m s (fun a s1 => post (f a) s1 Q R) R -> post (bind m f) s Q R.
Proof. unfold post, bind. by destruct (m s). Qed.

Lemma post_catch {X} (m : M T E X) (h : E -> M T E X) s
    (Q : X -> state T -> Prop) (R : E -> state T -> Prop) :
  post m s Q (fun e s1 => post (h e) s1 Q R) -> post (catch_any m h) s Q R.
Proof. unfold post, catch_any. by destruct (m s). Qed.

Lemma post_mono {X} (m : M T E X) s (Q Q' : X -> state T -> Prop)
    (R R' : E -> state T -> Prop) :
  post m s Q R ->
  (forall a s', Q a s' -> Q' a s') ->
  (forall e s', R e s' -> R' e s') ->
  post m s Q' R'.
Proof. unfold post. destruct (m s); auto. Qed.

Lemma post_gets {X} (f : state T -> X) s (Q : X -> state T -> Prop) (R : E -> state T -> Prop) :
  Q (f s) s -> post (gets f) s Q R.
Proof. done. Qed.

Lemma post_modify (f : state T -> state T) s (Q : unit -> state T -> Prop)
    (R : E -> state T -> Prop) :
  Q tt (f s) -> post (modify f) s Q R.
Proof. done. Qed.

Lemma post_assert (b : bool) s (Q : unit -> state T -> Prop) (R : E -> state T -> Prop) :
  (b = true -> Q tt s) -> post (assert b) s Q R.
Proof. destruct b; [|done]. intros HQ. by apply HQ. Qed.

Lemma post_final {X} (m : M T E X) s s' (P : state T -> Prop) :
  post m s (fun _ => P) (fun _ => P) -> final_state (m s) = Some s' -> P s'.
Proof. unfold post. destruct (m s); simpl; intros HP [= <-]; done. Qed.

Lemma frame_refl k (s : state T) : frame k s s.
Proof. done. Qed.

Lemma frame_trans k (s1 s2 s3 : state T) : frame k s1 s2 -> frame k s2 s3 -> frame k s1 s3.
Proof.
  intros [Hm Hd] [Hm' Hd']. split; [congruence|]. intros Hk.
  rewrite Hd', Hd by done. done.
Qed.

Lemma frame_weaken k (s s' : state T) : frame true s s' -> frame k s s'.
Proof. intros [Hm Hd]. split; [done|]. intros _. by apply Hd. Qed.

Lemma frame_log k evs (s : state T) : frame k s (log evs s).
Proof. done. Qed.

Lemma frame_set_buffer r i l (s : state T) :
  frame (off_arena (slot_ptr r i)) s (set_buffer r l s).
Proof. by destruct r. Qed.

Local Abbreviation framed := (framed (T:=T) (E:=E)).

Lemma framed_ret k {X} (I : X -> Prop) (a : X) : I a -> framed k I (ret (T:=T) (E:=E) a).
Proof. intros Ha s. by apply post_ret. Qed.

Lemma framed_throw k {X} (I : X -> Prop) (e : E) : framed k I (throw (T:=T) (A:=X) e).
Proof. intros s. by apply post_throw. Qed.

Lemma framed_undefined k {X} (I : X -> Prop) :
  framed k I (undefined (T:=T) (E:=E) (A:=X)).
Proof. intros s. apply post_undefined. Qed.

Lemma framed_bind k {X Y} (I : X -> Prop) (J : Y -> Prop) (m : M T E X) (f : X -> M T E Y) :
  framed k I m -> (forall a, I a -> framed k J (f a)) -> framed k J (bind m f).
Proof.
  intros Hm Hf s. apply post_bind. eapply post_mono; [apply Hm | |]; simpl.
  - intros a s1 [Ha Hfr]. eapply post_mono; [by apply Hf | |]; simpl.
    + intros b s2 [Hb Hfr']. split; [done|]. by eapply frame_trans.
    + intros e s2 Hfr'. by eapply frame_trans.
  - done.
Qed.

Lemma framed_catch k {X} (I : X -> Prop) (m : M T E X) (h : E -> M T E X) :
  framed k I m -> (forall e, framed k I (h e)) -> framed k I (catch_any m h).
Proof.
  intros Hm Hh s. apply post_catch. eapply post_mono; [apply Hm | |]; simpl.
  - done.
  - intros e s1 Hfr. eapply post_mono; [by apply Hh | |]; simpl.
    + intros b s2 [Hb Hfr']. split; [done|]. by eapply frame_trans.
    + intros e' s2 Hfr'. by eapply frame_trans.
Qed.

Lemma framed_mono k {X} (I J : X -> Prop) (m : M T E X) :
  framed k I m -> (forall a, I a -> J a) -> framed k J m.
Proof.
  intros Hm HIJ s. eapply post_mono; [apply Hm | |]; simpl; [|done].
  intros a s' [? ?]. auto.
Qed.

Lemma framed_load k p : framed k (fun _ => True) (load p).
Proof.
  intros s. unfold post, load. destruct p as [|r i]; [done|].
  destruct (buffer_at r s ≫= _); done.
Qed.

Lemma framed_store p x : framed (off_arena p) (fun _ => True) (store p x).
Proof.
  intros s. unfold post, store. destruct p as [|r i]; [done|].
  destruct (buffer_at r s) as [l|]; [|done].
  case_bool_decide; [|done]. split; [done|]. apply frame_set_buffer.
Qed.

Lemma framed_log k evs : framed k (fun _ => True) (modify (log (T:=T) evs)).
Proof. intros s. by apply post_modify. Qed.

Lemma framed_construct p throws v : framed (off_arena p) (fun _ => True) (construct p throws v).
Proof.
  unfold construct. eapply framed_bind; [apply framed_load|].
  intros [|?] _; [|apply framed_undefined].
  destruct throws.
  - eapply framed_bind; [apply framed_store|]. intros _ _. apply framed_throw.
  - eapply framed_bind; [apply framed_store|]. intros _ _. apply framed_log.
Qed.

Lemma framed_destroy p : framed (off_arena p) (fun _ => True) (destroy p).
Proof.
  unfold destroy. eapply framed_bind; [apply framed_load|].
  intros [|?] _; [apply framed_undefined|].
  eapply framed_bind; [apply framed_store|]. intros _ _. apply framed_log.
Qed.

Lemma framed_assign p throws v : framed (off_arena p) (fun _ => True) (assign p throws v).
Proof.
  unfold assign. eapply framed_bind; [apply framed_load|].
  intros [|old] _; [apply framed_undefined|].
  destruct (throws old) as [[e rest]|].
  - eapply framed_bind; [apply framed_store|]. intros _ _. apply framed_throw.
  - apply framed_store.
Qed.

Lemma off_arena_ptr_add p i : off_arena (ptr_add p i) = off_arena p.
Proof. by destruct p as [|[|b] o]. Qed.

Lemma framed_DestroyElements first n :
  framed (off_arena first) (fun _ => True) (DestroyElements first n).
Proof.
  unfold DestroyElements. generalize (Z.to_nat n) as k. generalize O as i.
  intros i k. revert i. induction k as [|k IH]; intros i; simpl.
  - by apply framed_ret.
  - eapply framed_bind.
    + rewrite <- (off_arena_ptr_add first i). apply framed_destroy.
    + intros _ _. apply IH.
Qed.

Lemma framed_ConstructElements {A} `{ValueAdapter (T:=T) (E:=E) A} (I : A -> Prop) first n :
  (forall values p, I values -> off_arena p = off_arena first ->
                    framed (off_arena first) I (ConstructNext values p)) ->
  forall values, I values ->
  framed (off_arena first) I (ConstructElements first values n).
Proof.
  intros Hnext. unfold ConstructElements. generalize (Z.to_nat n) as k. generalize O as i.
  intros i k. revert i. induction k as [|k IH]; intros i values Hv; simpl.
  - by apply framed_ret.
  - eapply framed_bind.
    + apply framed_catch.
      * apply Hnext; [done | apply off_arena_ptr_add].
      * intros e. eapply framed_bind; [apply framed_DestroyElements|].
        intros _ _. apply framed_throw.
    + intros values' Hv'. by apply IH.
Qed.

Lemma framed_AssignElements {A} `{ValueAdapter (T:=T) (E:=E) A} (I : A -> Prop) first n :
  (forall values p, I values -> off_arena p = off_arena first ->
                    framed (off_arena first) I (AssignNext values p)) ->
  forall values, I values ->
  framed (off_arena first) I (AssignElements first values n).
Proof.
  intros Hnext. unfold AssignElements. generalize (Z.to_nat n) as k. generalize O as i.
  intros i k. revert i. induction k as [|k IH]; intros i values Hv; simpl.
  - by apply framed_ret.
  - eapply framed_bind.
    + apply Hnext; [done | apply off_arena_ptr_add].
    + intros values' Hv'. by apply IH.
Qed.

Lemma framed_weaken k {X} (I : X -> Prop) (m : M T E X) : framed true I m -> framed k I m.
Proof.
  intros Hm s. eapply post_mono; [apply Hm | |]; simpl.
  - intros a s' [? ?]. split; [done|]. by apply frame_weaken.
  - intros e s' ?. by apply frame_weaken.
Qed.

Lemma framed_sequence_ConstructNext {A} `{ValueSequence (T:=T) (E:=E) A} (values : A) k p :
  off_arena p = k -> framed k (fun _ => True) (ConstructNext values p).
Proof.
  intros <-. simpl. eapply framed_bind; [apply framed_construct|].
  intros _ _. by apply framed_ret.
Qed.

Lemma framed_sequence_AssignNext {A} `{ValueSequence (T:=T) (E:=E) A} (values : A) k p :
  off_arena p = k -> framed k (fun _ => True) (AssignNext values p).
Proof.
  intros <-. simpl. eapply framed_bind; [apply framed_assign|].
  intros _ _. by apply framed_ret.
Qed.

Lemma framed_move_ConstructNext (values : IteratorValueAdapter MoveIterator) k p :
  off_arena (base (it_ values)) = true ->
  off_arena p = k ->
  framed k (fun v => off_arena (base (it_ v)) = true) (ConstructNext values p).
Proof.
  intros Hsrc <-. simpl. eapply framed_bind; [apply framed_load|].
  intros [|v] _; [apply framed_undefined|].
  destruct (move_throws v) as [[e rest]|].
  - eapply framed_bind.
    { apply framed_weaken. rewrite <- Hsrc. apply framed_store. }
    intros _ _. eapply framed_bind; [apply framed_construct|].
    intros _ _. by apply framed_ret.
  - eapply framed_bind; [apply framed_construct|].
    intros _ _. eapply framed_bind.
    { apply framed_weaken. rewrite <- Hsrc. apply framed_store. }
    intros _ _. apply framed_ret. simpl. by rewrite off_arena_ptr_add.
Qed.

Lemma framed_allocate n :
  framed true (fun p => exists b, p = slot_ptr (heap_block b) 0) (allocate n).
Proof.
  intros s. unfold post, allocate. destruct (allocate_throws (trace s) n); [done|].
  split; [by eexists | done].
Qed.

Lemma framed_deallocate p n : framed true (fun _ => True) (deallocate p n).
Proof.
  intros s. unfold post, deallocate.
  destruct p as [|[|b] [|o]]; try done.
  destruct (heap s !! b) as [[l|]|]; try done.
  destruct (_ && _); done.
Qed.

Lemma framed_delete_AllocationTransaction tx :
  framed true (fun _ => True) (delete_AllocationTransaction tx).
Proof.
  unfold delete_AllocationTransaction. destruct (DidAllocate tx).
  - apply framed_deallocate.
  - by apply framed_ret.
Qed.

(** The is-allocated bit under the updates of the metadata word. *)

Lemma flag_add m c :
  negb (Z.land (wrap (m + wrap (Z.shiftl c 1))) 1 =? 0) = negb (Z.land m 1 =? 0).
Proof.
  rewrite !land_1, shiftl_1. do 2 f_equal. word_arith.
Qed.

Lemma flag_packed n (b : bool) :
  negb (Z.land (Z.lor (wrap (Z.shiftl n 1)) (Z.b2z b)) 1 =? 0) = b.
Proof.
  rewrite Z.land_lor_distr_l, !land_1, shiftl_1.
  replace (wrap (2 * n) mod 2) with 0 by word_arith.
  rewrite Z.lor_0_l. by destruct b.
Qed.

Lemma flag_unset m : negb (Z.land (wrap (Z.lor m 1 - 1)) 1 =? 0) = false.
Proof.
  assert (Hodd : Z.lor m 1 mod 2 = 1).
  { rewrite <- land_1, Z.land_lor_distr_l. change (Z.land 1 1) with 1.
    rewrite land_1. assert (m mod 2 = 0 \/ m mod 2 = 1) as [-> | ->]; [|done..].
    Z.div_mod_to_equations; lia. }
  rewrite land_1. replace (wrap (Z.lor m 1 - 1) mod 2) with 0; [done|].
  revert Hodd. generalize (Z.lor m 1). intros x Hx. word_arith.
Qed.

(** ** The capacity invariant of heap mode *)

Lemma invariant_not_allocated (s : state T) :
  GetIsAllocated s = false -> heap_capacity_invariant s.
Proof. intros Hf Ht. congruence. Qed.

Lemma invariant_intro b cap (s : state T) :
  data_ s = allocated (slot_ptr (heap_block b) 0) cap -> Z.of_nat N < cap ->
  heap_capacity_invariant s.
Proof. intros Hd Hcap _. by exists b, cap. Qed.

Lemma flag_frame k (s s' : state T) : frame k s s' -> GetIsAllocated s' = GetIsAllocated s.
Proof. intros [Hm _]. unfold GetIsAllocated, GetSizeAndIsAllocated. by rewrite Hm. Qed.

Lemma invariant_frame (s s' : state T) :
  frame true s s' -> heap_capacity_invariant s -> heap_capacity_invariant s'.
Proof.
  intros Hfr Hinv Hflag. rewrite (flag_frame _ _ _ Hfr) in Hflag.
  destruct Hfr as [_ Hd]. rewrite Hd by done. by apply Hinv.
Qed.

Ltac post_step :=
  cbv beta;
  lazymatch goal with
  | |- post (bind _ _) _ _ _ => apply post_bind
  | |- post (gets _) _ _ _ => apply post_gets
  | |- post (modify _) _ _ _ => apply post_modify
  | |- post (ret _) _ _ _ => apply post_ret
  | |- post (assert _) _ _ _ => apply post_assert; intros ?
  end.

Lemma Initialize_invariant {A} `{ValueSequence (T:=T) (E:=E) A} (values : A) n (s : state T) :
  heap_capacity_invariant s ->
  post (Initialize values n) s
    (fun _ => heap_capacity_invariant) (fun _ => heap_capacity_invariant).
Proof.
  intros Hinv. unfold Initialize. repeat post_step.
  rewrite static_cast_N. destruct (Z.ltb_spec (Z.of_nat N) n) as [Hn|Hn].
  - post_step. eapply post_mono; [apply framed_allocate | |]; simpl.
    2: { intros e s1 Hfr1. by apply (invariant_frame s). }
    intros p s1 [[b ->] Hfr1].
    unfold SetAllocatedData, SetIsAllocated. repeat post_step.
    set (s3 := set_metadata _ _).
    assert (Hflag3 : GetIsAllocated s3 = true) by apply flag_set.
    assert (Hinv3 : heap_capacity_invariant s3) by (by eapply invariant_intro).
    eapply post_mono; [apply (framed_ConstructElements (fun _ => True)) | |]; simpl.
    + intros. by apply framed_sequence_ConstructNext.
    + done.
    + intros _ s4 [_ [Hm4 Hd4]]. unfold AddSize. post_step.
      eapply invariant_intro; [|exact Hn]. simpl. by rewrite Hd4.
    + intros e s4 Hfr4. by apply (invariant_frame s3).
  - repeat post_step.
    eapply post_mono; [apply (framed_ConstructElements (fun _ => True)) | |]; simpl.
    + intros. by apply framed_sequence_ConstructNext.
    + done.
    + intros _ s4 [_ Hfr4]. unfold AddSize. post_step.
      apply invariant_not_allocated.
      unfold GetIsAllocated, GetSizeAndIsAllocated. simpl. rewrite flag_add.
      destruct Hfr4 as [-> _]. by apply negb_true_iff.
    + intros e s4 Hfr4. apply invariant_not_allocated.
      rewrite (flag_frame _ _ _ Hfr4). by apply negb_true_iff.
Qed.

Lemma frame_weaken_to k k' (s s' : state T) :
  (k' = true -> k = true) -> frame k s s' -> frame k' s s'.
Proof. intros Hk [Hm Hd]. split; [done|]. intros Hk'. by apply Hd, Hk. Qed.

Lemma framed_weaken_to k k' {X} (I : X -> Prop) (m : M T E X) :
  (k' = true -> k = true) -> framed k I m -> framed k' I m.
Proof.
  intros Hk Hm s. eapply post_mono; [apply Hm | |]; simpl.
  - intros a s' [? ?]. split; [done|]. by eapply frame_weaken_to.
  - intros e s' ?. by eapply frame_weaken_to.
Qed.

Lemma framed_gets k {X} (f : state T -> X) : framed k (fun _ => True) (gets f).
Proof. intros s. by apply post_gets. Qed.

Lemma framed_GetAllocatedData k : framed k (fun _ => True) GetAllocatedData.
Proof. intros s. unfold post, GetAllocatedData. by destruct (data_ s). Qed.

Lemma framed_GetAllocatedCapacity k : framed k (fun _ => True) GetAllocatedCapacity.
Proof. intros s. unfold post, GetAllocatedCapacity. by destruct (data_ s). Qed.

Lemma framed_DeallocateIfAllocated : framed true (fun _ => True) DeallocateIfAllocated.
Proof.
  unfold DeallocateIfAllocated. eapply framed_bind; [apply framed_gets|].
  intros [|] _; [|by apply framed_ret].
  eapply framed_bind; [apply framed_GetAllocatedData|]. intros p _.
  eapply framed_bind; [apply framed_GetAllocatedCapacity|]. intros c _.
  apply framed_deallocate.
Qed.

Lemma invariant_frame_flag (s s' : state T) :
  frame (GetIsAllocated s) s s' -> heap_capacity_invariant s -> heap_capacity_invariant s'.
Proof.
  intros Hfr Hinv Hflag. rewrite (flag_frame _ _ _ Hfr) in Hflag.
  destruct Hfr as [_ Hd]. rewrite Hd by done. by apply Hinv.
Qed.

(** What [MakeStorageView] reads from a storage that satisfies the
    invariant. *)
Lemma post_MakeStorageView (s : state T) :
  heap_capacity_invariant s ->
  post MakeStorageView s
    (fun sv s' =>
       s' = s /\ Z.of_nat N <= capacity sv /\
       (GetIsAllocated s = true -> off_arena (data sv) = true))
    (fun (_ : E) _ => False).
Proof.
  intros Hinv. unfold MakeStorageView. repeat post_step.
  destruct (GetIsAllocated s) eqn:Hflag.
  - destruct (Hinv Hflag) as (b & cap & Hd & Hcap).
    unfold post, bind, GetAllocatedData, GetAllocatedCapacity. rewrite Hd. simpl.
    rewrite Hd. simpl. split; [done|]. split; [lia|done].
  - apply post_ret. simpl. rewrite static_cast_N. split; [done|]. split; [lia|done].
Qed.

Lemma framed_Assign_loops {A} `{ValueSequence (T:=T) (E:=E) A} (values : A) k
    (assign_loop construct_loop destroy_loop : Span) :
  (k = true -> off_arena (span_data assign_loop) = true) ->
  (k = true -> off_arena (span_data construct_loop) = true) ->
  (k = true -> off_arena (span_data destroy_loop) = true) ->
  framed k (fun _ => True)
    (do values <- AssignElements (span_data assign_loop) values (span_size assign_loop);
     do _ <- ConstructElements (span_data construct_loop) values (span_size construct_loop);
     DestroyElements (span_data destroy_loop) (span_size destroy_loop)).
Proof.
  intros Ha Hc Hd.
  eapply framed_bind.
  { eapply framed_weaken_to; [exact Ha|].
    apply (framed_AssignElements (fun _ => True)); [|done].
    intros. by apply framed_sequence_AssignNext. }
  intros values' _. eapply framed_bind.
  { eapply framed_weaken_to; [exact Hc|].
    apply (framed_ConstructElements (fun _ => True)); [|done].
    intros. by apply framed_sequence_ConstructNext. }
  intros _ _. eapply framed_weaken_to; [exact Hd|]. apply framed_DestroyElements.
Qed.

Lemma Assign_invariant {A} `{ValueSequence (T:=T) (E:=E) A} (values : A) n (s : state T) :
  heap_capacity_invariant s ->
  post (Assign values n) s
    (fun _ => heap_capacity_invariant) (fun _ => heap_capacity_invariant).
Proof.
  intros Hinv. unfold Assign. apply post_bind.
  eapply post_mono; [by apply post_MakeStorageView | | done]; simpl.
  intros sv ? (-> & Hcap & Hoff). cbv zeta.
  set (fl := GetIsAllocated s) in *.
  destruct (Z.ltb_spec (capacity sv) n) as [Hgrow|Hfit].
  - (* a new block *)
    unfold Allocate. repeat post_step.
    eapply post_mono; [apply framed_allocate | |]; simpl.
    2: { intros e s1 Hfr1. by apply (invariant_frame s). }
    intros p s1 [[b ->] Hfr1]. repeat post_step.
    apply post_catch.
    eapply post_mono;
      [apply (framed_Assign_loops values fl); simpl; auto | |]; simpl.
    + intros _ s2 [_ Hfr2].
      change (DidAllocate _) with true. cbv iota.
      unfold AcquireAllocation, SetAllocatedData, SetIsAllocated, SetSize.
      post_step. post_step.
      eapply post_mono; [apply framed_DeallocateIfAllocated | |]; simpl.
      2: { intros e s3 Hfr3. apply (invariant_frame_flag s); [|done].
           eapply frame_trans; [|eapply frame_trans]; [| exact Hfr2 |];
             by apply frame_weaken. }
      intros _ s3 [_ Hfr3]. repeat post_step.
      unfold delete_AllocationTransaction. change (DidAllocate _) with false. cbv iota.
      apply post_ret. eapply invariant_intro; [done|]. simpl. lia.
    + intros e s2 Hfr2. repeat post_step.
      assert (Hchain : forall s3, frame true s2 s3 -> heap_capacity_invariant s3).
      { intros s3 Hfr3. apply (invariant_frame_flag s); [|done].
        eapply frame_trans; [|eapply frame_trans]; [| exact Hfr2 |];
          by apply frame_weaken. }
      eapply post_mono; [apply framed_delete_AllocationTransaction | |]; simpl.
      * intros _ s3 [_ Hfr3]. apply post_throw. by apply Hchain.
      * intros e' s3 Hfr3. by apply Hchain.
  - (* within the current capacity *)
    assert (Hbody : forall (assign_loop construct_loop destroy_loop : Span),
      (fl = true -> off_arena (span_data assign_loop) = true) ->
      (fl = true -> off_arena (span_data construct_loop) = true) ->
      (fl = true -> off_arena (span_data destroy_loop) = true) ->
      post
        (do _ <-
           catch_any
             (do values <- AssignElements (span_data assign_loop) values
                             (span_size assign_loop);
              do _ <- ConstructElements (span_data construct_loop) values
                        (span_size construct_loop);
              DestroyElements (span_data destroy_loop) (span_size destroy_loop))
             (fun e =>
                do _ <- delete_AllocationTransaction new_AllocationTransaction; throw e);
         do allocation_tx <-
           (if DidAllocate new_AllocationTransaction
            then
              do _ <- DeallocateIfAllocated;
              do allocation_tx <- AcquireAllocation new_AllocationTransaction;
              do _ <- SetIsAllocated;
              ret allocation_tx
            else ret new_AllocationTransaction);
         do _ <- SetSize n;
         delete_AllocationTransaction allocation_tx) s
        (fun _ => heap_capacity_invariant) (fun _ => heap_capacity_invariant)).
    { intros al cl dl Ha Hc Hd. post_step. apply post_catch.
      eapply post_mono; [by apply (framed_Assign_loops values fl) | |]; simpl.
      - intros _ s2 [_ Hfr2].
        change (DidAllocate _) with false. cbv iota. unfold SetSize. repeat post_step.
        apply post_ret. intros Hflag.
        assert (Hfl2 : GetIsAllocated s2 = true).
        { revert Hflag. unfold GetIsAllocated at 1, GetSizeAndIsAllocated. simpl.
          by rewrite flag_packed. }
        rewrite (flag_frame _ _ _ Hfr2) in Hfl2.
        destruct Hfr2 as [_ Hd2]. simpl. rewrite Hd2 by done. by apply Hinv.
      - intros e s2 Hfr2. post_step. apply post_ret. apply post_throw.
        by apply (invariant_frame_flag s). }
    destruct (Z.ltb_spec (size sv) n) as [Hext|Hshr]; post_step; apply post_ret; cbv iota.
    + apply Hbody; simpl; auto. intros Hfl. rewrite off_arena_ptr_add. auto.
    + apply Hbody; simpl; auto. intros Hfl. rewrite off_arena_ptr_add. auto.
Qed.

Lemma framed_move_ConstructElements k first (p : pointer) n :
  off_arena p = true -> off_arena first = k ->
  framed k (fun _ => True)
    (ConstructElements first {| it_ := {| base := p |} |} n).
Proof.
  intros Hp <-.
  eapply framed_mono.
  - apply (framed_ConstructElements (fun v => off_arena (base (it_ v)) = true)); [|done].
    intros values q Hv Hq. by apply framed_move_ConstructNext.
  - done.
Qed.

(** [DestroyElements] and [deallocate] do not throw. *)
Lemma post_never_throws {X} (m : M T E X) (Q : X -> state T -> Prop)
    (R : E -> state T -> Prop) :
  (forall s e s', m s <> Throw e s') ->
  forall s, post m s Q (fun _ _ => True) -> post m s Q R.
Proof.
  intros Hm s. unfold post. specialize (Hm s). destruct (m s); try done.
  by destruct (Hm e s0).
Qed.

Lemma destroy_never_throws p (s : state T) e s' : destroy p s <> Throw (E:=E) e s'.
Proof.
  unfold destroy, bind, load, store. destruct p as [|r i]; [done|].
  destruct (buffer_at r s ≫= _) as [[|v]|] eqn:Hx; try done.
  simpl. destruct (buffer_at r s); [|done]. by case_bool_decide.
Qed.

Lemma DestroyElements_never_throws first n (s : state T) e s' :
  DestroyElements first n s <> Throw (E:=E) e s'.
Proof.
  unfold DestroyElements. generalize (Z.to_nat n) as k. generalize O as i.
  intros i k. revert i s. induction k as [|k IH]; intros i s; [done|].
  simpl. unfold bind.
  destruct (destroy (ptr_add first i) s) as [[] s1| |] eqn:Hd; try done.
  by apply destroy_never_throws in Hd.
Qed.

Lemma deallocate_never_throws p n (s : state T) e s' :
  deallocate p n s <> Throw (E:=E) e s'.
Proof.
  unfold deallocate. destruct p as [|[|b] [|o]]; try done.
  destruct (heap s !! b) as [[l|]|]; try done.
  by destruct (_ && _).
Qed.

Lemma ShrinkToFit_invariant (s : state T) :
  heap_capacity_invariant s ->
  post ShrinkToFit s (fun _ => heap_capacity_invariant) (fun _ => heap_capacity_invariant).
Proof.
  intros Hinv. unfold ShrinkToFit. repeat post_step.
  destruct (Hinv ltac:(done)) as (b & cap & Hd & Hcap).
  unfold post at 1, GetAllocatedData. rewrite Hd.
  repeat post_step.
  unfold post at 1, GetAllocatedCapacity. rewrite Hd.
  cbv zeta. cbn [data size capacity]. rewrite static_cast_N.
  set (p := slot_ptr (heap_block b) 0).
  assert (Hrelocate : forall construct_data allocation_tx (s1 : state T),
    frame true s s1 ->
    (DidAllocate allocation_tx = true ->
     exists b', alloc_data_ allocation_tx = slot_ptr (heap_block b') 0 /\
                Z.of_nat N < capacity_ allocation_tx) ->
    post
      (do _ <-
         catch_any
           (catch_any
              (ConstructElements construct_data {| it_ := {| base := p |} |} (GetSize s))
              (fun e => do _ <- SetAllocatedData p cap; throw e))
           (fun e => do _ <- delete_AllocationTransaction allocation_tx; throw e);
       do _ <- DestroyElements p (GetSize s);
       do _ <- deallocate p cap;
       do allocation_tx <-
         (if DidAllocate allocation_tx
          then AcquireAllocation allocation_tx
          else do _ <- UnsetIsAllocated; ret allocation_tx);
       delete_AllocationTransaction allocation_tx) s1
      (fun _ => heap_capacity_invariant) (fun _ => heap_capacity_invariant)).
  { intros construct_data tx s1 Hfr1 Htx.
    assert (Hrestore : forall s2, metadata_ s2 = metadata_ s1 -> data_ s2 = data_ s ->
                                  heap_capacity_invariant s2).
    { intros s2 Hm2 Hd2. apply (invariant_frame s); [|done]. split; [|done].
      rewrite Hm2. apply Hfr1. }
    post_step. apply post_catch. apply post_catch.
    eapply post_mono;
      [apply (framed_move_ConstructElements (off_arena construct_data)); done | |]; simpl.
    - intros _ s2 [_ Hfr2]. post_step.
      apply post_never_throws; [apply DestroyElements_never_throws|].
      eapply post_mono; [apply framed_DestroyElements | | done]; simpl.
      intros _ s3 [_ Hfr3]. post_step.
      apply post_never_throws; [apply deallocate_never_throws|].
      eapply post_mono; [apply framed_deallocate | | done]; simpl.
      intros _ s4 [_ Hfr4]. post_step.
      destruct (DidAllocate tx) eqn:Hdid.
      + destruct (Htx eq_refl) as (b' & Hp' & Hc').
        unfold AcquireAllocation, SetAllocatedData. repeat post_step.
        unfold delete_AllocationTransaction. change (DidAllocate _) with false. cbv iota.
        apply post_ret. eapply invariant_intro; [|exact Hc']. simpl. by rewrite Hp'.
      + unfold UnsetIsAllocated, SetIsAllocated. repeat post_step.
        unfold delete_AllocationTransaction. rewrite Hdid. apply post_ret.
        apply invariant_not_allocated.
        unfold GetIsAllocated, GetSizeAndIsAllocated. simpl. apply flag_unset.
    - intros e s2 [Hm2 _]. unfold SetAllocatedData. repeat post_step.
      apply post_throw. repeat post_step.
      eapply post_mono; [apply framed_delete_AllocationTransaction | |]; simpl.
      + intros _ s3 [_ [Hm3 Hd3]]. apply post_throw.
        apply Hrestore; [simpl in *; congruence|]. by rewrite Hd3.
      + intros e' s3 [Hm3 Hd3]. apply Hrestore; [simpl in *; congruence|]. by rewrite Hd3. }
  destruct (Z.leb_spec (GetSize s) (Z.of_nat N)) as [Hfits|Hbig].
  - post_step. post_step. cbv iota beta. apply Hrelocate; [apply frame_refl | done].
  - post_step. post_step. unfold post at 1, GetAllocatedCapacity. rewrite Hd.
    destruct (Z.ltb_spec (GetSize s) cap) as [Hslack|Hfull].
    + unfold Allocate. repeat post_step.
      eapply post_mono; [apply framed_allocate | |]; simpl.
      2: { intros e s1 Hfr1. by apply (invariant_frame s). }
      intros p' s1 [[b' ->] Hfr1]. post_step. post_step. cbv iota beta.
      apply Hrelocate; [done|]. intros _. exists b'. simpl. split; [done|lia].
    + post_step. cbv iota beta.
      unfold delete_AllocationTransaction. change (DidAllocate _) with false. cbv iota.
      by apply post_ret.
Qed.

(** Every reachable state satisfies the capacity invariant. *)
Lemma reachable_invariant (s : state T) : reachable s -> heap_capacity_invariant s.
Proof.
  induction 1 as [s Hs | s s' A VS values n _ IH Hstep | s s' A VS values n _ IH Hstep
                  | s s' _ IH Hstep].
  - apply invariant_not_allocated. apply (Stores_flag _ _ _ Hs).
  - eapply post_final; [|exact Hstep]. by apply Initialize_invariant.
  - eapply post_final; [|exact Hstep]. by apply Assign_invariant.
  - eapply post_final; [|exact Hstep]. by apply ShrinkToFit_invariant.
Qed.

(** * The claims *)

Lemma allocation_calls_app (t1 t2 : list (event T)) :
  allocation_calls (t1 ++ t2) = allocation_calls t1 ++ allocation_calls t2.
Proof. apply filter_app. Qed.

Lemma allocation_calls_construct first i vs :
  allocation_calls (construct_events (T:=T) first i vs) = [].
Proof. apply filter_construct_events. Qed.

Lemma allocation_calls_destroy first i k :
  allocation_calls (destroy_events (T:=T) first i k) = [].
Proof. apply filter_destroy_events. Qed.

Section Claims.
Context {A : Type} {VS : ValueSequence (T:=T) (E:=E) A}.

(** C1.  [Assign] beyond the current capacity is strongly exception
    safe.  When the construction of element [i] of the [new_size]
    elements in the fresh buffer throws [e], the call throws [e] and
    leaves the metadata word (size and mode) and the union (data pointer
    and capacity) as they were, the storage still holds its elements
    [vs], every block of the allocator is as it was, and the fresh block
    has been given back: the only allocator calls are its allocation and
    its deallocation. *)
Theorem Assign_grow_strong_guarantee (values : A) (new_size : Z) i e m vs (s : state T) :
  Stores s m vs ->
  capacity_of m < new_size ->
  allocate_throws (trace s) new_size = None ->
  first_construct_throw values (Z.to_nat new_size) = Some (i, e) ->
  let fresh := slot_ptr (heap_block (length (heap s))) 0 in
  exists s',
    Assign values new_size @ s ==> Throw e s' /\
    metadata_ s' = metadata_ s /\
    data_ s' = data_ s /\
    Stores s' m vs /\
    heap s' = heap s ++ [None] /\
    allocation_calls (trace s') =
      allocation_calls (trace s) ++ [EvAllocate fresh new_size; EvDeallocate fresh new_size].
Proof.
  intros Hs Hcap Ha Hf fresh. eexists.
  split; [by apply (Assign_grow_throw values new_size i e m vs s)|].
  split; [done|]. split; [done|]. split; [by eapply Stores_heap_frame|].
  split; [done|]. cbn [trace].
  rewrite !allocation_calls_app, allocation_calls_construct, allocation_calls_destroy.
  done.
Qed.

(** C2, as amended.  When the construction of element [i] throws [e] in
    [Initialize] on an empty inline storage, the call throws [e] with
    every element it constructed destroyed.  For [new_size <= N] the
    storage is empty and inline again and no block was allocated.  For
    [new_size > N] the storage is left in heap mode with size 0, owning
    the fresh block of capacity [new_size], which [Initialize] does not
    free: it is freed by the destructor, [DestroyAndDeallocate]. *)
Theorem Initialize_failure (values : A) (new_size : Z) i e (s : state T) :
  Stores s Inline [] ->
  first_construct_throw values (Z.to_nat new_size) = Some (i, e) ->
  (Z.of_nat N < new_size -> allocate_throws (trace s) new_size = None) ->
  exists s',
    Initialize values new_size @ s ==> Throw e s' /\
    if new_size <=? Z.of_nat N
    then
      Stores s' Inline [] /\ heap s' = heap s /\
      trace s' = trace s ++ construct_events GetInlinedData 0 (adapter_values values i) ++
                   destroy_events GetInlinedData 0 i
    else
      let b := length (heap s) in
      let fresh := slot_ptr (heap_block b) 0 in
      Stores s' (Heap b new_size) [] /\
      heap s' = heap s ++ [Some (replicate (Z.to_nat new_size) Raw)] /\
      trace s' = trace s ++ [EvAllocate fresh new_size] ++
                   construct_events fresh 0 (adapter_values values i) ++
                   destroy_events fresh 0 i /\
      exists s'',
        DestroyAndDeallocate @ s' ==> Ret tt s'' /\
        heap s'' = heap s ++ [None] /\
        trace s'' = trace s' ++ [EvDeallocate fresh new_size].
Proof.
  intros Hs Hf Ha.
  destruct (Initialize_throw values new_size i e s Hs Hf Ha) as (s' & Hrun & Hs').
  exists s'. split; [done|].
  destruct (new_size <=? Z.of_nat N); [done|].
  destruct Hs' as (Hst & Hheap & Htrace).
  split; [done|]. split; [done|]. split; [done|].
  destruct (DestroyAndDeallocate_heap _ _ _ _ Hst) as (s'' & Hrun' & _ & _ & Hheap' & Htrace').
  exists s''. split; [done|]. split.
  - rewrite Hheap', Hheap. apply insert_fresh.
  - by rewrite Htrace'.
Qed.

(** C3.  [Assign] that does not throw leaves the size equal to
    [new_size] and a well-formed storage whose elements are the first
    [new_size] values of the adapter, in order, with raw memory after
    them: in a fresh block of capacity [new_size] when [new_size] exceeds
    the capacity, in the buffer the storage had otherwise. *)
Theorem Assign_contents (values : A) (new_size : Z) m vs (s : state T) :
  Stores s m vs ->
  0 <= new_size <= max_size ->
  never_throws values (Z.to_nat new_size) ->
  (capacity_of m < new_size -> allocate_throws (trace s) new_size = None) ->
  exists s',
    Assign values new_size @ s ==> Ret tt s' /\
    GetSize s' = new_size /\
    Stores s' (if capacity_of m <? new_size then Heap (length (heap s)) new_size else m)
      (adapter_values values (Z.to_nat new_size)).
Proof.
  intros Hs Hn Hnt Ha.
  assert (Hresult : forall s' m',
            Stores s' m' (adapter_values values (Z.to_nat new_size)) ->
            GetSize s' = new_size).
  { intros s' m' Hs'. rewrite (Stores_size _ _ _ Hs'), length_adapter_values. lia. }
  pose proof (Stores_flag _ _ _ Hs) as Hflag.
  pose proof (Stores_capacity _ _ _ Hs) as Hlen.
  pose proof max_size_bound as Hbound.
  destruct (Z.ltb_spec (capacity_of m) new_size) as [Hgrow|Hfit].
  - (* beyond the capacity *)
    destruct (Assign_grow_ret values new_size m vs s) as (s' & Hrun & Hs'); auto; [lia| |].
    { by apply never_throws_construct. }
    exists s'. eauto.
  - assert (Hmeta : Z.lor (wrap (Z.shiftl new_size 1)) (Z.b2z (GetIsAllocated s)) =
                    2 * new_size + Z.b2z (GetIsAllocated s)).
    { rewrite shiftl_1, wrap_small by lia. apply lor_flag. lia. }
    assert (Hstores : forall s',
              metadata_ s' = 2 * new_size + Z.b2z (GetIsAllocated s) ->
              (region_of m <> inlined_arena -> data_ s' = data_ s) ->
              buffer_at (region_of m) s' =
                Some (holds (adapter_values values (Z.to_nat new_size))
                        (Z.to_nat (capacity_of m))) ->
              Stores s' m (adapter_values values (Z.to_nat new_size))).
    { intros s' Hm' Hd' Hb'. unfold Stores. rewrite length_adapter_values.
      split; [lia|]. split; [lia|]. split; [done|].
      rewrite Hm', Hflag. destruct Hs as (_ & _ & _ & Hrest).
      destruct m as [|b cap]; simpl.
      - lia.
      - split; [lia|]. rewrite Hd' by done. apply Hrest. }
    destruct (Z.ltb_spec (Z.of_nat (length vs)) new_size) as [Hext|Hshr].
    + (* above the size, within the capacity *)
      pose proof (Assign_extend values new_size m vs s Hs ltac:(lia) ltac:(lia)) as Hrun.
      cbv zeta in Hrun.
      rewrite never_throws_assign in Hrun
        by (eapply never_throws_le; [|exact Hnt]; lia).
      rewrite never_throws_construct in Hrun.
      2: { apply never_throws_advance.
           replace (length vs + (Z.to_nat new_size - length vs))%nat
             with (Z.to_nat new_size) by lia.
           done. }
      eexists. split; [exact Hrun|].
      assert (Hs' : Stores
                (set_metadata (Z.lor (wrap (Z.shiftl new_size 1)) (Z.b2z (GetIsAllocated s)))
                   (log (construct_events (slot_ptr (region_of m) (length vs)) 0
                           (adapter_values (advance_n values (length vs))
                              (Z.to_nat new_size - length vs)))
                      (set_buffer (region_of m)
                         (holds (adapter_values values (Z.to_nat new_size))
                            (Z.to_nat (capacity_of m))) s)))
                m (adapter_values values (Z.to_nat new_size))).
      { apply Hstores.
        - done.
        - intros Hr. destruct m; done.
        - change (buffer_at ?r (set_metadata ?z (log ?evs ?s0))) with (buffer_at r s0).
          eapply buffer_at_set_buffer. by destruct Hs as (_ & _ & ? & _). }
      split; [by eapply Hresult|done].
    + (* at most the size *)
      pose proof (Assign_shrink values new_size m vs s Hs ltac:(lia)) as Hrun.
      cbv zeta in Hrun.
      rewrite never_throws_assign in Hrun.
      2: { rewrite length_take. eapply never_throws_le; [|exact Hnt]. lia. }
      eexists. split; [exact Hrun|].
      assert (Hs' : Stores
                (set_metadata (Z.lor (wrap (Z.shiftl new_size 1)) (Z.b2z (GetIsAllocated s)))
                   (written (length vs) (region_of m)
                      (holds (adapter_values values (Z.to_nat new_size))
                         (Z.to_nat (capacity_of m)))
                      (destroy_events (slot_ptr (region_of m) (Z.to_nat new_size)) 0
                         (length vs - Z.to_nat new_size)) s))
                m (adapter_values values (Z.to_nat new_size))).
      { apply Hstores.
        - done.
        - intros Hr. destruct m as [|b cap]; [done|]. simpl. apply data_written_heap.
        - change (buffer_at ?r (set_metadata ?z ?s0)) with (buffer_at r s0).
          eapply buffer_at_written; [by destruct Hs as (_ & _ & ? & _)|].
          intros Hz. apply nil_length_inv in Hz. subst vs.
          replace (Z.to_nat new_size) with O by (simpl in *; lia). done. }
      split; [by eapply Hresult|done].
Qed.

(** C4.  [Initialize] that does not throw, on an empty inline storage:
    for [new_size <= N] the storage is inline, for [new_size > N] it is
    in heap mode in a fresh block of capacity exactly [new_size]; in both
    cases its elements are the first [new_size] values of the adapter. *)
Theorem Initialize_contents (values : A) (new_size : Z) (s : state T) :
  Stores s Inline [] ->
  0 <= new_size <= max_size ->
  first_construct_throw values (Z.to_nat new_size) = None ->
  (Z.of_nat N < new_size -> allocate_throws (trace s) new_size = None) ->
  exists s',
    Initialize values new_size @ s ==> Ret tt s' /\
    Stores s' (if new_size <=? Z.of_nat N then Inline else Heap (length (heap s)) new_size)
      (adapter_values values (Z.to_nat new_size)).
Proof. apply Initialize_ret. Qed.

(** C9.  [Assign] to a size within the capacity of a heap storage,
    whether it returns or throws, leaves the storage in heap mode with
    the data pointer and the capacity it had, and makes no call to
    [allocate] or [deallocate]. *)
Theorem Assign_within_capacity_keeps_buffer (values : A) (new_size : Z) b cap vs
    (s : state T) :
  Stores s (Heap b cap) vs ->
  0 <= new_size <= cap ->
  new_size < size_type_modulus ->
  exists s',
    final_state (Assign values new_size s) = Some s' /\
    GetIsAllocated s' = true /\
    data_ s' = allocated (slot_ptr (heap_block b) 0) cap /\
    allocation_calls (trace s') = allocation_calls (trace s) /\
    length (heap s') = length (heap s).
Proof.
  intros Hs Hn Hmod.
  pose proof (Stores_flag _ _ _ Hs) as Hflag. simpl in Hflag.
  assert (Hdata : data_ s = allocated (slot_ptr (heap_block b) 0) cap)
    by (by destruct Hs as (_ & _ & _ & _ & ?)).
  assert (Hpacked : forall s0 : state T,
            GetIsAllocated
              (set_metadata (Z.lor (wrap (Z.shiftl new_size 1)) (Z.b2z true)) s0) = true).
  { intros s0. unfold GetIsAllocated, GetSizeAndIsAllocated. cbn [metadata_ set_metadata].
    apply (flag_packed new_size true). }
  destruct (Z.ltb_spec (Z.of_nat (length vs)) new_size) as [Hext|Hshr].
  - pose proof (Assign_extend values new_size (Heap b cap) vs s Hs ltac:(simpl; lia) Hmod)
      as Hrun.
    cbv zeta in Hrun. simpl region_of in Hrun. rewrite Hflag in Hrun.
    destruct (first_assign_throw values vs) as [[j [e rest]]|].
    + rewrite Hrun. eexists. split; [done|]. simpl.
      by rewrite length_insert.
    + destruct (first_construct_throw _ _) as [[j e]|].
      * rewrite Hrun. eexists. split; [done|]. simpl.
        rewrite allocation_calls_app, allocation_calls_app, allocation_calls_construct,
          allocation_calls_destroy, app_nil_r, length_insert. done.
      * rewrite Hrun. eexists. split; [done|]. split; [apply Hpacked|]. simpl.
        rewrite allocation_calls_app, allocation_calls_construct, app_nil_r, length_insert.
        done.
  - pose proof (Assign_shrink values new_size (Heap b cap) vs s Hs ltac:(lia)) as Hrun.
    cbv zeta in Hrun. simpl region_of in Hrun. rewrite Hflag in Hrun.
    destruct (first_assign_throw values _) as [[j [e rest]]|].
    + rewrite Hrun. eexists. split; [done|]. simpl.
      by rewrite length_insert.
    + rewrite Hrun. eexists. split; [done|]. split; [apply Hpacked|].
      erewrite written_heap.
      * simpl. rewrite allocation_calls_app, allocation_calls_destroy, app_nil_r,
          length_insert. done.
      * destruct Hs as (_ & _ & Hbuf & _). apply heap_lookup_buffer. exact Hbuf.
      * intros Hz. apply nil_length_inv in Hz. subst vs.
        replace (Z.to_nat new_size) with O by (simpl in *; lia). done.
Qed.

End Claims.

(** C5.  [ShrinkToFit] on a heap storage of at most [N] elements, when no
    move throws: the storage becomes inline and holds the same elements,
    and the one call to the allocator is [deallocate] with the heap
    buffer and the capacity the storage had. *)
Theorem ShrinkToFit_reverts_to_inline b cap vs (s : state T) :
  Stores s (Heap b cap) vs ->
  (length vs <= N)%nat ->
  first_move_throw vs = None ->
  exists s',
    ShrinkToFit @ s ==> Ret tt s' /\
    Stores s' Inline vs /\
    GetIsAllocated s' = false /\
    heap s' = <[b := None]> (heap s) /\
    allocation_calls (trace s') =
      allocation_calls (trace s) ++ [EvDeallocate (slot_ptr (heap_block b) 0) cap].
Proof.
  intros Hs HN Hf.
  destruct (ShrinkToFit_to_inline b cap vs s Hs HN Hf) as (s' & Hrun & Hs' & Hheap & Htrace).
  exists s'. split; [done|]. split; [done|].
  split; [apply (Stores_flag _ _ _ Hs')|]. split; [done|].
  rewrite Htrace, !allocation_calls_app, allocation_calls_construct,
    allocation_calls_destroy. done.
Qed.

(** C6.  [ShrinkToFit] on a heap storage whose size equals its capacity
    returns in the state it was called in: size, mode, data pointer,
    capacity, elements, blocks and trace are what they were.  The storage
    is one that [Initialize], [Assign] and [ShrinkToFit] can produce, so
    its capacity is above [N] and the test [size <= N], which the function
    makes first, fails. *)
Theorem ShrinkToFit_full_is_noop p cap (s : state T) :
  reachable s ->
  GetIsAllocated s = true ->
  data_ s = allocated p cap ->
  GetSize s = cap ->
  ShrinkToFit @ s ==> Ret tt s.
Proof.
  intros Hreach Hflag Hdata Hsize.
  destruct (reachable_invariant s Hreach Hflag) as (b & cap' & Hd & Hcap).
  rewrite Hdata in Hd. injection Hd as -> <-.
  unfold ShrinkToFit.
  rewrite bind_gets, Hflag. unfold assert at 1. rewrite bind_pure.
  erewrite bind_ret by (by eapply GetAllocatedData_run).
  rewrite bind_gets, Hsize.
  erewrite bind_ret by (by eapply GetAllocatedCapacity_run).
  cbv zeta. cbn [data size capacity]. rewrite static_cast_N.
  rewrite (proj2 (Z.leb_gt _ _)) by lia.
  rewrite !bind_bind.
  erewrite bind_ret by (by eapply GetAllocatedCapacity_run).
  rewrite (proj2 (Z.ltb_ge _ _)) by lia.
  rewrite bind_pure. done.
Qed.

(** C7.  When a move construction throws [e] partway through the
    relocation of [ShrinkToFit], the call throws [e] and the storage is
    in heap mode with the metadata word and the union it had (its size,
    its buffer, its capacity), well formed, every element live: those
    before the failing one moved from, the failing one as its move left
    it, those after it untouched.  A block allocated for the relocation
    has been given back. *)
Theorem ShrinkToFit_restores_on_throw b cap vs j e rest (s : state T) :
  Stores s (Heap b cap) vs ->
  first_move_throw vs = Some (j, (e, rest)) ->
  (length vs <= N)%nat \/
    (Z.of_nat (length vs) < cap /\ allocate_throws (trace s) (Z.of_nat (length vs)) = None) ->
  let vs' := (moved_from <$> take j vs) ++ rest :: drop (S j) vs in
  exists s',
    ShrinkToFit @ s ==> Throw e s' /\
    metadata_ s' = metadata_ s /\
    data_ s' = data_ s /\
    Stores s' (Heap b cap) vs' /\
    length vs' = length vs /\
    heap s' = <[b := Some (holds vs' (Z.to_nat cap))]> (heap s) ++
                (if bool_decide (length vs <= N)%nat then [] else [None]).
Proof.
  intros Hs Hf Hpath vs'.
  destruct (ShrinkToFit_throw b cap vs j e rest s Hs Hf Hpath)
    as (s' & Hrun & Hm & Hd & Hs' & Hheap).
  exists s'. split; [done|]. split; [done|]. split; [done|]. split; [done|].
  split; [|done].
  pose proof (Stores_size _ _ _ Hs) as Hsz. pose proof (Stores_size _ _ _ Hs') as Hsz'.
  unfold GetSize, GetSizeAndIsAllocated in *. rewrite Hm in Hsz'. unfold vs' in *. lia.
Qed.

(** C8.  [ConstructElements] constructs all [n] elements or none, for
    every adapter.  When all [n] constructions return, the call returns
    in the state they leave: nothing is destroyed.  When the
    constructions of elements [0 .. i - 1] return and the construction
    of element [i < n] throws [e], leaving the elements [vs] it
    constructed live in slots [0 .. i - 1] of the destination, the call
    throws the same [e] after destroying exactly those [i] elements, in
    ascending order: their slots are raw again, the calls it adds to the
    trace are the [i] calls to [destroy], and the slots around them, the
    other buffers and the metadata word are as the failed construction
    left them. *)
Theorem ConstructElements_rollback {A} `{ValueAdapter (T:=T) (E:=E) A}
    (r : region) (o : nat) (values : A) (n : Z) (s : state T) :
  (forall values' s',
     construct_run (slot_ptr r o) values 0 (Z.to_nat n) @ s ==> Ret values' s' ->
     ConstructElements (slot_ptr r o) values n @ s ==> Ret values' s') /\
  (forall (i : nat) (values_i : A) (s_i s_e : state T) (e : E) pre vs post,
     Z.of_nat i < n ->
     construct_run (slot_ptr r o) values 0 i @ s ==> Ret values_i s_i ->
     ConstructNext values_i (slot_ptr r (o + i)) @ s_i ==> Throw e s_e ->
     buffer_at r s_e = Some (pre ++ (Live <$> vs) ++ post) ->
     length pre = o ->
     length vs = i ->
     exists s',
       ConstructElements (slot_ptr r o) values n @ s ==> Throw e s' /\
       buffer_at r s' = Some (pre ++ replicate i Raw ++ post) /\
       trace s' = trace s_e ++ destroy_events (slot_ptr r o) 0 i /\
       metadata_ s' = metadata_ s_e /\
       forall r', r <> r' -> buffer_at r' s' = buffer_at r' s_e).
Proof.
  split.
  - intros values' s' Hrun. unfold ConstructElements.
    by apply ConstructElements_loop_ret.
  - intros i values_i s_i s_e e pre vs post Hi Hrun Hthrow Hbuf Ho Hvs. subst i.
    assert (Hcall : ConstructElements (slot_ptr r o) values n @ s ==>
                      (do _ <- DestroyElements (slot_ptr r o) (Z.of_nat (length vs)); throw e)
                        s_e).
    { unfold ConstructElements.
      apply (ConstructElements_loop_throw (slot_ptr r o) (Z.to_nat n) values 0 s
               (length vs) values_i s_i); [lia | done | done]. }
    erewrite bind_ret in Hcall
      by (by eapply (DestroyElements_spec r o pre post vs)).
    eexists. split; [exact Hcall|]. split.
    { eapply buffer_at_written; [done|].
      intros Hz. apply nil_length_inv in Hz. by subst vs. }
    split; [apply trace_written; intros Hz; by rewrite Hz|].
    split; [apply metadata_written|].
    intros r' Hr. by apply buffer_at_written_ne.
Qed.

(** C10.  In every state reachable from the empty inline state through
    [Initialize], [Assign] and [ShrinkToFit], a storage in heap mode has
    a capacity above [N]; so a heap storage of at most [N] elements has
    fewer elements than its capacity. *)
Theorem heap_capacity_exceeds_inline (s : state T) :
  reachable s ->
  GetIsAllocated s = true ->
  exists b cap,
    data_ s = allocated (slot_ptr (heap_block b) 0) cap /\
    Z.of_nat N < cap /\
    (GetSize s <= Z.of_nat N -> GetSize s < cap).
Proof.
  intros Hreach Hflag.
  destruct (reachable_invariant s Hreach Hflag) as (b & cap & Hd & Hcap).
  exists b, cap. split; [done|]. split; [done|]. lia.
Qed.

(** * Further properties of the code *)

(** ** The setters of the metadata word *)

Lemma shiftr_1 m : Z.shiftr m 1 = m / 2.
Proof. by rewrite Z.shiftr_div_pow2. Qed.

Lemma wrap_shiftl n : wrap (Z.shiftl n 1) = 2 * (n mod (max_size + 1)).
Proof. rewrite shiftl_1. word_arith. Qed.

Lemma word_halves m : 0 <= m -> m = 2 * (m / 2) + Z.b2z (negb (Z.land m 1 =? 0)).
Proof.
  intros Hm. rewrite land_1.
  destruct (Z.eqb_spec (m mod 2) 0); simpl; Z.div_mod_to_equations; lia.
Qed.

Lemma same_metadata m (s : state T) : m = metadata_ s -> set_metadata m s = s.
Proof. intros ->. by destruct s. Qed.

(** X1.  [SetSize] followed by [GetSize].  The word keeps one bit for the
    mode, so a size is stored modulo [2 ^ 63]: a size up to [max_size] is
    read back as it was written, the top bit of a larger one is lost.
    The mode bit and the rest of the storage stay as they were. *)
Theorem SetSize_GetSize size (s : state T) :
  0 <= size < size_type_modulus ->
  exists s',
    SetSize size @ s ==> Ret tt s' /\
    GetSize s' = size mod (max_size + 1) /\
    (size <= max_size -> GetSize s' = size) /\
    GetIsAllocated s' = GetIsAllocated s /\
    data_ s' = data_ s /\ heap s' = heap s /\ trace s' = trace s.
Proof.
  intros Hsize. eexists. split; [reflexivity|].
  assert (Hget : GetSize (set_metadata
                   (Z.lor (wrap (Z.shiftl size 1)) (Z.b2z (GetIsAllocated s))) s) =
                 size mod (max_size + 1)).
  { unfold GetSize, GetSizeAndIsAllocated. cbn [metadata_ set_metadata].
    rewrite wrap_shiftl. assert (0 <= size mod (max_size + 1)) by word_arith.
    rewrite lor_flag by done. by apply packed_size. }
  split; [done|]. split.
  - intros Hmax. rewrite Hget. apply Z.mod_small. lia.
  - split; [|done]. unfold GetIsAllocated at 1, GetSizeAndIsAllocated.
    cbn [metadata_ set_metadata]. apply flag_packed.
Qed.

(** X2.  [SetAllocatedSize] and [SetInlinedSize] write the size together with
    the mode: the size is read back, and the storage is in heap mode
    after the former and inline after the latter, whatever it was. *)
Theorem SetAllocatedSize_SetInlinedSize size (s : state T) :
  0 <= size <= max_size ->
  exists s1 s0,
    SetAllocatedSize size @ s ==> Ret tt s1 /\
    GetSize s1 = size /\ GetIsAllocated s1 = true /\
    SetInlinedSize size @ s ==> Ret tt s0 /\
    GetSize s0 = size /\ GetIsAllocated s0 = false.
Proof.
  intros Hsize. pose proof max_size_bound as Hbound.
  assert (Hw : wrap (Z.shiftl size 1) = 2 * size)
    by (rewrite shiftl_1; apply wrap_small; lia).
  do 2 eexists. split; [reflexivity|].
  unfold GetSize, GetIsAllocated, GetSizeAndIsAllocated. cbn [metadata_ set_metadata].
  rewrite Hw. split.
  - pose proof (lor_flag size true ltac:(lia)) as Hl. cbn [Z.b2z] in Hl. rewrite Hl.
    apply (packed_size size true). lia.
  - split; [apply flag_set|]. split; [reflexivity|].
    cbn [metadata_ set_metadata]. rewrite Hw. split.
    + replace (2 * size) with (2 * size + Z.b2z false) by (simpl; lia).
      apply packed_size. lia.
    + replace (2 * size) with (2 * size + Z.b2z false) by (simpl; lia).
      apply packed_flag.
Qed.

(** X3.  [SetIsAllocated] and [UnsetIsAllocated] change the mode bit and keep
    the size; [UnsetIsAllocated] clears the bit whether or not it was
    set. *)
Theorem mode_setters_keep_size (s : state T) :
  0 <= metadata_ s < size_type_modulus ->
  exists s1 s0,
    SetIsAllocated @ s ==> Ret tt s1 /\
    GetSize s1 = GetSize s /\ GetIsAllocated s1 = true /\
    UnsetIsAllocated @ s ==> Ret tt s0 /\
    GetSize s0 = GetSize s /\ GetIsAllocated s0 = false.
Proof.
  intros Hm. do 2 eexists. split; [reflexivity|].
  unfold GetSize, GetIsAllocated, GetSizeAndIsAllocated. cbn [metadata_ set_metadata].
  assert (Hlor : Z.lor (metadata_ s) 1 = 2 * (metadata_ s / 2) + 1).
  { rewrite (word_halves (metadata_ s)) at 1 by lia.
    destruct (negb _).
    - apply lor_bit_set. apply Z.div_pos; lia.
    - simpl Z.b2z. rewrite Z.add_0_r.
      apply (lor_flag (metadata_ s / 2) true). apply Z.div_pos; lia. }
  split.
  - rewrite Hlor, !shiftr_1. Z.div_mod_to_equations; lia.
  - split; [apply flag_set|]. split; [reflexivity|].
    cbn [metadata_ set_metadata]. unfold GetSizeAndIsAllocated. cbn [metadata_ set_metadata].
    split; [|apply flag_unset].
    rewrite Hlor, !shiftr_1. word_arith.
Qed.

(** X4.  [AddSize] adds to the size and keeps the mode bit, as long as the
    sum is a size the word can hold. *)
Theorem AddSize_GetSize count (s : state T) :
  0 <= metadata_ s < size_type_modulus ->
  0 <= count ->
  GetSize s + count <= max_size ->
  exists s',
    AddSize count @ s ==> Ret tt s' /\
    GetSize s' = GetSize s + count /\
    GetIsAllocated s' = GetIsAllocated s.
Proof.
  intros Hm Hc Hsum. eexists. split; [reflexivity|].
  unfold GetSize, GetIsAllocated, GetSizeAndIsAllocated in *. cbn [metadata_ set_metadata].
  split; [|apply flag_add].
  rewrite ?shiftr_1, ?shiftl_1 in *. word_arith.
Qed.

(** X5.  [SubtractSize] takes a count off the size and keeps the mode bit; a
    count above the size fails its assertion. *)
Theorem SubtractSize_GetSize count (s : state T) :
  0 <= metadata_ s < size_type_modulus ->
  0 <= count ->
  if count <=? GetSize s
  then
    exists s',
      SubtractSize count @ s ==> Ret tt s' /\
      GetSize s' = GetSize s - count /\
      GetIsAllocated s' = GetIsAllocated s
  else SubtractSize count @ s ==> Undefined.
Proof.
  intros Hm Hc. unfold SubtractSize. rewrite bind_gets.
  destruct (Z.leb_spec count (GetSize s)) as [Hle|Hgt]; [|done].
  unfold assert. rewrite bind_pure. eexists. split; [reflexivity|].
  unfold GetSize, GetIsAllocated, GetSizeAndIsAllocated in *. cbn [metadata_ set_metadata].
  rewrite ?shiftr_1, ?shiftl_1 in *. split.
  - word_arith.
  - f_equal. f_equal. rewrite !land_1. word_arith.
Qed.

(** X6.  [SubtractSize] undoes [AddSize]: the metadata word, and with it the
    whole storage, is what it was. *)
Theorem AddSize_SubtractSize count (s : state T) :
  0 <= metadata_ s < size_type_modulus ->
  0 <= count ->
  GetSize s + count <= max_size ->
  (do _ <- AddSize count; SubtractSize count) @ s ==> Ret tt s.
Proof.
  intros Hm Hc Hsum. unfold AddSize, SubtractSize.
  rewrite bind_modify, bind_gets.
  assert (Hle : (count <=? GetSize (set_metadata
                   (wrap (GetSizeAndIsAllocated s + wrap (Z.shiftl count 1))) s)) = true).
  { apply Z.leb_le. unfold GetSize, GetSizeAndIsAllocated in *.
    cbn [metadata_ set_metadata]. rewrite ?shiftr_1, ?shiftl_1 in *. word_arith. }
  rewrite Hle. unfold assert. rewrite bind_pure. unfold modify. f_equal.
  unfold GetSizeAndIsAllocated. cbn [metadata_ set_metadata].
  unfold set_metadata. cbn [metadata_ data_ heap trace].
  destruct s as [m d h t]. cbn [metadata_ data_ heap trace] in *. f_equal.
  unfold GetSize, GetSizeAndIsAllocated in Hsum. cbn [metadata_] in Hsum.
  rewrite ?shiftr_1, ?shiftl_1 in *. word_arith.
Qed.

(** ** The element helpers *)

(** X7.  [DestroyElements] on [n] live elements destroys each of them once,
    in ascending order, and touches nothing else: the slots before and
    after them, the other buffers and the metadata word are as they
    were. *)
Theorem DestroyElements_destroys r o pre post vs (s : state T) :
  buffer_at r s = Some (pre ++ (Live <$> vs) ++ post) ->
  length pre = o ->
  exists s',
    DestroyElements (slot_ptr r o) (Z.of_nat (length vs)) @ s ==> Ret tt s' /\
    buffer_at r s' = Some (pre ++ replicate (length vs) Raw ++ post) /\
    trace s' = trace s ++ destroy_events (slot_ptr r o) 0 (length vs) /\
    metadata_ s' = metadata_ s /\
    forall r', r <> r' -> buffer_at r' s' = buffer_at r' s.
Proof.
  intros Hbuf Ho. eexists. split; [by eapply DestroyElements_spec|].
  split.
  { eapply buffer_at_written; [done|].
    intros Hz. apply nil_length_inv in Hz. by subst vs. }
  split; [apply trace_written; intros Hz; by rewrite Hz|].
  split; [apply metadata_written|].
  intros r' Hr. by apply buffer_at_written_ne.
Qed.

Section Helpers.
Context {A : Type} {VS : ValueSequence (T:=T) (E:=E) A}.

(** X8.  [ConstructElements] into [k] raw slots constructs all of them or
    none.  When no construction throws, the slots hold the next [k]
    values of the adapter, constructed in ascending order.  When
    construction [j] is the first to throw, the exception propagates and
    the slots are raw again: the [j] elements constructed before it were
    destroyed.  Either way the slots around them and the other buffers
    are untouched. *)
Theorem ConstructElements_all_or_nothing r o pre post k (values : A) (s : state T) :
  buffer_at r s = Some (pre ++ replicate k Raw ++ post) ->
  length pre = o ->
  exists s',
    match first_construct_throw values k with
    | None =>
        ConstructElements (slot_ptr r o) values (Z.of_nat k) @ s ==>
          Ret (advance_n values k) s' /\
        buffer_at r s' = Some (pre ++ (Live <$> adapter_values values k) ++ post) /\
        trace s' = trace s ++ construct_events (slot_ptr r o) 0 (adapter_values values k)
    | Some (j, e) =>
        ConstructElements (slot_ptr r o) values (Z.of_nat k) @ s ==> Throw e s' /\
        buffer_at r s' = Some (pre ++ replicate k Raw ++ post) /\
        trace s' = trace s ++ construct_events (slot_ptr r o) 0 (adapter_values values j) ++
                     destroy_events (slot_ptr r o) 0 j
    end /\
    metadata_ s' = metadata_ s /\
    forall r', r <> r' -> buffer_at r' s' = buffer_at r' s.
Proof.
  intros Hbuf Ho.
  destruct (first_construct_throw values k) as [[j e]|] eqn:Hf.
  - eexists. split; [split; [by eapply ConstructElements_sequence_throw|]|].
    + split; [|by destruct r]. rewrite buffer_at_log. by eapply buffer_at_set_buffer.
    + split; [by destruct r|].
      intros r' Hr. rewrite buffer_at_log. by apply buffer_at_set_buffer_ne.
  - eexists. split; [split; [by eapply ConstructElements_sequence_ret|]|].
    + split.
      * eapply buffer_at_written; [done|]. intros ->. done.
      * apply trace_written. intros ->. done.
    + split; [apply metadata_written|].
      intros r' Hr. by apply buffer_at_written_ne.
Qed.

(** X9.  [AssignElements] over [n] live elements gives them the next [n]
    values of the adapter.  It does not roll back: when assignment [j] is
    the first to throw, the elements before it keep their new values,
    element [j] is what the failed assignment left and the elements after
    it are untouched.  It constructs and destroys nothing. *)
Theorem AssignElements_overwrites r o pre post olds (values : A) (s : state T) :
  buffer_at r s = Some (pre ++ (Live <$> olds) ++ post) ->
  length pre = o ->
  exists s',
    match first_assign_throw values olds with
    | None =>
        AssignElements (slot_ptr r o) values (Z.of_nat (length olds)) @ s ==>
          Ret (advance_n values (length olds)) s' /\
        buffer_at r s' = Some (pre ++ (Live <$> adapter_values values (length olds)) ++ post)
    | Some (j, (e, rest)) =>
        AssignElements (slot_ptr r o) values (Z.of_nat (length olds)) @ s ==> Throw e s' /\
        buffer_at r s' =
          Some (pre ++ (Live <$> (adapter_values values j ++ rest :: drop (S j) olds)) ++ post)
    end /\
    trace s' = trace s /\
    metadata_ s' = metadata_ s /\
    forall r', r <> r' -> buffer_at r' s' = buffer_at r' s.
Proof.
  intros Hbuf Ho.
  pose proof (AssignElements_spec r o pre post olds (Z.of_nat (length olds)) values s
                Hbuf Ho eq_refl) as Hrun.
  destruct (first_assign_throw values olds) as [[j [e rest]]|] eqn:Hf.
  - eexists. split; [split; [exact Hrun|by eapply buffer_at_set_buffer]|].
    split; [by destruct r|]. split; [by destruct r|].
    intros r' Hr. by apply buffer_at_set_buffer_ne.
  - eexists. split; [split; [exact Hrun|]|].
    + eapply buffer_at_written; [done|].
      intros Hz. apply nil_length_inv in Hz. by subst olds.
    + split; [rewrite trace_written by done; apply app_nil_r|].
      split; [apply metadata_written|].
      intros r' Hr. by apply buffer_at_written_ne.
Qed.

End Helpers.

(** ** The allocation transaction *)

(** X10.  A transaction that allocated and goes out of scope without being
    acquired gives its block back: one [allocate] and one [deallocate]
    with the same pointer and capacity, no block left live, the storage
    untouched. *)
Theorem AllocationTransaction_gives_back capacity (s : state T) :
  0 <= capacity ->
  allocate_throws (trace s) capacity = None ->
  let p := slot_ptr (heap_block (length (heap s))) 0 in
  exists tx s1 s2,
    Allocate new_AllocationTransaction capacity @ s ==> Ret (p, tx) s1 /\
    DidAllocate tx = true /\
    delete_AllocationTransaction tx @ s1 ==> Ret tt s2 /\
    heap s2 = heap s ++ [None] /\
    trace s2 = trace s ++ [EvAllocate p capacity; EvDeallocate p capacity] /\
    metadata_ s2 = metadata_ s /\ data_ s2 = data_ s.
Proof.
  intros Hc Ha p. do 3 eexists. split.
  { unfold Allocate. erewrite bind_ret by (by apply allocate_ok). reflexivity. }
  split; [done|]. split.
  { unfold delete_AllocationTransaction. change (DidAllocate _) with true.
    cbv iota. cbn [alloc_data_ capacity_].
    eapply deallocate_ok.
    - cbn [heap log set_heap]. apply lookup_fresh.
    - rewrite length_replicate. lia.
    - apply forallb_replicate_raw. }
  cbn [heap trace metadata_ data_ log set_heap].
  split; [apply insert_fresh|]. split; [by rewrite <- app_assoc|done].
Qed.

(** X11.  [AcquireAllocation] hands the block of a transaction over to the
    storage: the union holds its pointer and capacity, the transaction no
    longer owns it, and its destructor then leaves the block alone. *)
Theorem AcquireAllocation_hands_over capacity (s : state T) :
  allocate_throws (trace s) capacity = None ->
  let p := slot_ptr (heap_block (length (heap s))) 0 in
  exists tx tx' s1 s2,
    Allocate new_AllocationTransaction capacity @ s ==> Ret (p, tx) s1 /\
    AcquireAllocation tx @ s1 ==> Ret tx' s2 /\
    DidAllocate tx' = false /\
    delete_AllocationTransaction tx' @ s2 ==> Ret tt s2 /\
    data_ s2 = allocated p capacity /\
    metadata_ s2 = metadata_ s /\
    heap s2 = heap s ++ [Some (replicate (Z.to_nat capacity) Raw)] /\
    trace s2 = trace s ++ [EvAllocate p capacity].
Proof.
  intros Ha p. do 4 eexists. split.
  { unfold Allocate. erewrite bind_ret by (by apply allocate_ok). reflexivity. }
  split; [reflexivity|]. split; [done|]. split; [done|]. done.
Qed.

(** ** The view and the destructor of a storage *)

(** X12.  [MakeStorageView] of a well-formed storage: the arena and the inline
    capacity [N] for an inline storage, the block and its capacity for a
    heap storage, with the number of elements as the size, which is
    within the capacity.  The call changes nothing. *)
Theorem MakeStorageView_of_storage m vs (s : state T) :
  Stores s m vs ->
  exists sv,
    MakeStorageView @ s ==> Ret sv s /\
    data sv = match m with
              | Inline => GetInlinedData
              | Heap b _ => slot_ptr (heap_block b) 0
              end /\
    capacity sv = match m with Inline => Z.of_nat N | Heap _ cap => cap end /\
    size sv = Z.of_nat (length vs) /\
    0 <= size sv <= capacity sv.
Proof.
  intros Hs. eexists. split; [by apply MakeStorageView_Stores|].
  cbn [data size capacity].
  destruct Hs as (_ & Hcap & _). destruct m; simpl in *; repeat split; try done; lia.
Qed.

Lemma DestroyAndDeallocate_run m vs (s : state T) :
  Stores s m vs ->
  exists s',
    DestroyAndDeallocate @ s ==> Ret tt s' /\
    trace s' = trace s ++ destroy_events (data_of m) 0 (length vs) ++
                 match m with
                 | Inline => []
                 | Heap b cap => [EvDeallocate (slot_ptr (heap_block b) 0) cap]
                 end /\
    heap s' = match m with
              | Inline => heap s
              | Heap b _ => <[b := None]> (heap s)
              end /\
    buffer_at inlined_arena s' = Some (replicate N Raw) /\
    metadata_ s' = metadata_ s.
Proof.
  intros Hs. destruct m as [|b cap].
  - pose proof (Stores_flag _ _ _ Hs) as Hflag. pose proof (Stores_size _ _ _ Hs) as Hsize.
    destruct Hs as (_ & Hcap & Hbuf & Hmeta). simpl in Hflag, Hcap, Hbuf.
    unfold DestroyAndDeallocate. rewrite bind_gets, Hflag, bind_pure, bind_gets, Hsize.
    erewrite bind_ret.
    2: { eapply (DestroyElements_spec inlined_arena 0 [] _ vs); [exact Hbuf | done | done]. }
    unfold DeallocateIfAllocated. rewrite bind_gets, GetIsAllocated_written, Hflag.
    eexists. split; [reflexivity|].
    split; [rewrite app_nil_r; apply trace_written; intros Hz; by rewrite Hz|].
    split; [by destruct (length vs)|].
    split; [|apply metadata_written].
    erewrite buffer_at_written; [| exact Hbuf |].
    + simpl. f_equal. rewrite <- replicate_add. f_equal. lia.
    + intros Hz. apply nil_length_inv in Hz. by subst vs.
  - destruct (DestroyAndDeallocate_heap b cap vs s Hs) as (s' & Hrun & Hm & Hd & Hh & Ht).
    exists s'. split; [done|]. split; [done|]. split; [done|]. split; [|done].
    destruct Hs as (_ & _ & _ & _ & Hdata). simpl. by rewrite Hd, Hdata.
Qed.

(** X13.  [DestroyAndDeallocate], the body of the destructor, on a well-formed
    storage: it destroys every element, in ascending order, and gives
    the block of a heap storage back with the capacity it was allocated
    with; an inline storage makes no call to the allocator but [destroy].
    The metadata word is left as it was. *)
Theorem DestroyAndDeallocate_releases m vs (s : state T) :
  Stores s m vs ->
  exists s',
    DestroyAndDeallocate @ s ==> Ret tt s' /\
    trace s' = trace s ++ destroy_events (data_of m) 0 (length vs) ++
                 match m with
                 | Inline => []
                 | Heap b cap => [EvDeallocate (slot_ptr (heap_block b) 0) cap]
                 end /\
    buffer_at (region_of m) s' =
      match m with
      | Inline => Some (replicate N Raw)
      | Heap _ _ => None
      end /\
    (forall b', region_of m <> heap_block b' -> heap s' !! b' = heap s !! b') /\
    metadata_ s' = metadata_ s.
Proof.
  intros Hs.
  destruct (DestroyAndDeallocate_run m vs s Hs) as (s' & Hrun & Ht & Hh & Ha & Hm).
  exists s'. split; [done|]. split; [done|].
  destruct m as [|b cap].
  - split; [done|]. split; [|done]. intros b' _. by rewrite Hh.
  - destruct Hs as (_ & _ & Hbuf & _). simpl in Hbuf. apply heap_lookup_buffer in Hbuf.
    split.
    { simpl. rewrite Hh, list_lookup_insert_eq by (by eapply lookup_lt_Some). done. }
    split; [|done]. intros b' Hr.
    assert (b <> b') by (intros ->; by apply Hr).
    rewrite Hh. by rewrite list_lookup_insert_ne.
Qed.

(** ** When the allocator fails *)

Lemma allocate_fails n e (s : state T) :
  allocate_throws (trace s) n = Some e -> allocate n @ s ==> Throw e s.
Proof. intros Ha. unfold allocate. by rewrite Ha. Qed.

Lemma Initialize_allocate_throws {A} `{ValueAdapter (T:=T) (E:=E) A}
    (values : A) (new_size : Z) e (s : state T) :
  Stores s Inline [] ->
  Z.of_nat N < new_size ->
  allocate_throws (trace s) new_size = Some e ->
  Initialize values new_size @ s ==> Throw e s.
Proof.
  intros Hs Hn Ha.
  pose proof (Stores_flag _ _ _ Hs) as Hflag. pose proof (Stores_size _ _ _ Hs) as Hsize.
  simpl in Hflag, Hsize. unfold Initialize.
  rewrite bind_gets, Hflag. simpl negb. unfold assert at 1. rewrite bind_pure.
  rewrite bind_gets, Hsize. simpl Z.eqb. unfold assert at 1. rewrite bind_pure.
  rewrite static_cast_N, (proj2 (Z.ltb_lt _ _)) by lia.
  rewrite !bind_bind. by erewrite bind_throw by (by apply allocate_fails).
Qed.

(** X14.  When [allocate] throws in [Initialize], the exception propagates and
    the storage is as it was: nothing has been constructed, for any
    adapter. *)
Theorem Initialize_allocation_failure {A} `{ValueAdapter (T:=T) (E:=E) A}
    (values : A) (new_size : Z) e (s : state T) :
  Stores s Inline [] ->
  Z.of_nat N < new_size ->
  allocate_throws (trace s) new_size = Some e ->
  Initialize values new_size @ s ==> Throw e s.
Proof. apply Initialize_allocate_throws. Qed.

Lemma Assign_allocate_throws {A} `{ValueAdapter (T:=T) (E:=E) A}
    (values : A) (new_size : Z) e m vs (s : state T) :
  Stores s m vs ->
  capacity_of m < new_size ->
  allocate_throws (trace s) new_size = Some e ->
  Assign values new_size @ s ==> Throw e s.
Proof.
  intros Hs Hn Ha. unfold Assign.
  erewrite bind_ret by (by eapply MakeStorageView_Stores).
  cbv zeta. cbn [capacity size data].
  rewrite (proj2 (Z.ltb_lt _ _)) by lia.
  unfold Allocate. rewrite !bind_bind.
  by erewrite bind_throw by (by apply allocate_fails).
Qed.

(** X15.  When [allocate] throws in [Assign] beyond the capacity, the
    exception propagates and the storage is as it was: no element has
    been assigned, constructed or destroyed, for any adapter. *)
Theorem Assign_allocation_failure {A} `{ValueAdapter (T:=T) (E:=E) A}
    (values : A) (new_size : Z) e m vs (s : state T) :
  Stores s m vs ->
  capacity_of m < new_size ->
  allocate_throws (trace s) new_size = Some e ->
  Assign values new_size @ s ==> Throw e s.
Proof. apply Assign_allocate_throws. Qed.

Lemma ShrinkToFit_allocate_throws b cap vs e (s : state T) :
  Stores s (Heap b cap) vs ->
  (N < length vs)%nat ->
  Z.of_nat (length vs) < cap ->
  allocate_throws (trace s) (Z.of_nat (length vs)) = Some e ->
  ShrinkToFit @ s ==> Throw e s.
Proof.
  intros Hs HN Hlt Ha.
  pose proof (Stores_flag _ _ _ Hs) as Hflag. pose proof (Stores_size _ _ _ Hs) as Hsize.
  destruct Hs as (Hmax & Hcap & Hbuf & Hmeta & Hdata). simpl in Hflag.
  unfold ShrinkToFit.
  rewrite bind_gets, Hflag. unfold assert at 1. rewrite bind_pure.
  erewrite bind_ret by (by eapply GetAllocatedData_run).
  rewrite bind_gets, Hsize.
  erewrite bind_ret by (by eapply GetAllocatedCapacity_run).
  cbv zeta. cbn [data size capacity]. rewrite static_cast_N.
  rewrite (proj2 (Z.leb_gt _ _)) by lia.
  rewrite !bind_bind.
  erewrite bind_ret by (by eapply GetAllocatedCapacity_run).
  rewrite (proj2 (Z.ltb_lt _ _)) by lia.
  unfold Allocate. rewrite !bind_bind.
  by erewrite bind_throw by (by apply allocate_fails).
Qed.

(** X16.  When [allocate] throws in [ShrinkToFit], the exception propagates
    and the storage is as it was: no element has been moved. *)
Theorem ShrinkToFit_allocation_failure b cap vs e (s : state T) :
  Stores s (Heap b cap) vs ->
  (N < length vs)%nat ->
  Z.of_nat (length vs) < cap ->
  allocate_throws (trace s) (Z.of_nat (length vs)) = Some e ->
  ShrinkToFit @ s ==> Throw e s.
Proof. apply ShrinkToFit_allocate_throws. Qed.

(** ** Edge cases of [Initialize] *)

(** X17.  [Initialize] to no element returns with the storage exactly as it
    was, without calling the adapter or the allocator. *)
Theorem Initialize_nothing {A} `{ValueAdapter (T:=T) (E:=E) A} (values : A) (s : state T) :
  Stores s Inline [] ->
  Initialize values 0 @ s ==> Ret tt s.
Proof.
  intros Hs.
  pose proof (Stores_flag _ _ _ Hs) as Hflag. pose proof (Stores_size _ _ _ Hs) as Hsize.
  destruct Hs as (_ & _ & _ & Hmeta).
  simpl in Hflag, Hsize, Hmeta. unfold Initialize.
  rewrite bind_gets, Hflag. simpl negb. unfold assert at 1. rewrite bind_pure.
  rewrite bind_gets, Hsize. simpl Z.eqb. unfold assert at 1. rewrite bind_pure.
  rewrite static_cast_N, (proj2 (Z.ltb_ge _ _)) by lia.
  rewrite bind_pure.
  erewrite bind_ret by (by apply ConstructElements_zero).
  unfold AddSize, modify. f_equal. apply same_metadata.
  unfold GetSizeAndIsAllocated. by rewrite Hmeta.
Qed.

(** ** [Assign] within the capacity *)

Section WithinCapacity.
Context {A : Type} {VS : ValueSequence (T:=T) (E:=E) A}.

Lemma Stores_set_buffer m vs vs' (s : state T) :
  Stores s m vs ->
  length vs' = length vs ->
  Stores (set_buffer (region_of m) (holds vs' (Z.to_nat (capacity_of m))) s) m vs'.
Proof.
  intros (Hmax & Hcap & Hbuf & Hrest) Hlen. unfold Stores. rewrite Hlen.
  split; [done|]. split; [done|]. split; [by eapply buffer_at_set_buffer|].
  by destruct m.
Qed.

Lemma Stores_log evs m vs (s : state T) : Stores s m vs -> Stores (log evs s) m vs.
Proof. intros (Hmax & Hcap & Hbuf & Hrest). unfold Stores. by rewrite buffer_at_log. Qed.

Lemma length_assigned_prefix (values : A) j rest (vs : list T) :
  (j < length vs)%nat ->
  length (adapter_values values j ++ rest :: drop (S j) vs) = length vs.
Proof.
  intros Hj. rewrite length_app, length_adapter_values. simpl. rewrite length_drop. lia.
Qed.

Lemma Assign_within_assign_throw (values : A) (n : Z) m vs j e rest (s : state T) :
  Stores s m vs ->
  0 <= n <= capacity_of m ->
  n < size_type_modulus ->
  first_assign_throw values (take (Z.to_nat n) vs) = Some (j, (e, rest)) ->
  Assign values n @ s ==>
    Throw e
      (set_buffer (region_of m)
         (holds (adapter_values values j ++ rest :: drop (S j) vs) (Z.to_nat (capacity_of m)))
         s).
Proof.
  intros Hs Hn Hmod Hf.
  destruct (Z.ltb_spec (Z.of_nat (length vs)) n) as [Hext|Hshr].
  - rewrite take_ge in Hf by lia.
    pose proof (Assign_extend values n m vs s Hs ltac:(lia) Hmod) as Hrun.
    cbv zeta in Hrun. by rewrite Hf in Hrun.
  - pose proof (Assign_shrink values n m vs s Hs ltac:(lia)) as Hrun.
    cbv zeta in Hrun. by rewrite Hf in Hrun.
Qed.

Lemma Assign_within_ret (values : A) (n : Z) m vs (s : state T) :
  Stores s m vs ->
  0 <= n <= capacity_of m ->
  n <= max_size ->
  first_assign_throw values (take (Z.to_nat n) vs) = None ->
  first_construct_throw (advance_n values (length vs)) (Z.to_nat n - length vs) = None ->
  exists s',
    Assign values n @ s ==> Ret tt s' /\
    Stores s' m (adapter_values values (Z.to_nat n)).
Proof.
  intros Hs Hn Hmax Hfa Hfc.
  pose proof (Stores_flag _ _ _ Hs) as Hflag.
  pose proof (Stores_capacity _ _ _ Hs) as Hlen.
  pose proof max_size_bound as Hbound.
  assert (Hmeta : Z.lor (wrap (Z.shiftl n 1)) (Z.b2z (GetIsAllocated s)) =
                  2 * n + Z.b2z (GetIsAllocated s)).
  { rewrite shiftl_1, wrap_small by lia. apply lor_flag. lia. }
  assert (Hstores : forall s',
            metadata_ s' = 2 * n + Z.b2z (GetIsAllocated s) ->
            (region_of m <> inlined_arena -> data_ s' = data_ s) ->
            buffer_at (region_of m) s' =
              Some (holds (adapter_values values (Z.to_nat n))
                      (Z.to_nat (capacity_of m))) ->
            Stores s' m (adapter_values values (Z.to_nat n))).
  { intros s' Hm' Hd' Hb'. unfold Stores. rewrite length_adapter_values.
    split; [lia|]. split; [lia|]. split; [done|].
    rewrite Hm', Hflag. destruct Hs as (_ & _ & _ & Hrest).
    destruct m as [|b cap]; simpl.
    - lia.
    - split; [lia|]. rewrite Hd' by done. apply Hrest. }
  destruct (Z.ltb_spec (Z.of_nat (length vs)) n) as [Hext|Hshr].
  - rewrite take_ge in Hfa by lia.
    pose proof (Assign_extend values n m vs s Hs ltac:(lia) ltac:(lia)) as Hrun.
    cbv zeta in Hrun. rewrite Hfa, Hfc in Hrun.
    eexists. split; [exact Hrun|]. apply Hstores.
    + done.
    + intros Hr. destruct m; done.
    + change (buffer_at ?r (set_metadata ?z (log ?evs ?s0))) with (buffer_at r s0).
      eapply buffer_at_set_buffer. by destruct Hs as (_ & _ & ? & _).
  - pose proof (Assign_shrink values n m vs s Hs ltac:(lia)) as Hrun.
    cbv zeta in Hrun. rewrite Hfa in Hrun.
    eexists. split; [exact Hrun|]. apply Hstores.
    + done.
    + intros Hr. destruct m as [|b cap]; [done|]. simpl. apply data_written_heap.
    + change (buffer_at ?r (set_metadata ?z ?s0)) with (buffer_at r s0).
      eapply buffer_at_written; [by destruct Hs as (_ & _ & ? & _)|].
      intros Hz. apply nil_length_inv in Hz. subst vs.
      replace (Z.to_nat n) with O by (simpl in *; lia). done.
Qed.

Lemma Assign_within_construct_throw (values : A) (n : Z) m vs j e (s : state T) :
  Stores s m vs ->
  Z.of_nat (length vs) < n <= capacity_of m ->
  n < size_type_modulus ->
  first_assign_throw values vs = None ->
  first_construct_throw (advance_n values (length vs)) (Z.to_nat n - length vs) = Some (j, e) ->
  Assign values n @ s ==>
    Throw e
      (log (construct_events (slot_ptr (region_of m) (length vs)) 0
              (adapter_values (advance_n values (length vs)) j) ++
            destroy_events (slot_ptr (region_of m) (length vs)) 0 j)
         (set_buffer (region_of m)
            (holds (adapter_values values (length vs)) (Z.to_nat (capacity_of m))) s)).
Proof.
  intros Hs Hn Hmod Hfa Hfc.
  pose proof (Assign_extend values n m vs s Hs Hn Hmod) as Hrun.
  cbv zeta in Hrun. by rewrite Hfa, Hfc in Hrun.
Qed.

(** X18.  [Assign] within the capacity gives the basic guarantee only.  When
    the assignment over element [j] is the first to throw, the exception
    propagates with the size, the mode and the buffer as they were, and
    the storage well formed, but its elements changed: those before [j]
    have their new values, element [j] is what the failed assignment
    left, those after it are the old ones.  Nothing was constructed,
    destroyed, allocated or given back. *)
Theorem Assign_assignment_throws (values : A) (new_size : Z) m vs j e rest (s : state T) :
  Stores s m vs ->
  0 <= new_size <= capacity_of m ->
  new_size < size_type_modulus ->
  first_assign_throw values (take (Z.to_nat new_size) vs) = Some (j, (e, rest)) ->
  exists s',
    Assign values new_size @ s ==> Throw e s' /\
    metadata_ s' = metadata_ s /\
    Stores s' m (adapter_values values j ++ rest :: drop (S j) vs) /\
    trace s' = trace s /\
    length (heap s') = length (heap s).
Proof.
  intros Hs Hn Hmod Hf. eexists.
  split; [by apply Assign_within_assign_throw|].
  split; [by destruct m|]. split.
  { eapply Stores_set_buffer; [exact Hs|]. apply length_assigned_prefix.
    apply first_assign_throw_lt in Hf. rewrite length_take in Hf. lia. }
  destruct m as [|b cap]; simpl; [done|].
  split; [done|]. by rewrite length_insert.
Qed.

(** X19.  When the assignments return and construction [j] of the new
    elements past the old size is the first to throw, [Assign] within
    the capacity propagates the exception with the size, the mode and
    the buffer as they were: the new elements constructed before it have
    been destroyed, and the old elements all have their new values. *)
Theorem Assign_construction_throws (values : A) (new_size : Z) m vs j e (s : state T) :
  Stores s m vs ->
  Z.of_nat (length vs) < new_size <= capacity_of m ->
  new_size < size_type_modulus ->
  first_assign_throw values vs = None ->
  first_construct_throw (advance_n values (length vs)) (Z.to_nat new_size - length vs) =
    Some (j, e) ->
  let first := slot_ptr (region_of m) (length vs) in
  exists s',
    Assign values new_size @ s ==> Throw e s' /\
    metadata_ s' = metadata_ s /\
    Stores s' m (adapter_values values (length vs)) /\
    trace s' = trace s ++
                 construct_events first 0 (adapter_values (advance_n values (length vs)) j) ++
                 destroy_events first 0 j /\
    length (heap s') = length (heap s).
Proof.
  intros Hs Hn Hmod Hfa Hfc first. eexists.
  split; [by apply Assign_within_construct_throw|].
  split; [by destruct m|]. split.
  { apply Stores_log. eapply Stores_set_buffer; [exact Hs|]. apply length_adapter_values. }
  destruct m as [|b cap]; simpl; [done|].
  split; [done|]. by rewrite length_insert.
Qed.

Lemma Assign_grow_run (values : A) (n : Z) m vs (s : state T) :
  Stores s m vs ->
  capacity_of m < n ->
  n <= max_size ->
  allocate_throws (trace s) n = None ->
  first_construct_throw values (Z.to_nat n) = None ->
  let p := slot_ptr (heap_block (length (heap s))) 0 in
  exists s',
    Assign values n @ s ==> Ret tt s' /\
    Stores s' (Heap (length (heap s)) n) (adapter_values values (Z.to_nat n)) /\
    buffer_at (region_of m) s' =
      match m with
      | Inline => Some (replicate N Raw)
      | Heap _ _ => None
      end /\
    trace s' = trace s ++ [EvAllocate p n] ++
                 construct_events p 0 (adapter_values values (Z.to_nat n)) ++
                 destroy_events (data_of m) 0 (length vs) ++
                 match m with
                 | Inline => []
                 | Heap b cap => [EvDeallocate (slot_ptr (heap_block b) 0) cap]
                 end.
Proof.
  intros Hs Hcap Hmax Ha Hf p.
  pose proof (Stores_capacity _ _ _ Hs) as Hlen.
  pose proof (Stores_region_live _ _ _ Hs) as Hne.
  assert (Hn : 0 < n) by (destruct Hs as (_ & ? & _); lia).
  unfold Assign.
  erewrite bind_ret by (by eapply MakeStorageView_Stores).
  cbv zeta. cbn [capacity size data].
  rewrite (proj2 (Z.ltb_lt _ _)) by lia.
  unfold Allocate. rewrite !bind_bind.
  erewrite bind_ret by (by apply allocate_ok).
  rewrite !bind_pure. cbv beta iota. cbn [span_data span_size empty_span].
  set (b' := length (heap s)) in *. fold p.
  set (s1 := log _ _).
  set (vals := adapter_values values (Z.to_nat n)).
  assert (Hb1 : heap s1 !! b' = Some (Some (replicate (Z.to_nat n) Raw))).
  { apply lookup_fresh. }
  assert (Hold1 : buffer_at (region_of m) s1 =
                  Some (holds vs (Z.to_nat (capacity_of m)))).
  { destruct Hs as (_ & _ & Hbuf & _). destruct m as [|b cap]; [done|].
    simpl in *. destruct (heap s !! b) as [o|] eqn:Hb; [|done].
    by erewrite lookup_app_l_Some. }
  set (s2 := log (construct_events p 0 vals) (set_buffer (heap_block b') (Live <$> vals) s1)).
  set (s3 := written (length vs) (region_of m)
               (replicate (Z.to_nat (capacity_of m)) Raw)
               (destroy_events (data_of m) 0 (length vs)) s2).
  erewrite bind_ret.
  2: { erewrite catch_ret; [done|].
       erewrite bind_ret by (by apply AssignElements_none).
       erewrite bind_ret.
       2: { eapply (ConstructElements_sequence_ret (heap_block b') 0 [] [] (Z.to_nat n));
              [ | done | lia | done].
            simpl app. rewrite app_nil_r. by apply heap_lookup_buffer. }
       simpl app. rewrite app_nil_r, written_pos by lia. fold vals p s2.
       erewrite (DestroyElements_spec (region_of m) 0 [] _ vs); [ | | done | done].
       - simpl app. rewrite <- replicate_add.
         replace (length vs + (Z.to_nat (capacity_of m) - length vs))%nat
           with (Z.to_nat (capacity_of m)) by lia.
         done.
       - unfold s2. rewrite buffer_at_log, buffer_at_set_buffer_ne by done. exact Hold1. }
  change (DidAllocate _) with true. cbv iota.
  assert (Hb3 : buffer_at (region_of m) s3 = Some (replicate (Z.to_nat (capacity_of m)) Raw)).
  { unfold s3. eapply buffer_at_written.
    - unfold s2. rewrite buffer_at_log, buffer_at_set_buffer_ne by done. exact Hold1.
    - intros Hz. apply nil_length_inv in Hz. subst vs. by rewrite holds_nil. }
  assert (Ht3 : trace s3 = trace s ++ [EvAllocate p n] ++ construct_events p 0 vals ++
                             destroy_events (data_of m) 0 (length vs)).
  { unfold s3. rewrite trace_written by (intros Hz; by rewrite Hz).
    unfold s2, s1. cbn [trace log set_buffer set_heap]. by rewrite <- !app_assoc. }
  rewrite !bind_bind.
  erewrite bind_ret.
  2: { eapply (DeallocateIfAllocated_raw m vs s s3 Hs); [| | exact Hb3].
       - unfold s3. by rewrite metadata_written.
       - intros Hr. destruct m as [|b cap]; [done|]. unfold s3. simpl region_of.
         by rewrite data_written_heap. }
  set (s4 := match m with Inline => s3 | Heap b cap => _ end).
  unfold AcquireAllocation, SetAllocatedData. rewrite !bind_bind, bind_modify, !bind_pure.
  cbn [alloc_data_ capacity_].
  rewrite !bind_bind. unfold SetIsAllocated at 1. rewrite bind_modify, bind_pure.
  unfold SetSize. rewrite bind_modify.
  eexists. split; [done|].
  assert (Hlv : length vals = Z.to_nat n) by apply length_adapter_values.
  split; [|split].
  - unfold Stores. rewrite Hlv. simpl capacity_of. simpl region_of.
    split; [lia|]. split; [lia|]. split; [|split].
    + rewrite holds_full by done.
      change (buffer_at (heap_block b') (set_metadata ?z (set_metadata ?z' (set_data ?d ?s))))
        with (buffer_at (heap_block b') s).
      assert (Hb3' : buffer_at (heap_block b') s3 = Some (Live <$> vals)).
      { unfold s3. rewrite buffer_at_written_ne by done.
        unfold s2. rewrite buffer_at_log. eapply buffer_at_set_buffer.
        by apply heap_lookup_buffer. }
      unfold s4. destruct m as [|b cap]; [done|].
      simpl in Hne. simpl. rewrite list_lookup_insert_ne by congruence. exact Hb3'.
    + simpl. unfold GetIsAllocated, GetSizeAndIsAllocated. simpl.
      rewrite flag_set, shiftl_1, wrap_small by (pose proof max_size_bound; lia).
      rewrite (lor_flag n true) by lia. simpl. lia.
    + done.
  - unfold s4. destruct m as [|b cap]; [done|]. simpl.
    rewrite list_lookup_insert_eq; [done|].
    apply heap_lookup_buffer in Hb3. by eapply lookup_lt_Some.
  - cbn [trace set_metadata set_data]. unfold s4. destruct m as [|b cap].
    + by rewrite Ht3, app_nil_r.
    + cbn [trace log set_heap]. rewrite Ht3. by rewrite <- !app_assoc.
Qed.

(** X20.  [Assign] beyond the capacity that does not throw constructs all the
    new elements in the fresh block first, then destroys the old
    elements, and then gives the block of a heap storage back with the
    capacity it had: one [allocate], and for a heap storage one
    [deallocate].  The old buffer holds no live element afterwards. *)
Theorem Assign_grow_releases_old_buffer (values : A) (new_size : Z) m vs (s : state T) :
  Stores s m vs ->
  capacity_of m < new_size ->
  new_size <= max_size ->
  allocate_throws (trace s) new_size = None ->
  first_construct_throw values (Z.to_nat new_size) = None ->
  let fresh := slot_ptr (heap_block (length (heap s))) 0 in
  exists s',
    Assign values new_size @ s ==> Ret tt s' /\
    trace s' = trace s ++ [EvAllocate fresh new_size] ++
                 construct_events fresh 0 (adapter_values values (Z.to_nat new_size)) ++
                 destroy_events (data_of m) 0 (length vs) ++
                 match m with
                 | Inline => []
                 | Heap b cap => [EvDeallocate (slot_ptr (heap_block b) 0) cap]
                 end /\
    buffer_at (region_of m) s' =
      match m with
      | Inline => Some (replicate N Raw)
      | Heap _ _ => None
      end /\
    allocation_calls (trace s') =
      allocation_calls (trace s) ++ [EvAllocate fresh new_size] ++
        match m with
        | Inline => []
        | Heap b cap => [EvDeallocate (slot_ptr (heap_block b) 0) cap]
        end.
Proof.
  intros Hs Hcap Hmax Ha Hf fresh.
  destruct (Assign_grow_run values new_size m vs s Hs Hcap Hmax Ha Hf)
    as (s' & Hrun & _ & Hbuf & Ht).
  exists s'. split; [done|]. split; [done|]. split; [done|].
  rewrite Ht, !allocation_calls_app, allocation_calls_construct, allocation_calls_destroy.
  by destruct m.
Qed.


End WithinCapacity.

(** ** [ShrinkToFit] on every path *)

Lemma ShrinkToFit_to_block b cap vs (s : state T) :
  Stores s (Heap b cap) vs ->
  (N < length vs)%nat ->
  Z.of_nat (length vs) < cap ->
  allocate_throws (trace s) (Z.of_nat (length vs)) = None ->
  first_move_throw vs = None ->
  let b' := length (heap s) in
  let p' := slot_ptr (heap_block b') 0 in
  exists s',
    ShrinkToFit @ s ==> Ret tt s' /\
    Stores s' (Heap b' (Z.of_nat (length vs))) vs /\
    heap s' = <[b := None]> (heap s) ++ [Some (Live <$> vs)] /\
    trace s' = trace s ++ [EvAllocate p' (Z.of_nat (length vs))] ++
                 construct_events p' 0 vs ++
                 destroy_events (slot_ptr (heap_block b) 0) 0 (length vs) ++
                 [EvDeallocate (slot_ptr (heap_block b) 0) cap].
Proof.
  intros Hs HN Hlt Ha Hf b' p'.
  pose proof (Stores_flag _ _ _ Hs) as Hflag. pose proof (Stores_size _ _ _ Hs) as Hsize.
  pose proof (Stores_capacity _ _ _ Hs) as Hlen.
  destruct Hs as (Hmax & Hcap & Hbuf & Hmeta & Hdata).
  simpl in Hflag, Hcap, Hbuf, Hlen.
  set (raws := replicate (Z.to_nat cap - length vs) (@Raw T)) in *.
  unfold ShrinkToFit.
  rewrite bind_gets, Hflag. unfold assert at 1. rewrite bind_pure.
  erewrite bind_ret by (by eapply GetAllocatedData_run).
  rewrite bind_gets, Hsize.
  erewrite bind_ret by (by eapply GetAllocatedCapacity_run).
  cbv zeta. cbn [data size capacity]. rewrite static_cast_N.
  rewrite (proj2 (Z.leb_gt _ _)) by lia.
  rewrite !bind_bind.
  erewrite bind_ret by (by eapply GetAllocatedCapacity_run).
  rewrite (proj2 (Z.ltb_lt _ _)) by lia.
  unfold Allocate. rewrite !bind_bind.
  erewrite bind_ret by (by apply allocate_ok).
  rewrite !bind_pure. cbv iota beta.
  fold b' p'. set (s1 := log _ _).
  assert (Hbb : (b < b')%nat).
  { apply heap_lookup_buffer in Hbuf. by eapply lookup_lt_Some. }
  assert (Hsrc1 : buffer_at (heap_block b) s1 = Some ((Live <$> vs) ++ raws)).
  { apply heap_lookup_buffer. unfold s1. simpl.
    apply heap_lookup_buffer in Hbuf. by erewrite lookup_app_l_Some. }
  assert (Hdst1 : buffer_at (heap_block b') s1 = Some (replicate (length vs) Raw ++ [])).
  { apply heap_lookup_buffer. unfold s1, b'. simpl.
    rewrite lookup_fresh, app_nil_r. by rewrite Nat2Z.id. }
  assert (Hne : heap_block b' <> heap_block b) by (intros [= ?]; lia).
  set (s0 := written (length vs) (heap_block b') ((Live <$> vs) ++ [])
               (construct_events p' 0 vs) s1).
  set (s2 := set_buffer (heap_block b) ((Live <$> (moved_from <$> vs)) ++ raws) s0).
  erewrite bind_ret.
  2: { erewrite catch_ret; [done|]. erewrite catch_ret; [done|].
       by eapply (ConstructElements_move_ret b (heap_block b') vs raws []). }
  fold s0 s2.
  assert (Hb0 : heap s0 !! b = Some (Some ((Live <$> vs) ++ raws))).
  { apply heap_lookup_buffer. unfold s0. by rewrite buffer_at_written_ne. }
  erewrite bind_ret.
  2: { eapply (DestroyElements_spec (heap_block b) 0 [] raws (moved_from <$> vs)).
       - unfold s2. by eapply buffer_at_set_buffer, heap_lookup_buffer.
       - done.
       - by rewrite length_fmap. }
  rewrite length_fmap. simpl app.
  erewrite written_heap.
  2: { unfold s2. simpl. apply list_lookup_insert_eq. by eapply lookup_lt_Some. }
  2: { intros Hz. apply nil_length_inv in Hz. by subst vs. }
  unfold s2. rewrite set_buffer_set_buffer.
  set (s3 := log _ _).
  erewrite bind_ret.
  2: { eapply deallocate_ok.
       - unfold s3. simpl. apply list_lookup_insert_eq. by eapply lookup_lt_Some.
       - unfold raws. rewrite length_app, !length_replicate. lia.
       - unfold raws. by rewrite forallb_app, !forallb_replicate_raw. }
  change (DidAllocate _) with true. cbv iota.
  unfold AcquireAllocation, SetAllocatedData. rewrite !bind_bind, bind_modify, !bind_pure.
  cbn [alloc_data_ capacity_].
  rewrite delete_empty_transaction.
  assert (Hheap0 : heap s0 = heap s ++ [Some (Live <$> vs)]).
  { unfold s0. rewrite written_pos by lia. cbn [heap log set_buffer set_heap].
    unfold s1. cbn [heap log set_heap]. rewrite app_nil_r. apply insert_fresh. }
  assert (Ht0 : trace s0 = trace s ++ [EvAllocate p' (Z.of_nat (length vs))] ++
                             construct_events p' 0 vs).
  { unfold s0. rewrite trace_written by (intros Hz; lia).
    unfold s1. cbn [trace log set_heap]. by rewrite <- app_assoc. }
  eexists. split; [done|].
  assert (Hfinal : <[b:=None]> (heap s3) = <[b:=None]> (heap s) ++ [Some (Live <$> vs)]).
  { unfold s3. cbn [heap log]. change (written _ _ _ _ s1) with s0.
    cbn [heap set_buffer set_heap]. rewrite list_insert_insert_eq, Hheap0.
    by rewrite insert_app_l. }
  assert (Hm3 : metadata_ s3 = metadata_ s).
  { unfold s3. cbn [metadata_ log set_buffer set_heap]. by rewrite metadata_written. }
  assert (Ht3 : trace s3 = trace s ++ [EvAllocate p' (Z.of_nat (length vs))] ++
                             construct_events p' 0 vs ++
                             destroy_events (slot_ptr (heap_block b) 0) 0 (length vs)).
  { unfold s3. cbn [trace log]. change (written _ _ _ _ s1) with s0.
    cbn [trace set_buffer set_heap]. rewrite Ht0. by rewrite <- !app_assoc. }
  clearbody s3.
  split; [|split].
  - unfold Stores. simpl capacity_of. simpl region_of.
    split; [lia|]. split; [lia|]. split; [|split].
    + unfold buffer_at. cbn [heap set_data log set_heap]. rewrite Hfinal.
      rewrite lookup_app_r by (rewrite length_insert; fold b'; lia).
      rewrite length_insert. fold b'. rewrite Nat.sub_diag. simpl.
      rewrite holds_full by lia. done.
    + cbn [metadata_ set_data log set_heap]. by rewrite Hm3.
    + done.
  - cbn [heap set_data log set_heap]. exact Hfinal.
  - cbn [trace set_data log set_heap]. rewrite Ht3. by rewrite <- !app_assoc.
Qed.

Lemma ShrinkToFit_full b cap vs (s : state T) :
  Stores s (Heap b cap) vs ->
  (N < length vs)%nat ->
  Z.of_nat (length vs) = cap ->
  ShrinkToFit @ s ==> Ret tt s.
Proof.
  intros Hs HN Hfull.
  pose proof (Stores_flag _ _ _ Hs) as Hflag. pose proof (Stores_size _ _ _ Hs) as Hsize.
  destruct Hs as (Hmax & Hcap & Hbuf & Hmeta & Hdata). simpl in Hflag.
  unfold ShrinkToFit.
  rewrite bind_gets, Hflag. unfold assert at 1. rewrite bind_pure.
  erewrite bind_ret by (by eapply GetAllocatedData_run).
  rewrite bind_gets, Hsize.
  erewrite bind_ret by (by eapply GetAllocatedCapacity_run).
  cbv zeta. cbn [data size capacity]. rewrite static_cast_N.
  rewrite (proj2 (Z.leb_gt _ _)) by lia.
  rewrite !bind_bind.
  erewrite bind_ret by (by eapply GetAllocatedCapacity_run).
  rewrite (proj2 (Z.ltb_ge _ _)) by lia.
  rewrite bind_pure. done.
Qed.

(** X22.  [ShrinkToFit] on a heap storage of more than [N] elements, fewer
    than its capacity, when neither the allocator nor a move throws: the
    elements are moved to a fresh block whose capacity is exactly their
    number, and the old block is given back with the capacity it had.
    The allocator sees one [allocate] and then one [deallocate]. *)
Theorem ShrinkToFit_moves_to_exact_block b cap vs (s : state T) :
  Stores s (Heap b cap) vs ->
  (N < length vs)%nat ->
  Z.of_nat (length vs) < cap ->
  allocate_throws (trace s) (Z.of_nat (length vs)) = None ->
  first_move_throw vs = None ->
  let fresh := length (heap s) in
  exists s',
    ShrinkToFit @ s ==> Ret tt s' /\
    Stores s' (Heap fresh (Z.of_nat (length vs))) vs /\
    GetSize s' = GetSize s /\
    heap s' = <[b := None]> (heap s) ++ [Some (Live <$> vs)] /\
    allocation_calls (trace s') =
      allocation_calls (trace s) ++
        [EvAllocate (slot_ptr (heap_block fresh) 0) (Z.of_nat (length vs));
         EvDeallocate (slot_ptr (heap_block b) 0) cap].
Proof.
  intros Hs HN Hlt Ha Hf fresh.
  destruct (ShrinkToFit_to_block b cap vs s Hs HN Hlt Ha Hf) as (s' & Hrun & Hs' & Hh & Ht).
  exists s'. split; [done|]. split; [done|].
  split; [by rewrite (Stores_size _ _ _ Hs), (Stores_size _ _ _ Hs')|].
  split; [done|].
  rewrite Ht, !allocation_calls_app, allocation_calls_construct, allocation_calls_destroy.
  done.
Qed.

(** X23.  [ShrinkToFit] keeps a storage well formed on every path.  Called on
    a well-formed heap storage it returns or throws, never runs into
    undefined behaviour, and leaves a well-formed storage with as many
    elements as before, whatever the allocator and the moves throw. *)
Theorem ShrinkToFit_keeps_well_formed b cap vs (s : state T) :
  Stores s (Heap b cap) vs ->
  exists s' m' vs',
    final_state (ShrinkToFit s) = Some s' /\ Stores s' m' vs' /\ length vs' = length vs.
Proof.
  intros Hs.
  assert (Hthrow : forall j e rest,
            first_move_throw vs = Some (j, (e, rest)) ->
            (length vs <= N)%nat \/
              (Z.of_nat (length vs) < cap /\
               allocate_throws (trace s) (Z.of_nat (length vs)) = None) ->
            exists s' m' vs',
              final_state (ShrinkToFit s) = Some s' /\ Stores s' m' vs' /\
              length vs' = length vs).
  { intros j e rest Hf Hpath.
    destruct (ShrinkToFit_throw b cap vs j e rest s Hs Hf Hpath)
      as (s' & Hrun & Hm & _ & Hs' & _).
    rewrite Hrun. do 3 eexists. split; [done|]. split; [exact Hs'|].
    pose proof (Stores_size _ _ _ Hs) as Hsz. pose proof (Stores_size _ _ _ Hs') as Hsz'.
    unfold GetSize, GetSizeAndIsAllocated in *. rewrite Hm in Hsz'. lia. }
  destruct (decide (length vs <= N)%nat) as [HN|HN].
  - destruct (first_move_throw vs) as [[j [e rest]]|] eqn:Hf; [by eapply Hthrow; eauto|].
    destruct (ShrinkToFit_to_inline b cap vs s Hs HN Hf) as (s' & Hrun & Hs' & _).
    rewrite Hrun. by do 3 eexists.
  - destruct (Z.ltb_spec (Z.of_nat (length vs)) cap) as [Hlt|Hge].
    + destruct (allocate_throws (trace s) (Z.of_nat (length vs))) as [e|] eqn:Ha.
      * rewrite (ShrinkToFit_allocate_throws b cap vs e s) by (done || lia).
        by do 3 eexists.
      * destruct (first_move_throw vs) as [[j [e rest]]|] eqn:Hf; [by eapply Hthrow; eauto|].
        destruct (ShrinkToFit_to_block b cap vs s Hs ltac:(lia) Hlt Ha Hf)
          as (s' & Hrun & Hs' & _).
        rewrite Hrun. by do 3 eexists.
    + assert (Hfull : Z.of_nat (length vs) = cap)
        by (destruct Hs as (_ & ? & _); simpl in *; lia).
      rewrite (ShrinkToFit_full b cap vs s) by (done || lia).
      by do 3 eexists.
Qed.

(** X24.  [ShrinkToFit] a second time changes nothing: after a call that left
    a heap storage, the size equals the capacity and the next call
    returns with the storage exactly as the first one left it. *)
Theorem ShrinkToFit_twice b cap vs (s : state T) :
  Stores s (Heap b cap) vs ->
  (N < length vs)%nat ->
  allocate_throws (trace s) (Z.of_nat (length vs)) = None ->
  first_move_throw vs = None ->
  exists s',
    ShrinkToFit @ s ==> Ret tt s' /\
    ShrinkToFit @ s' ==> Ret tt s'.
Proof.
  intros Hs HN Ha Hf.
  destruct (Z.ltb_spec (Z.of_nat (length vs)) cap) as [Hlt|Hge].
  - destruct (ShrinkToFit_to_block b cap vs s Hs HN Hlt Ha Hf) as (s' & Hrun & Hs' & _).
    exists s'. split; [done|]. by eapply ShrinkToFit_full.
  - assert (Hfull : Z.of_nat (length vs) = cap) by (destruct Hs as (_ & ? & _); simpl in *; lia).
    exists s. split; by eapply ShrinkToFit_full.
Qed.

Section EveryPath.
Context {A : Type} {VS : ValueSequence (T:=T) (E:=E) A}.

(** X25.  [Initialize] leaves a well-formed storage on every path.  Called on
    an empty inline storage with a size the metadata word can hold, it
    returns or throws, never runs into undefined behaviour, and leaves a
    well-formed storage, whatever the adapter and the allocator throw. *)
Theorem Initialize_keeps_well_formed (values : A) (new_size : Z) (s : state T) :
  Stores s Inline [] ->
  0 <= new_size <= max_size ->
  exists s' m' vs',
    final_state (Initialize values new_size s) = Some s' /\ Stores s' m' vs'.
Proof.
  intros Hs Hn.
  assert (Hcases : (Z.of_nat N < new_size -> allocate_throws (trace s) new_size = None) \/
                   exists e, Z.of_nat N < new_size /\
                             allocate_throws (trace s) new_size = Some e).
  { destruct (Z.ltb_spec (Z.of_nat N) new_size) as [Hlt|Hge]; [|left; lia].
    destruct (allocate_throws (trace s) new_size) as [e|]; [right; eauto|by left]. }
  destruct Hcases as [Ha|(e & Hlt & Ha)].
  - destruct (first_construct_throw values (Z.to_nat new_size)) as [[j e]|] eqn:Hf.
    + destruct (Initialize_throw values new_size j e s Hs Hf Ha) as (s' & Hrun & Hs').
      rewrite Hrun. destruct (new_size <=? Z.of_nat N).
      * destruct Hs' as (Hs' & _). by do 3 eexists.
      * destruct Hs' as (Hs' & _). by do 3 eexists.
    + destruct (Initialize_ret values new_size s Hs Hn Hf Ha) as (s' & Hrun & Hs').
      rewrite Hrun. by do 3 eexists.
  - rewrite (Initialize_allocate_throws values new_size e s) by done.
    by do 3 eexists.
Qed.

Lemma heap_written_arena k l evs (s : state T) :
  heap (written k inlined_arena l evs s) = heap s.
Proof. by destruct k. Qed.

Lemma Initialize_run (values : A) (k : Z) (s : state T) :
  Stores s Inline [] ->
  0 <= k <= max_size ->
  first_construct_throw values (Z.to_nat k) = None ->
  (Z.of_nat N < k -> allocate_throws (trace s) k = None) ->
  let vals := adapter_values values (Z.to_nat k) in
  let p := slot_ptr (heap_block (length (heap s))) 0 in
  exists s',
    Initialize values k @ s ==> Ret tt s' /\
    if k <=? Z.of_nat N
    then
      Stores s' Inline vals /\ heap s' = heap s /\
      trace s' = trace s ++ construct_events GetInlinedData 0 vals
    else
      Stores s' (Heap (length (heap s)) k) vals /\
      heap s' = heap s ++ [Some (Live <$> vals)] /\
      trace s' = trace s ++ [EvAllocate p k] ++ construct_events p 0 vals.
Proof.
  intros Hs Hk Hf Ha vals p.
  destruct (Initialize_ret values k s Hs Hk Hf Ha) as (s' & Hrun & Hs').
  exists s'. split; [done|].
  destruct (Z.leb_spec k (Z.of_nat N)) as [Hle|Hgt].
  - split; [done|].
    rewrite Initialize_inline_unfold in Hrun by done.
    destruct Hs as (_ & _ & Hbuf & Hmeta). simpl in Hbuf, Hmeta.
    rewrite Nat2Z.id, holds_nil in Hbuf.
    unfold GetInlinedData in Hrun.
    erewrite bind_ret in Hrun.
    2: { eapply (ConstructElements_sequence_ret inlined_arena 0 []
                   (replicate (N - Z.to_nat k) Raw) (Z.to_nat k));
         [ | done | lia | done].
         simpl. rewrite Hbuf, <- replicate_add. do 2 f_equal. lia. }
    injection Hrun as <-. cbn [heap trace set_metadata].
    split; [apply heap_written_arena|].
    apply trace_written. fold vals. intros Hz. unfold vals. by rewrite Hz.
  - split; [done|].
    rewrite Initialize_heap_unfold in Hrun by auto.
    erewrite bind_ret in Hrun.
    2: { eapply (ConstructElements_sequence_ret (heap_block (length (heap s))) 0 [] []
                   (Z.to_nat k)); [ | done | lia | done].
         simpl app. rewrite app_nil_r. apply heap_lookup_buffer. apply lookup_fresh. }
    injection Hrun as <-. rewrite written_pos by lia.
    cbn [heap trace set_metadata log set_buffer set_heap]. fold vals p.
    split; [simpl app; rewrite app_nil_r; apply insert_fresh|].
    by rewrite <- app_assoc.
Qed.

(** X26.  Construction followed by destruction leaks nothing.  After an
    [Initialize] that returns, [DestroyAndDeallocate] destroys each of
    the [new_size] elements that were constructed and, beyond [N], gives
    back the one block that was allocated, with the capacity it was
    allocated with; no block and no element is left live. *)
Theorem Initialize_then_DestroyAndDeallocate (values : A) (new_size : Z) (s : state T) :
  Stores s Inline [] ->
  0 <= new_size <= max_size ->
  first_construct_throw values (Z.to_nat new_size) = None ->
  (Z.of_nat N < new_size -> allocate_throws (trace s) new_size = None) ->
  let vals := adapter_values values (Z.to_nat new_size) in
  let p := slot_ptr (heap_block (length (heap s))) 0 in
  exists s' s'',
    Initialize values new_size @ s ==> Ret tt s' /\
    DestroyAndDeallocate @ s' ==> Ret tt s'' /\
    buffer_at inlined_arena s'' = Some (replicate N Raw) /\
    if new_size <=? Z.of_nat N
    then
      heap s'' = heap s /\
      trace s'' = trace s ++ construct_events GetInlinedData 0 vals ++
                    destroy_events GetInlinedData 0 (Z.to_nat new_size)
    else
      heap s'' = heap s ++ [None] /\
      trace s'' = trace s ++ [EvAllocate p new_size] ++ construct_events p 0 vals ++
                    destroy_events p 0 (Z.to_nat new_size) ++ [EvDeallocate p new_size].
Proof.
  intros Hs Hn Hf Ha vals p.
  destruct (Initialize_run values new_size s Hs Hn Hf Ha) as (s' & Hrun & Hs').
  fold vals p in Hs'.
  assert (Hlv : length vals = Z.to_nat new_size) by apply length_adapter_values.
  destruct (new_size <=? Z.of_nat N).
  - destruct Hs' as (Hs' & Hh & Ht).
    destruct (DestroyAndDeallocate_run _ _ _ Hs') as (s'' & Hrun' & Ht' & Hh' & Ha' & _).
    exists s', s''. split; [done|]. split; [done|]. split; [done|].
    split; [congruence|]. rewrite Ht', Ht, Hlv, app_nil_r. by rewrite <- app_assoc.
  - destruct Hs' as (Hs' & Hh & Ht).
    destruct (DestroyAndDeallocate_run _ _ _ Hs') as (s'' & Hrun' & Ht' & Hh' & Ha' & _).
    exists s', s''. split; [done|]. split; [done|]. split; [done|].
    split.
    + rewrite Hh', Hh. apply insert_fresh.
    + rewrite Ht', Ht, Hlv. unfold data_of. simpl region_of. fold p.
      by rewrite <- !app_assoc.
Qed.

(** X27.  [Assign] and [ShrinkToFit] compose.  After a heap storage is
    assigned at most [N] elements, within its capacity, [ShrinkToFit]
    brings it back inline with exactly those elements and gives its
    block back, when no assignment, construction or move throws. *)
Theorem Assign_then_ShrinkToFit (values : A) (new_size : Z) b cap vs (s : state T) :
  Stores s (Heap b cap) vs ->
  0 <= new_size <= Z.of_nat N ->
  new_size <= cap ->
  first_assign_throw values (take (Z.to_nat new_size) vs) = None ->
  first_construct_throw (advance_n values (length vs)) (Z.to_nat new_size - length vs) = None ->
  first_move_throw (adapter_values values (Z.to_nat new_size)) = None ->
  exists s1 s2,
    Assign values new_size @ s ==> Ret tt s1 /\
    ShrinkToFit @ s1 ==> Ret tt s2 /\
    Stores s2 Inline (adapter_values values (Z.to_nat new_size)) /\
    GetIsAllocated s2 = false /\
    buffer_at (heap_block b) s2 = None.
Proof.
  intros Hs Hn Hcap Hfa Hfc Hfm.
  destruct (Assign_within_ret values new_size (Heap b cap) vs s Hs ltac:(simpl; lia)
              ltac:(lia) Hfa Hfc) as (s1 & Hrun1 & Hs1).
  destruct (ShrinkToFit_to_inline b cap _ s1 Hs1 ltac:(rewrite length_adapter_values; lia) Hfm)
    as (s2 & Hrun2 & Hs2 & Hh & _).
  exists s1, s2. split; [done|]. split; [done|]. split; [done|].
  split; [apply (Stores_flag _ _ _ Hs2)|].
  destruct Hs1 as (_ & _ & Hbuf & _). simpl in Hbuf. apply heap_lookup_buffer in Hbuf.
  simpl. rewrite Hh, list_lookup_insert_eq by (by eapply lookup_lt_Some). done.
Qed.

End EveryPath.

(** ** The value adapters *)

Lemma copy_adapter_values v k :
  adapter_values {| ptr_ := v |} k = replicate k v /\
  advance_n {| ptr_ := v |} k = {| ptr_ := v |}.
Proof. induction k as [|k [IHv IHa]]; [done|]. simpl. by rewrite IHv, IHa. Qed.

Lemma copy_adapter_first_throw v k :
  copy_throws v = None -> first_construct_throw {| ptr_ := v |} k = None.
Proof. intros Hv. induction k as [|k IH]; [done|]. simpl. by rewrite Hv, IH. Qed.

(** X28.  [ConstructElements] with a [CopyValueAdapter] for [v], when copying
    [v] does not throw, fills the [k] raw slots with [k] copies of [v]
    and makes [k] calls to [construct]. *)
Theorem CopyValueAdapter_constructs_copies v r o pre post k (s : state T) :
  buffer_at r s = Some (pre ++ replicate k Raw ++ post) ->
  length pre = o ->
  copy_throws v = None ->
  exists s',
    ConstructElements (slot_ptr r o) {| ptr_ := v |} (Z.of_nat k) @ s ==>
      Ret {| ptr_ := v |} s' /\
    buffer_at r s' = Some (pre ++ replicate k (Live v) ++ post) /\
    trace s' = trace s ++ construct_events (slot_ptr r o) 0 (replicate k v).
Proof.
  intros Hbuf Ho Hv.
  pose proof (ConstructElements_sequence_ret r o pre post k (Z.of_nat k) {| ptr_ := v |} s
                Hbuf Ho eq_refl (copy_adapter_first_throw v k Hv)) as Hrun.
  destruct (copy_adapter_values v k) as [Hvals Hadv]. rewrite Hvals, Hadv in Hrun.
  eexists. split; [exact Hrun|]. split.
  - erewrite buffer_at_written; [| exact Hbuf |].
    + by rewrite fmap_replicate.
    + by intros ->.
  - apply trace_written. by intros ->.
Qed.

Section Iterators.
Context {It : Type} {I : Iterator (T:=T) It}.

Lemma iterator_adapter_values k : forall (it : It),
  adapter_values {| it_ := it |} k = (fun i => deref (Nat.iter i incr it)) <$> seq 0 k /\
  advance_n {| it_ := it |} k = {| it_ := Nat.iter k incr it |}.
Proof.
  induction k as [|k IH]; intros it; [done|].
  destruct (IH (incr it)) as [IHv IHa]. split.
  - simpl. rewrite IHv. f_equal. rewrite <- fmap_S_seq, <- list_fmap_compose.
    apply list_fmap_ext. intros _ i _. simpl. by rewrite <- Nat.iter_succ_r.
  - simpl advance_n. rewrite IHa. by rewrite <- Nat.iter_succ_r.
Qed.

Lemma iterator_adapter_first_throw k : forall (it : It),
  (forall i, (i < k)%nat -> copy_throws (deref (Nat.iter i incr it)) = None) ->
  first_construct_throw {| it_ := it |} k = None.
Proof.
  induction k as [|k IH]; intros it Hit; [done|]. simpl.
  pose proof (Hit O ltac:(lia)) as H0. simpl in H0. rewrite H0, IH; [done|].
  intros i Hi. rewrite <- Nat.iter_succ_r. apply Hit. lia.
Qed.

(** X29.  [ConstructElements] with an [IteratorValueAdapter], when no copy
    throws, constructs in slot [i] a copy of the element the iterator
    points to after [i] increments, and leaves the adapter [k] increments
    on. *)
Theorem IteratorValueAdapter_copies_range (it : It) r o pre post k (s : state T) :
  buffer_at r s = Some (pre ++ replicate k Raw ++ post) ->
  length pre = o ->
  (forall i, (i < k)%nat -> copy_throws (deref (Nat.iter i incr it)) = None) ->
  exists s',
    ConstructElements (slot_ptr r o) {| it_ := it |} (Z.of_nat k) @ s ==>
      Ret {| it_ := Nat.iter k incr it |} s' /\
    buffer_at r s' =
      Some (pre ++ ((fun i => Live (deref (Nat.iter i incr it))) <$> seq 0 k) ++ post).
Proof.
  intros Hbuf Ho Hit.
  pose proof (ConstructElements_sequence_ret r o pre post k (Z.of_nat k) {| it_ := it |} s
                Hbuf Ho eq_refl (iterator_adapter_first_throw k it Hit)) as Hrun.
  destruct (iterator_adapter_values k it) as [Hvals Hadv]. rewrite Hvals, Hadv in Hrun.
  eexists. split; [exact Hrun|].
  erewrite buffer_at_written; [| exact Hbuf |].
  - by rewrite <- list_fmap_compose.
  - by intros ->.
Qed.

End Iterators.

Lemma default_adapter_values k :
  adapter_values default_values k = replicate k default_value /\
  advance_n default_values k = default_values.
Proof. induction k as [|k [IHv IHa]]; [done|]. simpl. by rewrite IHv, IHa. Qed.

Lemma default_adapter_first_assign_throw olds :
  default_throws = None ->
  Forall (fun old => move_assign_throws old default_value = None) olds ->
  first_assign_throw default_values olds = None.
Proof.
  intros Hd Hall. induction Hall as [|old olds Hold _ IH]; [done|].
  simpl. by rewrite Hd, Hold, IH.
Qed.

(** X30.  [AssignElements] with a [DefaultValueAdapter] builds a default value
    for each element and move-assigns it.  When the default constructor
    throws, the exception propagates from the first assignment and every
    element is untouched; when neither it nor a move assignment throws,
    every element becomes the default value. *)
Theorem DefaultValueAdapter_assigns_defaults r o pre post olds (s : state T) :
  buffer_at r s = Some (pre ++ (Live <$> olds) ++ post) ->
  length pre = o ->
  olds <> [] ->
  match default_throws with
  | Some e =>
      exists s',
        AssignElements (slot_ptr r o) default_values (Z.of_nat (length olds)) @ s ==>
          Throw e s' /\
        buffer_at r s' = Some (pre ++ (Live <$> olds) ++ post) /\
        trace s' = trace s
  | None =>
      Forall (fun old => move_assign_throws old default_value = None) olds ->
      exists s',
        AssignElements (slot_ptr r o) default_values (Z.of_nat (length olds)) @ s ==>
          Ret default_values s' /\
        buffer_at r s' = Some (pre ++ replicate (length olds) (Live default_value) ++ post) /\
        trace s' = trace s
  end.
Proof.
  intros Hbuf Ho Hne.
  pose proof (AssignElements_spec r o pre post olds (Z.of_nat (length olds)) default_values s
                Hbuf Ho eq_refl) as Hrun.
  destruct default_throws as [e|] eqn:Hd.
  - destruct olds as [|old olds]; [done|].
    simpl first_assign_throw in Hrun. rewrite Hd in Hrun.
    eexists. split; [exact Hrun|]. simpl. split; [|by destruct r].
    rewrite drop_0. by eapply buffer_at_set_buffer.
  - intros Hall. rewrite (default_adapter_first_assign_throw olds Hd Hall) in Hrun.
    destruct (default_adapter_values (length olds)) as [Hvals Hadv].
    rewrite Hvals, Hadv in Hrun.
    eexists. split; [exact Hrun|]. split.
    + erewrite buffer_at_written; [| exact Hbuf |].
      * by rewrite fmap_replicate.
      * intros Hz. apply nil_length_inv in Hz. by subst olds.
    + rewrite trace_written by done. apply app_nil_r.
Qed.

End Theory.

(** * The claims on concrete storages *)

Import Scenario.

Lemma four_inline_fits : Z.of_nat N <= max_size.
Proof. by vm_compute. Qed.

Lemma Stores_empty_storage : Stores empty_storage Inline [].
Proof. by vm_compute. Qed.

Lemma Stores_inline_pair : Stores inline_pair Inline [0; 0].
Proof. by vm_compute. Qed.

Lemma Stores_heap_three : Stores heap_three (Heap 0 10) [1; 2; 3].
Proof. by vm_compute. Qed.

Lemma Stores_heap_unmovable : Stores heap_unmovable (Heap 0 10) [12; 14; 15].
Proof. by vm_compute. Qed.

Lemma reachable_heap_full : reachable heap_full.
Proof.
  apply (reachable_Initialize empty_storage heap_full _ _ {| ptr_ := 7 |} 6).
  - apply reachable_empty, Stores_empty_storage.
  - by vm_compute.
Qed.

Lemma copies_never_throw k : never_throws {| ptr_ := 7 |} k.
Proof.
  intros i _.
  assert (Hi : advance_n {| ptr_ := 7 |} i = {| ptr_ := 7 |}) by (induction i; auto).
  rewrite Hi. by split.
Qed.

Lemma Assign_grow_strong_guarantee_witness :
  exists s',
    Assign (counting_from 11) 6 inline_pair = Throw 1%nat s' /\
    metadata_ s' = metadata_ inline_pair /\
    data_ s' = data_ inline_pair /\
    Stores s' Inline [0; 0] /\
    heap s' = [None] /\
    allocation_calls (trace s') =
      [EvAllocate (slot_ptr (heap_block 0) 0) 6; EvDeallocate (slot_ptr (heap_block 0) 0) 6].
Proof.
  refine (Assign_grow_strong_guarantee four_inline_fits (counting_from 11) 6 2 1%nat
            Inline [0; 0] inline_pair Stores_inline_pair _ _ _); by vm_compute.
Defined.

(** C2 as the specification states it fails: with [N = 4], [Initialize]
    to six values whose second one cannot be copied throws and leaves
    the storage in heap mode, the block it allocated still live, and
    [deallocate] has not been called. *)
Lemma Initialize_throw_leaves_heap_mode :
  GetIsAllocated empty_storage = false /\
  exists s',
    Initialize (counting_from 12) 6 empty_storage = Throw 1%nat s' /\
    GetIsAllocated s' = true /\
    heap s' = [Some (replicate 6 Raw)] /\
    allocation_calls (trace s') = [EvAllocate (slot_ptr (heap_block 0) 0) 6].
Proof. split; [done|]. eexists. split; [by vm_compute|]. by vm_compute. Qed.

Lemma Initialize_failure_witness :
  exists s',
    Initialize (counting_from 12) 6 empty_storage = Throw 1%nat s' /\
    Stores s' (Heap 0 6) [] /\
    exists s'', DestroyAndDeallocate (E:=nat) s' = Ret tt s'' /\ heap s'' = [None].
Proof.
  destruct (Initialize_failure four_inline_fits (counting_from 12) 6 1 1%nat empty_storage
              Stores_empty_storage ltac:(by vm_compute) ltac:(by vm_compute))
    as (s' & Hrun & Hs' & _ & _ & s'' & Hrun' & Hheap & _).
  exists s'. split; [exact Hrun|]. split; [exact Hs'|].
  exists s''. split; [exact Hrun'|exact Hheap].
Defined.

Lemma Assign_contents_witness :
  exists s',
    Assign {| ptr_ := 7 |} 6 inline_pair = Ret tt s' /\
    GetSize s' = 6 /\
    Stores s' (Heap 0 6) [7; 7; 7; 7; 7; 7].
Proof.
  refine (Assign_contents four_inline_fits {| ptr_ := 7 |} 6 Inline [0; 0] inline_pair
            Stores_inline_pair _ (copies_never_throw _) _); by vm_compute.
Defined.

Lemma Initialize_contents_witness :
  exists s',
    Initialize {| ptr_ := 7 |} 6 empty_storage = Ret tt s' /\
    Stores s' (Heap 0 6) [7; 7; 7; 7; 7; 7].
Proof.
  refine (Initialize_contents four_inline_fits {| ptr_ := 7 |} 6 empty_storage
            Stores_empty_storage _ _ _); by vm_compute.
Defined.

Lemma ShrinkToFit_reverts_to_inline_witness :
  exists s',
    ShrinkToFit heap_three = Ret tt s' /\
    Stores s' Inline [1; 2; 3] /\
    GetIsAllocated s' = false /\
    heap s' = [None] /\
    allocation_calls (trace s') = [EvDeallocate (slot_ptr (heap_block 0) 0) 10].
Proof.
  refine (ShrinkToFit_reverts_to_inline four_inline_fits 0 10 [1; 2; 3] heap_three
            Stores_heap_three _ _); [cbv; lia | by vm_compute].
Defined.

Lemma ShrinkToFit_full_is_noop_witness : ShrinkToFit heap_full = Ret tt heap_full.
Proof.
  refine (ShrinkToFit_full_is_noop four_inline_fits (slot_ptr (heap_block 0) 0) 6 heap_full
            reachable_heap_full _ _ _); by vm_compute.
Defined.

Lemma ShrinkToFit_restores_on_throw_witness :
  exists s',
    ShrinkToFit heap_unmovable = Throw 3%nat s' /\
    metadata_ s' = metadata_ heap_unmovable /\
    data_ s' = data_ heap_unmovable /\
    Stores s' (Heap 0 10) [0; 14; 15].
Proof.
  destruct (ShrinkToFit_restores_on_throw four_inline_fits 0 10 [12; 14; 15] 1 3%nat 14
              heap_unmovable Stores_heap_unmovable ltac:(by vm_compute)
              ltac:(left; cbv; lia))
    as (s' & Hrun & Hm & Hd & Hs' & _).
  exists s'. split; [exact Hrun|]. split; [exact Hm|]. split; [exact Hd|exact Hs'].
Defined.

Lemma ConstructElements_rollback_witness :
  (exists s',
     ConstructElements (slot_ptr inlined_arena 0) (counting_from 5) 3 empty_storage =
       Ret (E:=nat) (counting_from 8) s' /\
     buffer_at inlined_arena s' = Some [Live 5; Live 6; Live 7; Raw]) /\
  (exists s',
     ConstructElements (slot_ptr inlined_arena 0) (counting_from 11) 4 empty_storage =
       Throw 1%nat s' /\
     buffer_at inlined_arena s' = Some [Raw; Raw; Raw; Raw] /\
     trace s' = [EvConstruct (slot_ptr inlined_arena 0) 11;
                 EvConstruct (slot_ptr inlined_arena 1) 12;
                 EvDestroy (slot_ptr inlined_arena 0);
                 EvDestroy (slot_ptr inlined_arena 1)] /\
     metadata_ s' = 0).
Proof.
  split.
  - eexists. split.
    + refine (proj1 (ConstructElements_rollback inlined_arena 0 (counting_from 5) 3
                       empty_storage) _ _ _).
      by vm_compute.
    + by vm_compute.
  - destruct (proj2 (ConstructElements_rollback inlined_arena 0 (counting_from 11) 4
                       empty_storage)
                2%nat (counting_from 13)
                (mk_state 0 (inlined [Live 11; Live 12; Raw; Raw]) []
                   [EvConstruct (slot_ptr inlined_arena 0) 11;
                    EvConstruct (slot_ptr inlined_arena 1) 12])
                (mk_state 0 (inlined [Live 11; Live 12; Raw; Raw]) []
                   [EvConstruct (slot_ptr inlined_arena 0) 11;
                    EvConstruct (slot_ptr inlined_arena 1) 12])
                1%nat [] [11; 12] [Raw; Raw]
                ltac:(by vm_compute) ltac:(by vm_compute) ltac:(by vm_compute)
                ltac:(by vm_compute) ltac:(by vm_compute) ltac:(by vm_compute))
      as (s' & Hrun & Hbuf & Ht & Hm & _).
    exists s'. split; [exact Hrun|]. split; [exact Hbuf|]. split; [exact Ht|exact Hm].
Defined.

Lemma Assign_within_capacity_keeps_buffer_witness :
  exists s',
    final_state (Assign (counting_from 20) 5 heap_three) = Some s' /\
    GetIsAllocated s' = true /\
    data_ s' = allocated (slot_ptr (heap_block 0) 0) 10 /\
    allocation_calls (trace s') = [] /\
    length (heap s') = 1%nat.
Proof.
  refine (Assign_within_capacity_keeps_buffer four_inline_fits (counting_from 20) 5 0 10
            [1; 2; 3] heap_three Stores_heap_three _ _); by vm_compute.
Defined.

Lemma heap_capacity_exceeds_inline_witness :
  exists b cap,
    data_ heap_full = allocated (slot_ptr (heap_block b) 0) cap /\
    Z.of_nat N < cap /\
    (GetSize heap_full <= Z.of_nat N -> GetSize heap_full < cap).
Proof.
  refine (heap_capacity_exceeds_inline four_inline_fits heap_full reachable_heap_full _).
  by vm_compute.
Defined.

(** * The further properties on concrete storages *)

Lemma Stores_heap_six : Stores heap_six (Heap 0 10) [1; 2; 3; 4; 5; 6].
Proof. by vm_compute. Qed.

Lemma SetSize_GetSize_witness :
  exists s',
    SetSize (E:=nat) (max_size + 6) empty_storage = Ret tt s' /\
    GetSize s' = 5 /\
    (max_size + 6 <= max_size -> GetSize s' = max_size + 6) /\
    GetIsAllocated s' = GetIsAllocated empty_storage /\
    data_ s' = data_ empty_storage /\ heap s' = heap empty_storage /\
    trace s' = trace empty_storage.
Proof. refine (SetSize_GetSize (E:=nat) (max_size + 6) empty_storage _). by vm_compute. Defined.

Lemma SetAllocatedSize_SetInlinedSize_witness :
  exists s1 s0,
    SetAllocatedSize (E:=nat) 3 empty_storage = Ret tt s1 /\
    GetSize s1 = 3 /\ GetIsAllocated s1 = true /\
    SetInlinedSize (E:=nat) 3 empty_storage = Ret tt s0 /\
    GetSize s0 = 3 /\ GetIsAllocated s0 = false.
Proof.
  refine (SetAllocatedSize_SetInlinedSize (E:=nat) 3 empty_storage _). by vm_compute.
Defined.

Lemma mode_setters_keep_size_witness :
  exists s1 s0,
    SetIsAllocated (E:=nat) heap_three = Ret tt s1 /\
    GetSize s1 = 3 /\ GetIsAllocated s1 = true /\
    UnsetIsAllocated (E:=nat) heap_three = Ret tt s0 /\
    GetSize s0 = 3 /\ GetIsAllocated s0 = false.
Proof. refine (mode_setters_keep_size (E:=nat) heap_three _). by vm_compute. Defined.

Lemma AddSize_GetSize_witness :
  exists s',
    AddSize (E:=nat) 2 inline_pair = Ret tt s' /\
    GetSize s' = 4 /\
    GetIsAllocated s' = false.
Proof. refine (AddSize_GetSize (E:=nat) 2 inline_pair _ _ _); by vm_compute. Defined.

Lemma SubtractSize_GetSize_witness :
  exists s',
    SubtractSize (E:=nat) 1 inline_pair = Ret tt s' /\
    GetSize s' = 1 /\
    GetIsAllocated s' = false.
Proof. refine (SubtractSize_GetSize (E:=nat) 1 inline_pair _ _); by vm_compute. Defined.

Lemma AddSize_SubtractSize_witness :
  (do _ <- AddSize (E:=nat) 2; SubtractSize 2) inline_pair = Ret tt inline_pair.
Proof. refine (AddSize_SubtractSize (E:=nat) 2 inline_pair _ _ _); by vm_compute. Defined.

Lemma DestroyElements_destroys_witness :
  exists s',
    DestroyElements (E:=nat) (slot_ptr (heap_block 0) 1) 2 heap_three = Ret tt s' /\
    buffer_at (heap_block 0) s' = Some ([Live 1; Raw; Raw] ++ replicate 7 Raw) /\
    trace s' = [EvDestroy (slot_ptr (heap_block 0) 1); EvDestroy (slot_ptr (heap_block 0) 2)] /\
    metadata_ s' = 7 /\
    forall r', heap_block 0 <> r' -> buffer_at r' s' = buffer_at r' heap_three.
Proof.
  refine (DestroyElements_destroys (E:=nat) (heap_block 0) 1 [Live 1] (replicate 7 Raw) [2; 3]
            heap_three _ _); by vm_compute.
Defined.

Lemma ConstructElements_all_or_nothing_witness :
  exists s',
    (ConstructElements (slot_ptr inlined_arena 0) (counting_from 12) 3 empty_storage =
       Throw 1%nat s' /\
     buffer_at inlined_arena s' = Some [Raw; Raw; Raw; Raw] /\
     trace s' = [EvConstruct (slot_ptr inlined_arena 0) 12; EvDestroy (slot_ptr inlined_arena 0)]) /\
    metadata_ s' = 0 /\
    forall r', inlined_arena <> r' -> buffer_at r' s' = buffer_at r' empty_storage.
Proof.
  refine (ConstructElements_all_or_nothing inlined_arena 0 [] [Raw] 3 (counting_from 12)
            empty_storage _ _); by vm_compute.
Defined.

Lemma AssignElements_overwrites_witness :
  exists s',
    (AssignElements (slot_ptr (heap_block 0) 0) (counting_from 12) 3 heap_three =
       Throw 2%nat s' /\
     buffer_at (heap_block 0) s' = Some ([Live 12; Live 2; Live 3] ++ replicate 7 Raw)) /\
    trace s' = [] /\
    metadata_ s' = 7 /\
    forall r', heap_block 0 <> r' -> buffer_at r' s' = buffer_at r' heap_three.
Proof.
  refine (AssignElements_overwrites (heap_block 0) 0 [] (replicate 7 Raw) [1; 2; 3]
            (counting_from 12) heap_three _ _); by vm_compute.
Defined.

Lemma AllocationTransaction_gives_back_witness :
  exists tx s1 s2,
    Allocate new_AllocationTransaction 5 empty_storage =
      Ret (slot_ptr (heap_block 0) 0, tx) s1 /\
    DidAllocate tx = true /\
    delete_AllocationTransaction (E:=nat) tx s1 = Ret tt s2 /\
    heap s2 = [None] /\
    trace s2 = [EvAllocate (slot_ptr (heap_block 0) 0) 5;
                EvDeallocate (slot_ptr (heap_block 0) 0) 5] /\
    metadata_ s2 = 0 /\ data_ s2 = data_ empty_storage.
Proof.
  refine (AllocationTransaction_gives_back 5 empty_storage _ _); by vm_compute.
Defined.

Lemma AcquireAllocation_hands_over_witness :
  exists tx tx' s1 s2,
    Allocate new_AllocationTransaction 5 empty_storage =
      Ret (slot_ptr (heap_block 0) 0, tx) s1 /\
    AcquireAllocation (E:=nat) tx s1 = Ret tx' s2 /\
    DidAllocate tx' = false /\
    delete_AllocationTransaction (E:=nat) tx' s2 = Ret tt s2 /\
    data_ s2 = allocated (slot_ptr (heap_block 0) 0) 5 /\
    metadata_ s2 = 0 /\
    heap s2 = [Some (replicate 5 Raw)] /\
    trace s2 = [EvAllocate (slot_ptr (heap_block 0) 0) 5].
Proof. refine (AcquireAllocation_hands_over 5 empty_storage _). by vm_compute. Defined.

Lemma MakeStorageView_of_storage_witness :
  exists sv,
    MakeStorageView (E:=nat) heap_three = Ret sv heap_three /\
    data sv = slot_ptr (heap_block 0) 0 /\
    capacity sv = 10 /\
    size sv = 3 /\
    0 <= size sv <= capacity sv.
Proof.
  exact (MakeStorageView_of_storage (E:=nat) four_inline_fits (Heap 0 10) [1; 2; 3] heap_three
           Stores_heap_three).
Defined.

Lemma DestroyAndDeallocate_releases_witness :
  exists s',
    DestroyAndDeallocate (E:=nat) heap_three = Ret tt s' /\
    trace s' = [EvDestroy (slot_ptr (heap_block 0) 0); EvDestroy (slot_ptr (heap_block 0) 1);
                EvDestroy (slot_ptr (heap_block 0) 2);
                EvDeallocate (slot_ptr (heap_block 0) 0) 10] /\
    buffer_at (heap_block 0) s' = None /\
    (forall b', heap_block 0 <> heap_block b' -> heap s' !! b' = heap heap_three !! b') /\
    metadata_ s' = 7.
Proof.
  exact (DestroyAndDeallocate_releases (E:=nat) (Heap 0 10) [1; 2; 3] heap_three
           Stores_heap_three).
Defined.

Lemma Initialize_allocation_failure_witness :
  Initialize (Al:=exhausted) (counting_from 0) 6 empty_storage = Throw 4%nat empty_storage.
Proof.
  refine (Initialize_allocation_failure (Al:=exhausted) four_inline_fits (counting_from 0) 6
            4%nat empty_storage Stores_empty_storage _ _); by vm_compute.
Defined.

Lemma Assign_allocation_failure_witness :
  Assign (Al:=exhausted) {| ptr_ := 7 |} 6 inline_pair = Throw 4%nat inline_pair.
Proof.
  refine (Assign_allocation_failure (Al:=exhausted) four_inline_fits {| ptr_ := 7 |} 6 4%nat
            Inline [0; 0] inline_pair Stores_inline_pair _ _); by vm_compute.
Defined.

Lemma ShrinkToFit_allocation_failure_witness :
  ShrinkToFit (Al:=exhausted) heap_six = Throw 4%nat heap_six.
Proof.
  refine (ShrinkToFit_allocation_failure (Al:=exhausted) four_inline_fits 0 10
            [1; 2; 3; 4; 5; 6] 4%nat heap_six Stores_heap_six _ _ _);
    [cbv; lia | by vm_compute | by vm_compute].
Defined.

Lemma Initialize_nothing_witness :
  Initialize (counting_from 0) 0 empty_storage = Ret (E:=nat) tt empty_storage.
Proof.
  exact (Initialize_nothing four_inline_fits (counting_from 0) empty_storage
           Stores_empty_storage).
Defined.

Lemma Assign_assignment_throws_witness :
  exists s',
    Assign (counting_from 12) 3 heap_three = Throw 2%nat s' /\
    metadata_ s' = 7 /\
    Stores s' (Heap 0 10) [12; 2; 3] /\
    trace s' = [] /\
    length (heap s') = 1%nat.
Proof.
  refine (Assign_assignment_throws four_inline_fits (counting_from 12) 3 (Heap 0 10) [1; 2; 3]
            1 2%nat 2 heap_three Stores_heap_three _ _ _); by vm_compute.
Defined.

Lemma Assign_construction_throws_witness :
  exists s',
    Assign (counting_from 9) 6 heap_three = Throw 1%nat s' /\
    metadata_ s' = 7 /\
    Stores s' (Heap 0 10) [9; 10; 11] /\
    trace s' = [EvConstruct (slot_ptr (heap_block 0) 3) 12;
                EvDestroy (slot_ptr (heap_block 0) 3)] /\
    length (heap s') = 1%nat.
Proof.
  refine (Assign_construction_throws four_inline_fits (counting_from 9) 6 (Heap 0 10) [1; 2; 3]
            1 1%nat heap_three Stores_heap_three _ _ _ _); by vm_compute.
Defined.

Lemma Assign_grow_releases_old_buffer_witness :
  exists s',
    Assign {| ptr_ := 7 |} 11 heap_three = Ret (E:=nat) tt s' /\
    trace s' = [EvAllocate (slot_ptr (heap_block 1) 0) 11] ++
                 construct_events (slot_ptr (heap_block 1) 0) 0 (replicate 11 7) ++
                 destroy_events (slot_ptr (heap_block 0) 0) 0 3 ++
                 [EvDeallocate (slot_ptr (heap_block 0) 0) 10] /\
    buffer_at (heap_block 0) s' = None /\
    allocation_calls (trace s') =
      [EvAllocate (slot_ptr (heap_block 1) 0) 11; EvDeallocate (slot_ptr (heap_block 0) 0) 10].
Proof.
  refine (Assign_grow_releases_old_buffer four_inline_fits {| ptr_ := 7 |} 11 (Heap 0 10)
            [1; 2; 3] heap_three Stores_heap_three _ _ _ _); by vm_compute.
Defined.


Lemma ShrinkToFit_moves_to_exact_block_witness :
  exists s',
    ShrinkToFit heap_six = Ret (E:=nat) tt s' /\
    Stores s' (Heap 1 6) [1; 2; 3; 4; 5; 6] /\
    GetSize s' = 6 /\
    heap s' = [None; Some (Live <$> [1; 2; 3; 4; 5; 6])] /\
    allocation_calls (trace s') =
      [EvAllocate (slot_ptr (heap_block 1) 0) 6; EvDeallocate (slot_ptr (heap_block 0) 0) 10].
Proof.
  refine (ShrinkToFit_moves_to_exact_block four_inline_fits 0 10 [1; 2; 3; 4; 5; 6] heap_six
            Stores_heap_six _ _ _ _); [cbv; lia | by vm_compute..].
Defined.

Lemma ShrinkToFit_keeps_well_formed_witness :
  exists s' m' vs',
    final_state (ShrinkToFit heap_unmovable) = Some s' /\ Stores s' m' vs' /\
    length vs' = 3%nat.
Proof.
  exact (ShrinkToFit_keeps_well_formed four_inline_fits 0 10 [12; 14; 15] heap_unmovable
           Stores_heap_unmovable).
Defined.

Lemma ShrinkToFit_twice_witness :
  exists s',
    ShrinkToFit heap_six = Ret (E:=nat) tt s' /\
    ShrinkToFit s' = Ret tt s'.
Proof.
  refine (ShrinkToFit_twice four_inline_fits 0 10 [1; 2; 3; 4; 5; 6] heap_six
            Stores_heap_six _ _ _); [cbv; lia | by vm_compute..].
Defined.

Lemma Initialize_keeps_well_formed_witness :
  exists s' m' vs',
    final_state (Initialize (counting_from 12) 6 empty_storage) = Some s' /\ Stores s' m' vs'.
Proof.
  refine (Initialize_keeps_well_formed four_inline_fits (counting_from 12) 6 empty_storage
            Stores_empty_storage _); by vm_compute.
Defined.

Lemma Initialize_then_DestroyAndDeallocate_witness :
  exists s' s'',
    Initialize {| ptr_ := 7 |} 6 empty_storage = Ret (E:=nat) tt s' /\
    DestroyAndDeallocate (E:=nat) s' = Ret tt s'' /\
    buffer_at inlined_arena s'' = Some (replicate 4 Raw) /\
    heap s'' = [None] /\
    trace s'' = [EvAllocate (slot_ptr (heap_block 0) 0) 6] ++
                  construct_events (slot_ptr (heap_block 0) 0) 0 (replicate 6 7) ++
                  destroy_events (slot_ptr (heap_block 0) 0) 0 6 ++
                  [EvDeallocate (slot_ptr (heap_block 0) 0) 6].
Proof.
  refine (Initialize_then_DestroyAndDeallocate four_inline_fits {| ptr_ := 7 |} 6 empty_storage
            Stores_empty_storage _ _ _); by vm_compute.
Defined.

Lemma CopyValueAdapter_constructs_copies_witness :
  exists s',
    ConstructElements (slot_ptr inlined_arena 0) {| ptr_ := 7 |} 3 empty_storage =
      Ret (E:=nat) {| ptr_ := 7 |} s' /\
    buffer_at inlined_arena s' = Some [Live 7; Live 7; Live 7; Raw] /\
    trace s' = construct_events (slot_ptr inlined_arena 0) 0 [7; 7; 7].
Proof.
  refine (CopyValueAdapter_constructs_copies (E:=nat) 7 inlined_arena 0 [] [Raw] 3
            empty_storage _ _ _); by vm_compute.
Defined.

Lemma IteratorValueAdapter_copies_range_witness :
  exists s',
    ConstructElements (slot_ptr inlined_arena 0) (counting_from 5) 3 empty_storage =
      Ret (E:=nat) (counting_from 8) s' /\
    buffer_at inlined_arena s' = Some [Live 5; Live 6; Live 7; Raw].
Proof.
  refine (IteratorValueAdapter_copies_range (E:=nat) 5 inlined_arena 0 [] [Raw] 3
            empty_storage _ _ _); [by vm_compute | by vm_compute |].
  intros [|[|[|i]]] Hi; [done | done | done | lia].
Defined.

Lemma DefaultValueAdapter_assigns_defaults_witness :
  exists s',
    AssignElements (slot_ptr (heap_block 0) 0) default_values 3 heap_three =
      Ret (E:=nat) default_values s' /\
    buffer_at (heap_block 0) s' = Some ([Live 0; Live 0; Live 0] ++ replicate 7 Raw) /\
    trace s' = [].
Proof.
  refine (DefaultValueAdapter_assigns_defaults (E:=nat) (heap_block 0) 0 []
            (replicate 7 Raw) [1; 2; 3] heap_three _ _ _ _);
    [by vm_compute | by vm_compute | done | by repeat constructor].
Defined.

Lemma Assign_then_ShrinkToFit_witness :
  exists s1 s2,
    Assign {| ptr_ := 7 |} 2 heap_three = Ret (E:=nat) tt s1 /\
    ShrinkToFit s1 = Ret tt s2 /\
    Stores s2 Inline [7; 7] /\
    GetIsAllocated s2 = false /\
    buffer_at (heap_block 0) s2 = None.
Proof.
  refine (Assign_then_ShrinkToFit four_inline_fits {| ptr_ := 7 |} 2 0 10 [1; 2; 3] heap_three
            Stores_heap_three _ _ _ _ _); by vm_compute.
Defined.

(** * The worked scenarios *)

(** With [N = 4]: [Initialize] to two default values stays inline,
    [Assign] to six copies of [7] moves to a block of capacity 6, and
    [ShrinkToFit] then changes nothing. *)
Example scenario_grow_beyond_inline :
  let s1 := after (Initialize default_values 2) empty_storage in
  let s2 := after (Assign {| ptr_ := 7 |} 6) s1 in
  Stores s1 Inline [0; 0] /\
  Stores s2 (Heap 0 6) [7; 7; 7; 7; 7; 7] /\
  ShrinkToFit s2 = Ret tt s2.
Proof. by vm_compute. Qed.

(** With [N = 8]: [Initialize] from the integers [0 .. 9] takes a block of
    capacity 10, [Assign] to three default values keeps that block, and
    [ShrinkToFit] then moves the three elements into the arena and gives
    the block back. *)
Example scenario_shrink_to_inline :
  let eight : InlinedCapacity := 8%nat in
  let s0 := mk_state 0 (inlined (replicate 8 Raw)) [] [] in
  let s1 := after (Initialize (IC:=eight) (counting_from 0) 10) s0 in
  let s2 := after (Assign (IC:=eight) default_values 3) s1 in
  let s3 := after (ShrinkToFit (IC:=eight)) s2 in
  Stores (IC:=eight) s1 (Heap 0 10) [0; 1; 2; 3; 4; 5; 6; 7; 8; 9] /\
  Stores (IC:=eight) s2 (Heap 0 10) [0; 0; 0] /\
  Stores (IC:=eight) s3 Inline [0; 0; 0] /\
  heap s3 = [None] /\
  allocation_calls (trace s3) =
    [EvAllocate (slot_ptr (heap_block 0) 0) 10; EvDeallocate (slot_ptr (heap_block 0) 0) 10].
Proof. by vm_compute. Qed.
